(** * SHPImporter: a shallow embedding of [src/SHPImporter.ts]

    The importer turns a tree of shapefile sidecar files into a three-level
    hierarchy of drawing layers.  This development embeds its functions one by
    one and states the properties of the specification over them.

    Conventions of the embedding.
    - A JavaScript [number] is an IEEE 754 binary64 value, taken from the
      axiom-free specification of floating-point arithmetic ([spec_float]
      with precision 53 and maximal exponent 1024).
    - A JavaScript string is a [string]; its characters stand for the UTF-16
      code units that [length] and [substring] count.
    - An object used as a record ([Record<string, T>]) is a [gmap string T];
      only own string keys are modelled, and a [for ... in] loop visits the
      keys in the enumeration order of the map.
    - [async] functions run in the monad [M]: the state is the history of the
      interactions with the host, and every [await] of a host promise may
      reject, which raises an exception. *)

From Stdlib Require Import ZArith String Ascii Lia.
From Stdlib Require Import Floats.SpecFloat.
From stdpp Require Import base option gmap strings list pretty.

Set Warnings "-register-all".

(** ** JavaScript numbers *)

Definition prec : Z := 53.
Definition emax : Z := 1024.

Abbreviation number := spec_float.

(** A [spec_float] is a number of the language when its mantissa and exponent
    are in the canonical binary64 range. *)
Definition is_number (x : number) : Prop := valid_binary prec emax x = true.

Definition num_zero : number := S754_zero false.

(** [isFinite(x)] *)
Definition isFinite (x : number) : bool :=
  match x with
  | S754_zero _ | S754_finite _ _ _ => true
  | S754_infinity _ | S754_nan => false
  end.

(** [isNaN(x)] *)
Definition isNaN (x : number) : bool :=
  match x with
  | S754_nan => true
  | _ => false
  end.

(** [Number.isInteger(x)] *)
Definition Number_isInteger (x : number) : bool :=
  match x with
  | S754_zero _ => true
  | S754_finite _ m e =>
      if (0 <=? e)%Z then true
      else (Z.land (Z.pos m) (Z.ones (- e)) =? 0)%Z
  | S754_infinity _ | S754_nan => false
  end.

(** [x * y] *)
Definition num_mul (x y : number) : number := SFmul prec emax x y.

(** ** Attribute values *)

(** A [Date] object is determined by its time value, which is [NaN] for an
    invalid date. *)
Record Date := mkDate { valueOf : number }.

(** [PropertyValue = number | string | boolean | Date].  The decoder can also
    deliver a value outside of the declared union ([null] for an empty DBF
    cell); [PNull] stands for it, so that the [default] branches of the source
    are embedded too. *)
Inductive PropertyValue :=
  | PNumber (x : number)
  | PString (s : string)
  | PBoolean (b : bool)
  | PDate (d : Date)
  | PNull.

Inductive PropertyType := TNumber | TString | TBoolean | TDate.

#[global] Instance PropertyType_eq_dec : EqDecision PropertyType.
Proof. solve_decision. Defined.

Definition PropertyType_code (t : PropertyType) : nat :=
  match t with TNumber => 0 | TString => 1 | TBoolean => 2 | TDate => 3 end.

Definition PropertyType_of_code (n : nat) : PropertyType :=
  match n with 0 => TNumber | 1 => TString | 2 => TBoolean | _ => TDate end.

#[global] Instance PropertyType_countable : Countable PropertyType.
Proof.
  apply (inj_countable' PropertyType_code PropertyType_of_code).
  by intros [].
Defined.

(** The key under which a kind is stored in a catalogue entry. *)
Definition PropertyType_name (t : PropertyType) : string :=
  match t with
  | TNumber => "number"
  | TString => "string"
  | TBoolean => "boolean"
  | TDate => "Date"
  end.

(** The double quote character of the template literal in [addPropName]. *)
Definition dquote : string := String (ascii_of_nat 34) EmptyString.

(** ** Objects used as dictionaries

    The catalogue and the grouping are objects created by [{}] and indexed
    by names that come from the files.  Such an object holds its own
    entries and inherits the members of [Object.prototype]: reading
    [object[name]] gives the own entry if there is one, else the inherited
    member of that name if there is one, else [undefined].  The maps below
    hold the own entries; [Object_prototype] is the set of the names under
    which [{}] inherits a member.  All of these members are functions but
    the one under [__proto__], which is [Object.prototype] itself: what a
    write on that one does to the other objects is not followed here. *)
Definition Object_prototype : gset string :=
  list_to_set ["constructor"; "__defineGetter__"; "__defineSetter__";
               "hasOwnProperty"; "__lookupGetter__"; "__lookupSetter__";
               "isPrototypeOf"; "propertyIsEnumerable"; "toString";
               "valueOf"; "__proto__"; "toLocaleString"].

(** The attribute catalogue:
    [Record<string, Record<PropertyType, PropertyValue>>]. *)
Abbreviation Examples := (gmap PropertyType PropertyValue).
Abbreviation Catalogue := (gmap string (gmap PropertyType PropertyValue)).

(** The example stored for field [f] and kind [t], if any. *)
Definition example (cat : Catalogue) (f : string) (t : PropertyType)
  : option PropertyValue :=
  cat !! f ≫= λ examples, examples !! t.

(** ** The language runtime

    [Number.prototype.toString], [Date.prototype.toString] and
    [Date.prototype.toLocaleString] are functions of the JavaScript runtime;
    the importer only calls them. *)
Class Runtime := {
  Number_toString : number → string;
  Date_toString : Date → string;
  Date_toLocaleString : Date → string;
}.

Section Catalogue.
Context `{Runtime}.

(** The [switch] of [addPropName] (lines 96-123): the kind under which a
    value is catalogued and the example stored for it; [None] is the early
    [return]. *)
Definition classify (propValue : PropertyValue)
  : option (PropertyType * PropertyValue) :=
  match propValue with
  | PNumber x =>
      if negb (isFinite x) then None else Some (TNumber, propValue)
  | PString s =>
      if (String.length s =? 0)%nat then None
      else Some (TString, PString (dquote +:+ s +:+ dquote))
  | PDate d =>
      if isNaN (valueOf d) then None
      else Some (TDate, PString (Date_toLocaleString d))
  | PBoolean _ | PNull => None
  end.

(** [addPropName] (lines 95-130).  The catalogue object is updated in place;
    the function returns its new contents.  When the catalogue has no own
    entry for [propName] and inherits a member of that name,
    [propNames[propName]] (line 124) is that member and not [undefined]:
    the example is written on the inherited member (line 126) and the
    catalogue gets no entry.  What becomes of the inherited member is not
    part of the catalogue and is not followed here. *)
Definition addPropName (propNames : Catalogue) (propName : string)
    (propValue : PropertyValue) : Catalogue :=
  match classify propValue with
  | None => propNames
  | Some (type, propValue) =>
      match propNames !! propName with
      | Some examples => <[propName := <[type := propValue]> examples]> propNames
      | None =>
          if bool_decide (propName ∈ Object_prototype) then propNames
          else <[propName := {[type := propValue]}]> propNames
      end
  end.

End Catalogue.

(** ** Data of the host and of the decoder *)

(** [ArrayBufferLike] *)
Abbreviation ArrayBuffer := (list Byte.byte) (only parsing).

(** [ShapeGroup]: one optional buffer per file role, keyed by extension. *)
Abbreviation ShapeGroup := (gmap string (list Byte.byte)).
Abbreviation Groups := (gmap string (gmap string (list Byte.byte))).

(** [vec2 | vec3] *)
Inductive Coord :=
  | Vec2 (x y : number)
  | Vec3 (x y z : number).

Abbreviation box2 := (list number).

(** [Geometry].  [OtherGeometry] is a value whose tag is none of the six, for
    which the [default] branch of [featureGeometry] exists. *)
Inductive Geometry :=
  | Point (coordinates : Coord)
  | LineString (coordinates : list Coord) (bbox : box2)
  | Polygon (coordinates : list (list Coord)) (bbox : box2)
  | MultiPoint (coordinates : list Coord)
  | MultiLineString (coordinates : list (list Coord))
  | MultiPolygon (coordinates : list (list (list Coord)))
  | OtherGeometry (type : string).

(** [Feature].  The geometry is [null] ([None]) for a record of the shape
    file that has no shape. *)
Record Feature := mkFeature {
  feature_type : string;
  geometry : option Geometry;
  properties : gmap string PropertyValue;
}.

Record GeoJSON := mkGeoJSON {
  geojson_type : string;
  features : list Feature;
}.

(** [WorkspaceItem]: the host's virtual file tree.  [get()] resolves to the
    bytes of the item, of which [addToGroups] keeps the buffer behind them
    ([bytes.buffer]): [buffer] is that buffer.  [propfind()] resolves to the
    entries of the item. *)
Inductive MimeType := MimeFolder | MimeFile.

Inductive WorkspaceItem :=
  mkItem (title : string) (mimeType : MimeType)
         (buffer : list Byte.byte) (entries : list WorkspaceItem).

Definition item_title (item : WorkspaceItem) : string :=
  let 'mkItem t _ _ _ := item in t.
Definition item_mimeType (item : WorkspaceItem) : MimeType :=
  let 'mkItem _ m _ _ := item in m.
Definition item_buffer (item : WorkspaceItem) : list Byte.byte :=
  let 'mkItem _ _ b _ := item in b.
Definition item_entries (item : WorkspaceItem) : list WorkspaceItem :=
  let 'mkItem _ _ _ l := item in l.

Record Workspace := mkWorkspace {
  origin : option string;
  root : WorkspaceItem;
}.

(** Handles of host objects. *)
Abbreviation DwgLayer := nat (only parsing).
Abbreviation DwgEntityEditor := nat (only parsing).

Record DwgLayout := mkLayout { editor : nat }.
Record DwgLayouts := mkLayouts { model : option DwgLayout }.
Record Drawing := mkDrawing { layouts : option DwgLayouts }.

(** The values held by a [DwgTypedObject]. *)
Inductive DwgValue :=
  | DTyped (value : PropertyValue) (type : option string)
  | DString (s : string)
  | DTypeRef (id : string).

Abbreviation DwgTypedObject := (gmap string DwgValue).

Inductive QuickPickItemKind := KindDefault.

Record QuickPickItem := mkQuickPickItem {
  label : string;
  kind : QuickPickItemKind;
  detail : string;
}.

(** ** Interactions with the host *)

(** The host promises that the importer awaits. *)
Inductive Call :=
  | CGet (title : string)
  | CPropfind (title : string)
  | CShp (group : gmap string (list Byte.byte))
  | CShowQuickPick (options : list QuickPickItem) (title : string)
                   (canPickMany : bool)
  | CBeginUpdate
  | CBeginEdit (ed : nat)
  | CLayersAdd (data : gmap string DwgValue)
  | CSetx (target : nat) (key : string) (layer : nat)
  | CAddCircle (ed : nat) (center : Coord) (radius : number)
  | CAddLine (ed : nat) (a b : Coord)
  | CAddPolyline3d (ed : nat) (vertices : list Coord)
  | CEndUpdate
  | CEndEdit (ed : nat).

(** What is thrown: the rejection of an awaited call, or the [TypeError] of
    the language for reading a member of [null]. *)
Inductive Exn :=
  | Rejected (c : Call)
  | TypeError.

Inductive LogArg :=
  | ArgString (s : string)
  | ArgValue (v : PropertyValue).

(** What the host observes, in order: the awaited calls with their outcome
    ([true] when the promise resolves) and the synchronous notifications. *)
Inductive Event :=
  | EAwait (c : Call) (resolved : bool)
  | EBeginProgress
  | EEndProgress
  | ECreateOutputChannel (name : string)
  | EInfo (message : string)
  | EError (format : string) (arg : LogArg)
  | EException (e : Exn)
  | EIndeterminate (b : bool)
  | EDetails (s : string)
  | EPercents (index total : nat)
  | EDisabled (layer : nat) (b : bool).

(** The behaviour of the collaborators: which awaited calls the host rejects
    (given everything that happened before), what the shapefile decoder and
    the field picker resolve to, and the localisation function. *)
Record Host := mkHost {
  rejects : list Event → Call → bool;
  shp : gmap string (list Byte.byte) → GeoJSON;
  showQuickPick : list QuickPickItem → list QuickPickItem;
  tr : string → list string → string;
}.

(** ** The monad of asynchronous code *)

Inductive Res (A : Type) :=
  | Ok (a : A)
  | Throw (e : Exn).
Arguments Ok {A} a.
Arguments Throw {A} e.

Definition M (A : Type) : Type := list Event → Res A * list Event.

#[global] Instance M_ret : MRet M := λ A a w, (Ok a, w).

#[global] Instance M_bind : MBind M := λ A B k m w,
  match m w with
  | (Ok a, w') => k a w'
  | (Throw e, w') => (Throw e, w')
  end.

(** [throw e] *)
Definition throw {A} (e : Exn) : M A := λ w, (Throw e, w).

(** A synchronous notification. *)
Definition emit (ev : Event) : M unit := λ w, (Ok tt, w ++ [ev]).

(** The position of the next event, used as the handle of the object that
    the next call creates. *)
Definition position : M nat := λ w, (Ok (length w), w).

(** [try { body } finally { fin }] *)
Definition try_finally {A} (body : M A) (fin : M unit) : M A := λ w,
  let '(r, w1) := body w in
  match fin w1 with
  | (Ok _, w2) => (r, w2)
  | (Throw e, w2) => (Throw e, w2)
  end.

(** [try { body } catch (e) { handler(e) }] *)
Definition try_catch {A} (body : M A) (handler : Exn → M A) : M A := λ w,
  match body w with
  | (Ok a, w1) => (Ok a, w1)
  | (Throw e, w1) => handler e w1
  end.

(** [for (const x of l) { s = f(s, x) }] *)
Fixpoint for_each {A S} (f : S → A → M S) (s : S) (l : list A) : M S :=
  match l with
  | [] => mret s
  | x :: l' => s' ← f s x; for_each f s' l'
  end.

(** A loop that rewrites each element through an alias of it. *)
Fixpoint for_update {A} (f : A → M A) (l : list A) : M (list A) :=
  match l with
  | [] => mret []
  | x :: l' => y ← f x; l'' ← for_update f l'; mret (y :: l'')
  end.

(** ** The importer *)

Section Importer.
Context `{Runtime} (host : Host).

(** [await c]: the host is told of the call and either resolves it or rejects
    it; a rejection surfaces as an exception at the [await]. *)
Definition await (c : Call) : M unit := λ w,
  if rejects host w c then (Throw (Rejected c), w ++ [EAwait c false])
  else (Ok tt, w ++ [EAwait c true]).

(** [await item.get()] *)
Definition item_get (item : WorkspaceItem) : M (list Byte.byte) :=
  await (CGet (item_title item));; mret (item_buffer item).

(** [await drawing.layers.add(data)]: the new layer is named by the position
    of its creation in the history. *)
Definition layers_add (data : gmap string DwgValue) : M nat :=
  h ← position; await (CLayersAdd data);; mret h.

(** *** Dataset grouper *)

Definition ALLOWED_EXTENSIONS : gset string :=
  list_to_set ["shp"; "dbf"; "shx"; "sbn"; "sbx"; "aih"; "ain"; "prj"; "cpg"; "idx"].

(** [title.substring(0, title.length - 4)] *)
Definition title_name (title : string) : string :=
  substring 0 (String.length title - 4) title.

(** [title.substring(title.length - 3)] *)
Definition title_extension (title : string) : string :=
  substring (String.length title - 3) 3 title.

(** [addToGroups] (lines 63-79).  When the grouping has no own dataset for
    [name] and inherits a member of that name, [groups[name]] (line 73) is
    that member and not [undefined]: the buffer is written on the inherited
    member (line 78) and the grouping gets no dataset. *)
Definition addToGroups (groups : Groups) (item : WorkspaceItem) : M Groups :=
  bytes ← item_get item;
  let title := item_title item in
  emit (EDetails title);;
  let name := title_name title in
  let extension := title_extension title in
  if negb (bool_decide (extension ∈ ALLOWED_EXTENSIONS)) then
    emit (EError "Unsupported extension {0}" (ArgString extension));;
    mret groups
  else
    match groups !! name with
    | None =>
        if bool_decide (name ∈ Object_prototype) then mret groups
        else mret (<[name := {[extension := bytes]}]> groups)
    | Some group => mret (<[name := <[extension := bytes]> group]> groups)
    end.

(** [extractGroups] (lines 81-93), first for one item (the body of the loop),
    then for a list of items.  The recursive call receives the entries that
    [propfind()] resolves to. *)
Fixpoint extractGroups_item (groups : Groups) (item : WorkspaceItem)
    {struct item} : M Groups :=
  match item with
  | mkItem title MimeFolder _ entries =>
      await (CPropfind title);;
      (fix loop (groups : Groups) (items : list WorkspaceItem) {struct items}
         : M Groups :=
         match items with
         | [] => mret groups
         | item :: items' =>
             groups' ← extractGroups_item groups item; loop groups' items'
         end) groups entries
  | mkItem _ MimeFile _ _ => addToGroups groups item
  end.

Definition extractGroups (groups : Groups) (items : list WorkspaceItem)
  : M Groups :=
  for_each extractGroups_item groups items.

(** *** Feature decoder *)

(** The scan of one feature (lines 143-153). *)
Definition scanFeature (propNames : Catalogue) (feature : Feature) : Catalogue :=
  if String.eqb (feature_type feature) "Feature" then
    foldl (λ propNames '(propName, propValue),
             addPropName propNames propName propValue)
          propNames (map_to_list (properties feature))
  else propNames.

(** [decodeGeoJSONs] (lines 132-161) *)
Definition decodeGeoJSONs (geoJSONs : gmap string GeoJSON)
    (propNames : Catalogue) (groups : Groups)
  : M (gmap string GeoJSON * Catalogue) :=
  for_each
    (λ '(geoJSONs, propNames) '(name, group),
       await (CShp group);;
       let geojson := shp host group in
       let geoJSONs := <[name := geojson]> geoJSONs in
       if String.eqb (geojson_type geojson) "FeatureCollection" then
         mret (geoJSONs, foldl scanFeature propNames (features geojson))
       else mret (geoJSONs, propNames))
    (geoJSONs, propNames) (map_to_list groups).

(** *** Layer-name candidate selector *)

(** The conversion of a value inside a template literal. *)
Definition template_string (v : PropertyValue) : string :=
  match v with
  | PNumber x => Number_toString x
  | PString s => s
  | PBoolean true => "true"
  | PBoolean false => "false"
  | PDate d => Date_toString d
  | PNull => "null"
  end.

Definition typesString (examples : gmap PropertyType PropertyValue) : string :=
  foldl (λ acc '(propType, v),
           acc +:+ PropertyType_name propType +:+ ": " +:+ template_string v +:+ ", ")
        EmptyString (map_to_list examples).

(** [choosePossibleLayerNameProps] (lines 163-186) *)
Definition choosePossibleLayerNameProps (propNames : Catalogue)
  : M (list string) :=
  let options :=
    (λ '(propName, examples),
       let ts := typesString examples in
       {| label := propName;
          kind := KindDefault;
          detail := tr host "Примеры" [] +:+ ": "
                    +:+ substring 0 (String.length ts - 2) ts |})
    <$> map_to_list propNames in
  await (CShowQuickPick options
           (tr host "Выберите поля, которые могут использоваться в качестве имени слоя" [])
           true);;
  let selected := showQuickPick host options in
  mret (label <$> selected).

(** *** Typed properties *)

(** [featurePropValue] (lines 188-219).  The [$units: undefined] member of a
    number is an absent member. *)
Definition featurePropValue (prop : PropertyValue) : M DwgValue :=
  match prop with
  | PNumber x =>
      mret (DTyped prop (Some (if Number_isInteger x then "int" else "float")))
  | PString _ => mret (DTyped prop (Some "string"))
  | PBoolean _ => mret (DTyped prop (Some "bool"))
  | PDate d => mret (DTyped (PString (Date_toLocaleString d)) (Some "string"))
  | PNull =>
      emit (EError "Unsupported property type {0}" (ArgValue prop));;
      mret (DTyped prop None)
  end.

(** [featureProps] (lines 221-227) *)
Definition featureProps (rawProps : gmap string PropertyValue)
  : M (gmap string DwgValue) :=
  for_each (λ props '(name, prop),
              typed ← featurePropValue prop; mret (<[name := typed]> props))
           ∅ (map_to_list rawProps).

(** *** Geometry mapper *)

(** [coordinatesToVec3] (lines 229-231): always a new array. *)
Definition coordinatesToVec3 (coordinates : Coord) : Coord :=
  match coordinates with
  | Vec3 x y z => Vec3 x y z
  | Vec2 x y => Vec3 x y num_zero
  end.

(** [SCALE = 1] *)
Definition SCALE : number := S754_finite false 4503599627370496 (-52).

(** [scaleCoordinates] (lines 235-240).  It overwrites the members of its
    argument, which at every call site is the array that [coordinatesToVec3]
    has just created. *)
Definition scaleCoordinates (coordinates : Coord) : Coord :=
  match coordinates with
  | Vec2 x y => Vec2 (num_mul x SCALE) (num_mul y SCALE)
  | Vec3 x y z => Vec3 (num_mul x SCALE) (num_mul y SCALE) (num_mul z SCALE)
  end.

(** The radius [0.005] of the circle that stands for a point. *)
Definition POINT_RADIUS : number := S754_finite false 5764607523034235 (-60).

(** The loop
    [for (i = 0; i < coordinates.length; ++i)
       coordinates[i] = scaleCoordinates(coordinatesToVec3(coordinates[i]))]
    which overwrites the array of the input geometry; [n] bounds the number
    of iterations that remain. *)
Fixpoint upliftFrom (n i : nat) (coordinates : list Coord) : list Coord :=
  match n with
  | 0 => coordinates
  | S n' =>
      match coordinates !! i with
      | Some c =>
          upliftFrom n' (S i)
            (<[i := scaleCoordinates (coordinatesToVec3 c)]> coordinates)
      | None => coordinates
      end
  end.

Definition uplift (coordinates : list Coord) : list Coord :=
  upliftFrom (length coordinates) 0 coordinates.

Definition addCircle (ed : nat) (center : Coord) (radius : number) : M nat :=
  h ← position; await (CAddCircle ed center radius);; mret h.

Definition addLine (ed : nat) (a b : Coord) : M nat :=
  h ← position; await (CAddLine ed a b);; mret h.

Definition addPolyline3d (ed : nat) (vertices : list Coord) : M nat :=
  h ← position; await (CAddPolyline3d ed vertices);; mret h.

Definition setx (target : nat) (key : string) (layer : nat) : M unit :=
  await (CSetx target key layer).

(** One point. *)
Definition pointEntity (ed layer : nat) (coordinates : Coord) : M unit :=
  entity ← addCircle ed (scaleCoordinates (coordinatesToVec3 coordinates))
                     POINT_RADIUS;
  setx entity "$layer" layer.

(** One line string (lines 254-270 and 301-317): a line for exactly two
    points, else a polyline over the array, rewritten in place.  The result
    is the array as the call leaves it. *)
Definition lineEntity (ed layer : nat) (coordinates : list Coord)
  : M (list Coord) :=
  match coordinates with
  | [a; b] =>
      entity ← addLine ed (scaleCoordinates (coordinatesToVec3 a))
                       (scaleCoordinates (coordinatesToVec3 b));
      setx entity "$layer" layer;;
      mret coordinates
  | _ =>
      let coordinates := uplift coordinates in
      entity ← addPolyline3d ed coordinates;
      setx entity "$layer" layer;;
      mret coordinates
  end.

(** One ring of a polygon (lines 276-284 and 325-333). *)
Definition ringEntity (ed layer : nat) (coordinates : list Coord)
  : M (list Coord) :=
  let coordinates := uplift coordinates in
  entity ← addPolyline3d ed coordinates;
  setx entity "$layer" layer;;
  mret coordinates.

(** [featureGeometry] (lines 242-342).  The result is the geometry object as
    the call leaves it. *)
Definition featureGeometry (ed layer : nat) (rawGeometry : Geometry)
  : M Geometry :=
  match rawGeometry with
  | Point coordinates =>
      pointEntity ed layer coordinates;;
      mret rawGeometry
  | LineString coordinates bbox =>
      coordinates ← lineEntity ed layer coordinates;
      mret (LineString coordinates bbox)
  | Polygon coordinates bbox =>
      coordinates ← for_update (ringEntity ed layer) coordinates;
      mret (Polygon coordinates bbox)
  | MultiPoint coordinates =>
      for_each (λ _ c, pointEntity ed layer c) tt coordinates;;
      mret rawGeometry
  | MultiLineString coordinates =>
      coordinates ← for_update (lineEntity ed layer) coordinates;
      mret (MultiLineString coordinates)
  | MultiPolygon coordinates =>
      coordinates ← for_update (for_update (ringEntity ed layer)) coordinates;
      mret (MultiPolygon coordinates)
  | OtherGeometry type =>
      emit (EError "Unsupported geometry type {0}" (ArgString type));;
      mret rawGeometry
  end.

(** The call of [featureGeometry] with the geometry of a feature, which is
    [null] for a record without a shape: the first statement of the
    function, [switch (rawGeometry.type)] (line 243), then throws a
    [TypeError], before anything else is done. *)
Definition featureGeometry_call (ed layer : nat)
    (rawGeometry : option Geometry) : M Geometry :=
  match rawGeometry with
  | Some rawGeometry => featureGeometry ed layer rawGeometry
  | None => throw TypeError
  end.

(** *** Layer names *)

(** The [for] loop of [assignLayerName] (lines 346-374): the string that the
    loop assigns to [layerData.name], if it assigns one.  [continue] is the
    recursive call; the [break] that follows the [switch] ends the loop, also
    when the [default] branch has assigned nothing.  The candidates are
    labels of the catalogue, which never has an entry under a name of
    [Object_prototype]; [properties] is read at its own entries. *)
Fixpoint scanLayerNames (properties : gmap string PropertyValue)
    (layerNames : list string) : option string :=
  match layerNames with
  | [] => None
  | name :: layerNames' =>
      match properties !! name with
      | None => scanLayerNames properties layerNames'
      | Some (PNumber x) =>
          if negb (isFinite x) then scanLayerNames properties layerNames'
          else Some (Number_toString x)
      | Some (PString s) =>
          if (String.length s =? 0)%nat then scanLayerNames properties layerNames'
          else Some s
      | Some (PDate d) =>
          if isNaN (valueOf d) then scanLayerNames properties layerNames'
          else Some (Date_toLocaleString d)
      | Some (PBoolean _) | Some PNull => None
      end
  end.

(** [assignLayerName] (lines 344-379).  [layerIDs.next] only ever holds the
    integers 0, 1, 2, ..., which binary64 represents exactly (below 2^53); it
    is a natural number here and its [toString()] is the decimal numeral.
    Both [layerData] and [layerIDs] are updated in place; the function
    returns their new contents. *)
Definition assignLayerName (layerData : gmap string DwgValue)
    (properties : gmap string PropertyValue) (layerNames : list string)
    (layerIDs : N) : gmap string DwgValue * N :=
  match layerData !! "name" with
  | None =>
      match scanLayerNames properties layerNames with
      | Some layerName => (<["name" := DString layerName]> layerData, layerIDs)
      | None =>
          let next := (layerIDs + 1)%N in
          (<["name" := DString (pretty next)]> layerData, next)
      end
  | Some _ => (layerData, layerIDs)
  end.

(** *** Layer and entity assembler *)

(** [drawing.types.itemById('SmdxElement')] *)
Definition SmdxElement : DwgValue := DTypeRef "SmdxElement".

(** [loadFeature] (lines 381-389); the counter is returned with the layer. *)
Definition loadFeature (ed : nat) (feature : Feature)
    (layerNames : list string) (layerIDs : N) : M (nat * N) :=
  layerData ← featureProps (properties feature);
  let layerData := <["$type" := SmdxElement]> layerData in
  let '(layerData, layerIDs) :=
    assignLayerName layerData (properties feature) layerNames layerIDs in
  layer ← layers_add layerData;
  emit (EDisabled layer true);;
  featureGeometry_call ed layer (geometry feature);;
  mret (layer, layerIDs).

(** The body of the inner loop of [loadShapes] (lines 411-421). *)
Definition loadOne (ed parent : nat) (layerNames : list string)
    (layerIDs : N) (feature : Feature) : M N :=
  if String.eqb (feature_type feature) "Feature" then
    '(layer, layerIDs) ← loadFeature ed feature layerNames layerIDs;
    setx layer "$layer" parent;;
    mret layerIDs
  else
    emit (EError "Unsupported feature type {0}"
                 (ArgString (feature_type feature)));;
    mret layerIDs.

(** The body of the outer loop of [loadShapes] (lines 395-428), for the
    dataset of index [i] among [total]. *)
Definition loadDataset (ed root : nat) (layerNames : list string)
    (total : nat) (state : nat * N) (dataset : string * GeoJSON)
  : M (nat * N) :=
  let '(i, layerIDs) := state in
  let '(name, geojson) := dataset in
  if String.eqb (geojson_type geojson) "FeatureCollection" then
    emit (EPercents i total);;
    emit (EDetails name);;
    parent ← layers_add {[ "$type" := SmdxElement; "name" := DString name ]};
    emit (EDisabled parent true);;
    setx parent "$layer" root;;
    layerIDs ← for_each (loadOne ed parent layerNames) layerIDs
                        (features geojson);
    mret (S i, layerIDs)
  else
    emit (EError "Unsupported GeoJSON type {0}"
                 (ArgString (geojson_type geojson)));;
    mret (S i, layerIDs).

(** [loadShapes] (lines 391-430) *)
Definition loadShapes (ed : nat) (geoJSONs : gmap string GeoJSON)
    (root : nat) (layerNames : list string) (layerIDs : N) : M N :=
  emit (EIndeterminate false);;
  let names := map_to_list geoJSONs in
  state ← for_each (loadDataset ed root layerNames (length names))
                   (0, layerIDs) names;
  mret state.2.

(** *** Import orchestrator *)

(** The statements of [import] between the acquisition of the sessions and
    their release (lines 460-465). *)
Definition writeLayers (ed : nat) (filename : string)
    (geoJSONs : gmap string GeoJSON) (layerNames : list string)
    (layerIDs : N) : M N :=
  root ← layers_add {[ "$type" := SmdxElement; "name" := DString filename ]};
  emit (EDisabled root true);;
  loadShapes ed geoJSONs root layerNames layerIDs.

(** The statements of [import] that read the files, decode them and ask
    for the candidate fields (lines 447-454). *)
Definition readDatasets (workspace : Workspace)
  : M (gmap string GeoJSON * list string) :=
  emit (EDetails (tr host "Чтение файла" []));;
  await (CPropfind (item_title (root workspace)));;
  let items := item_entries (root workspace) in
  groups ← extractGroups ∅ items;
  '(geoJSONs, propNames) ← decodeGeoJSONs ∅ ∅ groups;
  layerNames ← choosePossibleLayerNameProps propNames;
  mret (geoJSONs, layerNames).

(** [SHPImporter.import] (lines 435-475) *)
Definition import (workspace : Workspace) (drawing : Drawing) : M unit :=
  emit EBeginProgress;;
  emit (ECreateOutputChannel "SHP");;
  try_finally
    (try_catch
       (let filename :=
          default (item_title (root workspace)) (origin workspace) in
        emit (EInfo (tr host "Импорт shape из {0}" [filename]));;
        emit (EIndeterminate true);;
        match layouts drawing ≫= model with
        | None => mret tt
        | Some layout =>
            '(geoJSONs, layerNames) ← readDatasets workspace;
            let layerIDs := 0%N in
            await CBeginUpdate;;
            let ed := editor layout in
            await (CBeginEdit ed);;
            try_finally
              (writeLayers ed filename geoJSONs layerNames layerIDs;; mret tt)
              (await CEndUpdate;; await (CEndEdit ed))
        end)
       (λ uncaughtException, emit (EException uncaughtException)))
    (emit EEndProgress).

End Importer.

(** ** Notions of the specification and sample collaborators *)

(** The validity rule of the specification: a finite number, a non-empty
    text or a valid date. *)
Definition usable (v : PropertyValue) : bool :=
  match v with
  | PNumber x => isFinite x
  | PString s => negb (String.length s =? 0)%nat
  | PDate d => negb (isNaN (valueOf d))
  | PBoolean _ | PNull => false
  end.

(** The values that the specification names as skipped: a non-finite number,
    an empty text or an invalid date. *)
Definition skipped (v : PropertyValue) : bool :=
  match v with
  | PNumber x => negb (isFinite x)
  | PString s => (String.length s =? 0)%nat
  | PDate d => isNaN (valueOf d)
  | PBoolean _ | PNull => false
  end.


(** The names carried by the layer-creation requests of a history. *)
Definition requestedNames (w : list Event) : list (option DwgValue) :=
  omap (λ ev, match ev with
              | EAwait (CLayersAdd data) _ => Some (data !! "name")
              | _ => None
              end) w.

(** [emits P m]: whatever the history and the outcome, [m] only appends
    events, and all of them satisfy [P]. *)
Definition emits {A} (P : Event → bool) (m : M A) : Prop :=
  ∀ w, ∃ evs, (m w).2 = w ++ evs ∧ Forall (λ ev, P ev = true) evs.

(** The messages written with [outputs.error(format, arg)]. *)
Definition log_event (ev : Event) : bool :=
  match ev with
  | EError _ _ => true
  | _ => false
  end.

(** The events of the geometry mapper: requests for primitives, their
    attachment to a layer, and messages. *)
Definition geometry_event (ev : Event) : bool :=
  match ev with
  | EAwait (CAddCircle _ _ _) _ | EAwait (CAddLine _ _ _) _
  | EAwait (CAddPolyline3d _ _) _ | EAwait (CSetx _ _ _) _ => true
  | EError _ _ => true
  | _ => false
  end.

(** The events of the two sessions and of the top-level handler. *)
Definition session_event (ev : Event) : bool :=
  match ev with
  | EAwait CBeginUpdate _ | EAwait (CBeginEdit _) _
  | EAwait CEndUpdate _ | EAwait (CEndEdit _) _ => true
  | EException _ => true
  | _ => false
  end.

Definition work_event (ev : Event) : bool := negb (session_event ev).

(** The four calls that open and close the sessions. *)
Definition session_call (ev : Event) : bool :=
  match ev with
  | EAwait CBeginUpdate _ | EAwait (CBeginEdit _) _
  | EAwait CEndUpdate _ | EAwait (CEndEdit _) _ => true
  | _ => false
  end.

(** The event that completes the acquisition of the two sessions: the edit
    session is begun after the layer-update session. *)
Definition acquired (ev : Event) : bool :=
  match ev with
  | EAwait (CBeginEdit _) true => true
  | _ => false
  end.

(** The features to which [loadShapes] gives a name made from the counter. *)
Definition needsFallback `{Runtime} (layerNames : list string)
    (feature : Feature) : bool :=
  bool_decide (properties feature !! "name" = None)
  && bool_decide (scanLayerNames (properties feature) layerNames = None).

Definition fallbackNamed `{Runtime} (layerNames : list string)
    (feature : Feature) : bool :=
  String.eqb (feature_type feature) "Feature"
  && needsFallback layerNames feature.

Definition fallbackCount `{Runtime} (layerNames : list string)
    (datasets : list (string * GeoJSON)) : nat :=
  sum_list ((λ dataset : string * GeoJSON,
               if String.eqb (geojson_type dataset.2) "FeatureCollection"
               then length (filter (λ feature,
                                      fallbackNamed layerNames feature = true)
                                   (features dataset.2))
               else 0) <$> datasets).

(** The coordinate of the specification: padded with Z = 0 when it has two
    members, then multiplied member by member by the scale constant. *)
Definition paddedScaled (c : Coord) : Coord :=
  match c with
  | Vec2 x y =>
      Vec3 (num_mul x SCALE) (num_mul y SCALE) (num_mul num_zero SCALE)
  | Vec3 x y z =>
      Vec3 (num_mul x SCALE) (num_mul y SCALE) (num_mul z SCALE)
  end.

(** Padding alone. *)
Definition padded (c : Coord) : Coord :=
  match c with
  | Vec2 x y => Vec3 x y num_zero
  | Vec3 x y z => Vec3 x y z
  end.

(** The members of a coordinate are numbers of the language. *)
Definition coord_is_number (c : Coord) : Prop :=
  match c with
  | Vec2 x y => is_number x ∧ is_number y
  | Vec3 x y z => is_number x ∧ is_number y ∧ is_number z
  end.

(** The coordinates of a geometry, in the order of its arrays. *)
Definition inputCoords (g : Geometry) : list Coord :=
  match g with
  | Point c => [c]
  | LineString cs _ => cs
  | Polygon rings _ => concat rings
  | MultiPoint cs => cs
  | MultiLineString lines => concat lines
  | MultiPolygon polygons => concat (concat polygons)
  | OtherGeometry _ => []
  end.

(** The coordinates that a call hands to the host. *)
Definition callCoords (c : Call) : list Coord :=
  match c with
  | CAddCircle _ center _ => [center]
  | CAddLine _ a b => [a; b]
  | CAddPolyline3d _ vertices => vertices
  | _ => []
  end.

(** The coordinates of the primitives requested in a history, in order. *)
Definition requestedCoords (w : list Event) : list Coord :=
  concat ((λ ev, match ev with
                 | EAwait c _ => callCoords c
                 | _ => []
                 end) <$> w).

(** A line string after its mapping: as it was when it has exactly two
    points, rewritten otherwise. *)
Definition lineAfterMapping (cs : list Coord) : list Coord :=
  match cs with
  | [_; _] => cs
  | _ => paddedScaled <$> cs
  end.

(** The geometry object after its mapping. *)
Definition afterMapping (g : Geometry) : Geometry :=
  match g with
  | Point _ | MultiPoint _ | OtherGeometry _ => g
  | LineString cs bbox => LineString (lineAfterMapping cs) bbox
  | Polygon rings bbox =>
      Polygon ((λ ring : list Coord, paddedScaled <$> ring) <$> rings) bbox
  | MultiLineString lines => MultiLineString (lineAfterMapping <$> lines)
  | MultiPolygon polygons =>
      MultiPolygon
        ((λ rings : list (list Coord),
            (λ ring : list Coord, paddedScaled <$> ring) <$> rings)
           <$> polygons)
  end.

(** [performs host m L Q]: from any history, [m] appends events whose
    requested coordinates are a prefix of [L]; when it returns, its result
    satisfies [Q] and it has requested all of [L]; and it does return when
    the host rejects nothing. *)
Definition performs {A} (host : Host) (m : M A) (L : list Coord)
    (Q : A → Prop) : Prop :=
  ∀ w, ∃ r evs,
    m w = (r, w ++ evs)
    ∧ requestedCoords evs `prefix_of` L
    ∧ (∀ a, r = Ok a → Q a ∧ requestedCoords evs = L)
    ∧ ((∀ w' c, rejects host w' c = false) → ∃ a, r = Ok a).

(** The integer [z] as a number. *)
Definition num_of_Z (z : Z) : number := binary_normalize prec emax z 0 false.

(** A runtime for the sample runs. *)
Definition sample_runtime : Runtime := {|
  Number_toString := λ x,
    match x with
    | S754_zero _ => "0"
    | S754_nan => "NaN"
    | S754_infinity false => "Infinity"
    | S754_infinity true => "-Infinity"
    | S754_finite _ _ _ => "finite"
    end;
  Date_toString := λ d, if isNaN (valueOf d) then "Invalid Date" else "date";
  Date_toLocaleString := λ d,
    if isNaN (valueOf d) then "Invalid Date" else "locale date";
|}.

(** A host that resolves every call, whose decoder finds no feature and whose
    user picks every field. *)
Definition quiet_host : Host := {|
  rejects := λ _ _, false;
  shp := λ _, mkGeoJSON "FeatureCollection" [];
  showQuickPick := λ options, options;
  tr := λ format _, format;
|}.

(** The quiet host, except that it rejects the calls that satisfy [bad]. *)
Definition rejecting_host (bad : Call → bool) : Host := {|
  rejects := λ _ c, bad c;
  shp := shp quiet_host;
  showQuickPick := showQuickPick quiet_host;
  tr := tr quiet_host;
|}.

Definition file (title : string) (buffer : list Byte.byte) : WorkspaceItem :=
  mkItem title MimeFile buffer [].

(** ** Further notions, for the properties beyond the specification *)

(** The buffer stored for a dataset and a file role, if any. *)
Definition storedBuffer (groups : Groups) (name extension : string)
  : option (list Byte.byte) :=
  groups !! name ≫= λ group, group !! extension.

(** The titles of the files of a tree, in the order of a descent that
    enters every folder where it stands. *)
Fixpoint fileTitles_item (item : WorkspaceItem) : list string :=
  match item with
  | mkItem _ MimeFolder _ entries =>
      (fix descend (items : list WorkspaceItem) : list string :=
         match items with
         | [] => []
         | item :: items' => fileTitles_item item ++ descend items'
         end) entries
  | mkItem title MimeFile _ _ => [title]
  end.

Definition fileTitles (items : list WorkspaceItem) : list string :=
  concat (fileTitles_item <$> items).

(** What an event contributes to a list read off a history. *)
Definition measure {X} (μ : Event → list X) (w : list Event) : list X :=
  concat (μ <$> w).

(** The title of the file whose buffer an event asks for. *)
Definition fetchedTitle (ev : Event) : list string :=
  match ev with
  | EAwait (CGet title) _ => [title]
  | _ => []
  end.

(** [tracks μ host m L Q]: from any history, [m] appends events whose
    measure is a prefix of [L]; when it returns, its result satisfies [Q]
    and the measure is all of [L]; and it returns when the host rejects
    nothing. *)
Definition tracks {A X} (μ : Event → list X) (host : Host) (m : M A)
    (L : list X) (Q : A → Prop) : Prop :=
  ∀ w, ∃ r evs,
    m w = (r, w ++ evs)
    ∧ measure μ evs `prefix_of` L
    ∧ (∀ a, r = Ok a → Q a ∧ measure μ evs = L)
    ∧ ((∀ w' c, rejects host w' c = false) → ∃ a, r = Ok a).

(** Every dataset has at least one buffer, and the roles of its buffers are
    recognised extensions. *)
Definition wellGrouped (groups : Groups) : Prop :=
  ∀ name group,
    groups !! name = Some group →
    group ≠ ∅ ∧ ∀ extension, is_Some (group !! extension) →
                             extension ∈ ALLOWED_EXTENSIONS.

(** Every field of the catalogue has at least one example, and every
    example is as [addPropName] makes them: a finite number, a non-empty
    text between quotes, or the locale string of a valid date; there is no
    example of boolean kind. *)
Definition wellCatalogued `{Runtime} (cat : Catalogue) : Prop :=
  ∀ f examples,
    cat !! f = Some examples →
    examples ≠ ∅
    ∧ ∀ t ex,
        examples !! t = Some ex →
        match t with
        | TNumber => ∃ x, ex = PNumber x ∧ isFinite x = true
        | TString =>
            ∃ s, ex = PString (dquote +:+ s +:+ dquote) ∧ s ≠ EmptyString
        | TDate =>
            ∃ d, ex = PString (Date_toLocaleString d)
                 ∧ isNaN (valueOf d) = false
        | TBoolean => False
        end.

(** The typed property that [featurePropValue] makes of a value, and the
    message it logs for it. *)
Definition typedProperty `{Runtime} (prop : PropertyValue) : DwgValue :=
  match prop with
  | PNumber x => DTyped prop (Some (if Number_isInteger x then "int" else "float"))
  | PString _ => DTyped prop (Some "string")
  | PBoolean _ => DTyped prop (Some "bool")
  | PDate d => DTyped (PString (Date_toLocaleString d)) (Some "string")
  | PNull => DTyped prop None
  end.

Definition propertyLog (prop : PropertyValue) : list Event :=
  match prop with
  | PNull => [EError "Unsupported property type {0}" (ArgValue prop)]
  | _ => []
  end.

(** The data of the layer-creation requests of a history. *)
Definition requestedData (w : list Event) : list (gmap string DwgValue) :=
  omap (λ ev, match ev with
              | EAwait (CLayersAdd data) _ => Some data
              | _ => None
              end) w.

(** The values at which the scan of the candidates stops without a name: a
    boolean, or a value outside of the declared kinds. *)
Definition endsScan (v : PropertyValue) : bool :=
  match v with
  | PBoolean _ | PNull => true
  | _ => false
  end.

(** The request for one line string: a line for exactly two points, a
    polyline otherwise. *)
Definition lineRequest (ed : nat) (cs : list Coord) : Call :=
  match cs with
  | [a; b] => CAddLine ed (paddedScaled a) (paddedScaled b)
  | _ => CAddPolyline3d ed (paddedScaled <$> cs)
  end.

Definition ringRequest (ed : nat) (ring : list Coord) : Call :=
  CAddPolyline3d ed (paddedScaled <$> ring).

Definition pointRequest (ed : nat) (c : Coord) : Call :=
  CAddCircle ed (paddedScaled c) POINT_RADIUS.

(** The primitives that stand for a geometry, in order. *)
Definition expectedRequests (ed : nat) (g : Geometry) : list Call :=
  match g with
  | Point c => [pointRequest ed c]
  | LineString cs _ => [lineRequest ed cs]
  | Polygon rings _ => ringRequest ed <$> rings
  | MultiPoint cs => pointRequest ed <$> cs
  | MultiLineString lines => lineRequest ed <$> lines
  | MultiPolygon polygons => ringRequest ed <$> concat polygons
  | OtherGeometry _ => []
  end.

(** The history of the creation of primitives that all succeed, from the
    position [base]: each is requested and then attached to [layer] under
    the handle that its request received. *)
Fixpoint attachments (base layer : nat) (calls : list Call) : list Event :=
  match calls with
  | [] => []
  | c :: calls' =>
      EAwait c true :: EAwait (CSetx base "$layer" layer) true
        :: attachments (base + 2) layer calls'
  end.

(** The history of the mapping of a geometry that returns, from the
    position [base]. *)
Definition geometryScript (ed layer base : nat) (g : Geometry) : list Event :=
  match g with
  | OtherGeometry type =>
      [EError "Unsupported geometry type {0}" (ArgString type)]
  | _ => attachments base layer (expectedRequests ed g)
  end.

(** The messages that [featureProps] logs for an attribute map. *)
Definition propertyLogs (rawProps : gmap string PropertyValue) : list Event :=
  concat ((λ kv : string * PropertyValue, propertyLog kv.2)
            <$> map_to_list rawProps).

(** The data and the counter that [loadFeature] makes of a feature. *)
Definition leafLayer `{Runtime} (feature : Feature) (layerNames : list string)
    (layerIDs : N) : gmap string DwgValue * N :=
  assignLayerName
    (<["$type" := SmdxElement]> (typedProperty <$> properties feature))
    (properties feature) layerNames layerIDs.

(** The number of layers that [loadShapes] creates for a list of datasets:
    one for each feature collection and one for each of its features. *)
Definition layerCount (datasets : list (string * GeoJSON)) : nat :=
  sum_list ((λ dataset : string * GeoJSON,
               if String.eqb (geojson_type dataset.2) "FeatureCollection"
               then S (length (filter (λ feature,
                                         feature_type feature = "Feature")
                                      (features dataset.2)))
               else 0) <$> datasets).

(** The events of the phases of [import]: reading the files, decoding the
    datasets, asking for the candidate fields, and drawing. *)
Definition read_event (ev : Event) : bool :=
  match ev with
  | EAwait (CGet _) _ | EAwait (CPropfind _) _ => true
  | EDetails _ | EError _ _ => true
  | _ => false
  end.

Definition decode_event (ev : Event) : bool :=
  match ev with
  | EAwait (CShp _) _ => true
  | _ => false
  end.

Definition prompt_event (ev : Event) : bool :=
  match ev with
  | EAwait (CShowQuickPick _ _ _) _ => true
  | _ => false
  end.

Definition drawing_event (ev : Event) : bool :=
  match ev with
  | EAwait (CLayersAdd _) _ | EAwait (CSetx _ _ _) _
  | EAwait (CAddCircle _ _ _) _ | EAwait (CAddLine _ _ _) _
  | EAwait (CAddPolyline3d _ _) _ => true
  | EDisabled _ _ | EPercents _ _ | EDetails _ | EIndeterminate _
  | EError _ _ => true
  | _ => false
  end.

(** What can follow the prompt: drawing, the calls of the two sessions and
    the message of the top-level handler. *)
Definition late_event (ev : Event) : bool :=
  drawing_event ev || session_event ev.

(** The calls that a history has seen rejected, and the exceptions that the
    top-level handler has logged in it. *)
Definition rejectedCall (ev : Event) : list Call :=
  match ev with
  | EAwait c false => [c]
  | _ => []
  end.

Definition loggedException (ev : Event) : list Exn :=
  match ev with
  | EException e => [e]
  | _ => []
  end.

(** [propagates N m]: [m] logs no exception itself; when it returns, no
    call has been rejected; when it throws the rejection of a call, that
    call is the one call rejected; and it throws a [TypeError] only when [N]
    holds, and then no call has been rejected. *)
Definition propagates {A} (N : Prop) (m : M A) : Prop :=
  ∀ w, ∃ evs,
    (m w).2 = w ++ evs
    ∧ measure loggedException evs = []
    ∧ match (m w).1 with
      | Ok _ => measure rejectedCall evs = []
      | Throw (Rejected c) => measure rejectedCall evs = [c]
      | Throw TypeError => N ∧ measure rejectedCall evs = []
      end.

(** The decoder of the host delivers some feature without a geometry. *)
Definition deliversNullGeometry (host : Host) : Prop :=
  ∃ group feature,
    feature ∈ features (shp host group) ∧ geometry feature = None.

(** The features of the scenarios of the specification, and two more. *)
Definition sample_lot : Feature :=
  mkFeature "Feature" (Some (Point (Vec2 (num_of_Z 3) (num_of_Z 4))))
    {[ "name" := PString "Lot 1";
       "area" := PNumber (binary_normalize prec emax 241 (-1) false) ]}.

Definition sample_path : Geometry :=
  LineString [Vec2 (num_of_Z 0) (num_of_Z 0);
              Vec2 (num_of_Z 1) (num_of_Z 0);
              Vec2 (num_of_Z 1) (num_of_Z 1)] [].

Definition sample_road : Feature :=
  mkFeature "Feature" (Some sample_path)
    {[ "label" := PString EmptyString;
       "kind" := PString "road";
       "lanes" := PNumber S754_nan ]}.


Definition sample_gate : Feature :=
  mkFeature "Feature" (Some (Point (Vec2 (num_of_Z 1) (num_of_Z 2))))
    {[ "open" := PBoolean true; "kind" := PString "gate" ]}.

(** A quiet host whose decoder finds the lot and the road in every
    dataset. *)
Definition survey_host : Host := {|
  rejects := λ _ _, false;
  shp := λ _, mkGeoJSON "FeatureCollection" [sample_lot; sample_road];
  showQuickPick := λ options, options;
  tr := λ format _, format;
|}.

(** The survey host with a user who approves no field. *)
Definition undecided_host : Host := {|
  rejects := λ _ _, false;
  shp := shp survey_host;
  showQuickPick := λ _, [];
  tr := tr survey_host;
|}.

Definition sample_workspace : Workspace :=
  mkWorkspace None
    (mkItem "site" MimeFolder []
       [file "parcels.shp" []; file "parcels.dbf" []; file "notes.txt" []]).

Definition sample_drawing : Drawing :=
  mkDrawing (Some (mkLayouts (Some (mkLayout 5)))).

(** The grouping of the two recognised files of the sample workspace, and
    the collections that the survey host decodes from it. *)
Definition sample_groups : Groups :=
  {[ "parcels" := {[ "shp" := []; "dbf" := [] ]} ]}.

Definition sample_datasets : gmap string GeoJSON :=
  {[ "parcels" := mkGeoJSON "FeatureCollection" [sample_lot; sample_road] ]}.

(** The value that a run returned, and [d] for a run that threw. *)
Definition returned {A} (d : A) (run : Res A * list Event) : A :=
  match run.1 with
  | Ok a => a
  | Throw _ => d
  end.

Definition is_get (title : string) (c : Call) : bool :=
  match c with
  | CGet t => String.eqb t title
  | _ => false
  end.

Definition is_end_update (c : Call) : bool :=
  match c with
  | CEndUpdate => true
  | _ => false
  end.

Definition is_setx (c : Call) : bool :=
  match c with
  | CSetx _ _ _ => true
  | _ => false
  end.

(** A decoder that delivers one record without a shape. *)
Definition shapeless_host : Host := {|
  rejects := λ _ _, false;
  shp := λ _, mkGeoJSON "FeatureCollection"
                [mkFeature "Feature" None {[ "kind" := PString "void" ]}];
  showQuickPick := λ options, options;
  tr := λ format _, format;
|}.

(** * Properties *)

(** ** Attribute catalogue *)

Section CatalogueFacts.
Context `{Runtime}.

Lemma example_insert_existing (cat : Catalogue) (f : string)
    (examples : gmap PropertyType PropertyValue) (t : PropertyType)
    (v : PropertyValue) :
  example (<[f := <[t := v]> examples]> cat) f t = Some v.
Proof.
  unfold example. rewrite lookup_insert_eq. simpl. apply lookup_insert_eq.
Qed.

Lemma addPropName_classified (cat : Catalogue) (f : string)
    (v : PropertyValue) (t : PropertyType) (ex : PropertyValue) :
  f ∉ Object_prototype →
  classify v = Some (t, ex) → example (addPropName cat f v) f t = Some ex.
Proof.
  intros Hf Hc. unfold addPropName. rewrite Hc.
  destruct (cat !! f) as [examples|].
  - apply example_insert_existing.
  - rewrite bool_decide_eq_false_2 by done.
    unfold example. rewrite lookup_insert_eq. simpl. apply lookup_singleton_eq.
Qed.

(** A field that the catalogue inherits and does not own is not
    catalogued, whatever its value. *)
Lemma addPropName_inherited (cat : Catalogue) (f : string)
    (v : PropertyValue) :
  f ∈ Object_prototype → cat !! f = None → addPropName cat f v = cat.
Proof.
  intros Hf Hno. unfold addPropName.
  destruct (classify v) as [[t ex]|]; [|done].
  by rewrite Hno, bool_decide_eq_true_2.
Qed.

Lemma addPropName_dropped (cat : Catalogue) (f : string) (v : PropertyValue) :
  classify v = None → addPropName cat f v = cat.
Proof. intros Hc. unfold addPropName. by rewrite Hc. Qed.

(** A call for field [f] leaves the entries of the other fields alone. *)
Lemma addPropName_other (cat : Catalogue) (f g : string) (v : PropertyValue) :
  f ≠ g → addPropName cat f v !! g = cat !! g.
Proof.
  intros Hne. unfold addPropName.
  destruct (classify v) as [[t ex]|]; [|done].
  destruct (cat !! f); [by rewrite lookup_insert_ne|].
  case_bool_decide; [done|]. by rewrite lookup_insert_ne.
Qed.

(** C3, as the code has it: a boolean attribute value never enters the
    catalogue; [addPropName] returns the catalogue as it received it. *)
Theorem addPropName_boolean_dropped (cat : Catalogue) (f : string) (b : bool) :
  addPropName cat f (PBoolean b) = cat.
Proof. by apply addPropName_dropped. Qed.

(** C4 fails on the code at a field named as a member that objects
    inherit: the finite number 5 scanned for the field [toString] of the
    empty catalogue is not catalogued, and the same number scanned for the
    field [area] is. *)
Theorem toString_field_not_catalogued :
  isFinite (binary_normalize prec emax 5 0 false) = true
  ∧ example (addPropName ∅ "toString"
               (PNumber (binary_normalize prec emax 5 0 false)))
            "toString" TNumber
    = None
  ∧ example (addPropName ∅ "area"
               (PNumber (binary_normalize prec emax 5 0 false)))
            "area" TNumber
    = Some (PNumber (binary_normalize prec emax 5 0 false)).
Proof.
  split; [reflexivity|]. split.
  - rewrite addPropName_inherited; [done| |done].
    apply (bool_decide_eq_true_1 ("toString" ∈ Object_prototype)).
    vm_compute. reflexivity.
  - apply addPropName_classified; [|reflexivity].
    intros Hin.
    apply (bool_decide_eq_true_2 ("area" ∈ Object_prototype)) in Hin.
    vm_compute in Hin. discriminate Hin.
Qed.

(** X18: for a field whose name is not one under which objects inherit a
    member, a number is catalogued when it is finite and dropped otherwise;
    a text is catalogued when it is not empty, its example being the text
    between two quote characters, and dropped otherwise; a date is catalogued
    when its time value is not NaN, its example being its locale string, and
    dropped otherwise.  Dropped means that the catalogue is unchanged. *)
Theorem addPropName_classification (cat : Catalogue) (f : string) :
  f ∉ Object_prototype →
  (∀ x : number,
     if isFinite x
     then example (addPropName cat f (PNumber x)) f TNumber = Some (PNumber x)
     else addPropName cat f (PNumber x) = cat)
  ∧ (∀ s : string,
       if (String.length s =? 0)%nat
       then addPropName cat f (PString s) = cat
       else example (addPropName cat f (PString s)) f TString
            = Some (PString (dquote +:+ s +:+ dquote)))
  ∧ (∀ d : Date,
       if isNaN (valueOf d)
       then addPropName cat f (PDate d) = cat
       else example (addPropName cat f (PDate d)) f TDate
            = Some (PString (Date_toLocaleString d))).
Proof.
  intros Hf. split; [|split].
  - intros x. destruct (isFinite x) eqn:Hx.
    + apply addPropName_classified; [done|]. simpl. by rewrite Hx.
    + apply addPropName_dropped. simpl. by rewrite Hx.
  - intros s. destruct (String.length s =? 0)%nat eqn:Hs.
    + apply addPropName_dropped. simpl. by rewrite Hs.
    + apply addPropName_classified; [done|]. simpl. by rewrite Hs.
  - intros d. destruct (isNaN (valueOf d)) eqn:Hd.
    + apply addPropName_dropped. simpl. by rewrite Hd.
    + apply addPropName_classified; [done|]. simpl. by rewrite Hd.
Qed.

End CatalogueFacts.

(** ** The monad *)

Section MonadFacts.
Context {A B : Type}.

Lemma run_bind (m : M A) (k : A → M B) (w : list Event) :
  (m ≫= k) w = match m w with
               | (Ok a, w') => k a w'
               | (Throw e, w') => (Throw e, w')
               end.
Proof. reflexivity. Qed.

Lemma run_bind_ok (m : M A) (k : A → M B) (w w' : list Event) (a : A) :
  m w = (Ok a, w') → (m ≫= k) w = k a w'.
Proof. intros Hm. by rewrite run_bind, Hm. Qed.

Lemma run_bind_throw (m : M A) (k : A → M B) (w w' : list Event) (e : Exn) :
  m w = (Throw e, w') → (m ≫= k) w = (Throw e, w').
Proof. intros Hm. by rewrite run_bind, Hm. Qed.

Lemma run_ret (a : A) (w : list Event) : (mret a : M A) w = (Ok a, w).
Proof. reflexivity. Qed.

End MonadFacts.

Lemma bind_ok_inv {A B} (m : M A) (k : A → M B) (w w' : list Event) (b : B) :
  (m ≫= k) w = (Ok b, w') →
  ∃ a w1, m w = (Ok a, w1) ∧ k a w1 = (Ok b, w').
Proof.
  rewrite run_bind. destruct (m w) as [[a|e] w1]; [|done].
  intros Hk. by exists a, w1.
Qed.

Lemma run_emit (ev : Event) (w : list Event) : emit ev w = (Ok tt, w ++ [ev]).
Proof. reflexivity. Qed.

Lemma run_await_resolved (host : Host) (c : Call) (w : list Event) :
  rejects host w c = false → await host c w = (Ok tt, w ++ [EAwait c true]).
Proof. intros Hr. unfold await. by rewrite Hr. Qed.

Lemma run_await_rejected (host : Host) (c : Call) (w : list Event) :
  rejects host w c = true →
  await host c w = (Throw (Rejected c), w ++ [EAwait c false]).
Proof. intros Hr. unfold await. by rewrite Hr. Qed.

Lemma await_cases (host : Host) (c : Call) (w : list Event) :
  await host c w = (Throw (Rejected c), w ++ [EAwait c false])
  ∨ await host c w = (Ok tt, w ++ [EAwait c true]).
Proof. unfold await. destruct (rejects host w c); auto. Qed.

Lemma layers_add_cases (host : Host) (data : gmap string DwgValue)
    (w : list Event) :
  layers_add host data w
  = (Throw (Rejected (CLayersAdd data)), w ++ [EAwait (CLayersAdd data) false])
  ∨ layers_add host data w
    = (Ok (length w), w ++ [EAwait (CLayersAdd data) true]).
Proof.
  unfold layers_add. rewrite run_bind. change (position w) with (Ok (length w), w).
  cbv beta iota. rewrite run_bind.
  destruct (await_cases host (CLayersAdd data) w) as [-> | ->]; auto.
Qed.

(** ** Dataset grouper *)

Section GrouperFacts.
Context (host : Host).

Lemma extractGroups_cons (groups : Groups) (item : WorkspaceItem)
    (items : list WorkspaceItem) :
  extractGroups host groups (item :: items)
  = (groups' ← extractGroups_item host groups item;
     extractGroups host groups' items).
Proof. reflexivity. Qed.

(** What [addToGroups] does with a file of unrecognised extension whose
    buffer the host delivers. *)
Lemma addToGroups_unsupported (groups : Groups) (item : WorkspaceItem)
    (w : list Event) :
  title_extension (item_title item) ∉ ALLOWED_EXTENSIONS →
  rejects host w (CGet (item_title item)) = false →
  addToGroups host groups item w
  = (Ok groups,
     w ++ [EAwait (CGet (item_title item)) true;
           EDetails (item_title item);
           EError "Unsupported extension {0}"
                  (ArgString (title_extension (item_title item)))]).
Proof.
  intros Hext Hget. unfold addToGroups, item_get.
  rewrite !run_bind, (run_await_resolved _ _ _ Hget). simpl.
  rewrite bool_decide_eq_false_2 by done. simpl.
  rewrite !run_bind, !run_emit. simpl.
  by rewrite !run_bind, !run_emit, <- !app_assoc.
Qed.

(** C8, as the code has it: a file of unrecognised extension whose buffer
    the host delivers changes no dataset, is reported by exactly one message
    that names its extension, and the run goes on with the files that
    follow. *)
Theorem unsupported_file_skipped (groups : Groups) (title : string)
    (buffer : list Byte.byte) (items : list WorkspaceItem) (w : list Event) :
  title_extension title ∉ ALLOWED_EXTENSIONS →
  rejects host w (CGet title) = false →
  extractGroups host groups (file title buffer :: items) w
  = extractGroups host groups items
      (w ++ [EAwait (CGet title) true;
             EDetails title;
             EError "Unsupported extension {0}"
                    (ArgString (title_extension title))]).
Proof.
  intros Hext Hget. rewrite extractGroups_cons.
  apply (run_bind_ok (extractGroups_item host groups (file title buffer))
                     (λ groups', extractGroups host groups' items)).
  by apply (addToGroups_unsupported groups (file title buffer) w).
Qed.

(** C9, as the code has it: the first thing [addToGroups] does with any file
    is to request its buffer from the host; the extension is examined only
    afterwards, so that the buffer of a file that is then rejected for its
    extension has been retrieved all the same. *)
Theorem addToGroups_fetches_first (groups : Groups) (item : WorkspaceItem)
    (w : list Event) :
  ∃ (resolved : bool) (later : list Event),
    (addToGroups host groups item w).2
    = w ++ EAwait (CGet (item_title item)) resolved :: later
    ∧ (title_extension (item_title item) ∉ ALLOWED_EXTENSIONS →
       resolved = true →
       later = [EDetails (item_title item);
                EError "Unsupported extension {0}"
                       (ArgString (title_extension (item_title item)))]).
Proof.
  destruct (rejects host w (CGet (item_title item))) eqn:Hget.
  - exists false, []. split; [|done].
    unfold addToGroups, item_get.
    by rewrite !run_bind, (run_await_rejected _ _ _ Hget).
  - exists true.
    destruct (decide (title_extension (item_title item) ∈ ALLOWED_EXTENSIONS))
      as [Hin|Hout].
    + exists [EDetails (item_title item)]. split; [|done].
      unfold addToGroups, item_get.
      rewrite !run_bind, (run_await_resolved _ _ _ Hget). simpl.
      rewrite bool_decide_eq_true_2 by done. simpl.
      rewrite !run_bind, run_emit.
      destruct (groups !! _); [|case_bool_decide]; simpl;
        by rewrite <- app_assoc.
    + eexists. split; [|done].
      by rewrite (addToGroups_unsupported groups item w Hout Hget).
Qed.

End GrouperFacts.

(** ** Alphabets: which events a computation can add to the history *)

Section EmitsRules.
Context (P : Event → bool).

Lemma emits_ret {A} (a : A) : emits P (mret a).
Proof. intros w. exists []. by rewrite app_nil_r. Qed.

Lemma emits_position : emits P position.
Proof. intros w. exists []. by rewrite app_nil_r. Qed.

Lemma emits_throw {A} (e : Exn) : emits P (throw e : M A).
Proof. intros w. exists []. by rewrite app_nil_r. Qed.

Lemma emits_emit (ev : Event) : P ev = true → emits P (emit ev).
Proof. intros Hev w. exists [ev]. split; [done|]. by constructor. Qed.

Lemma emits_await (host : Host) (c : Call) :
  P (EAwait c true) = true → P (EAwait c false) = true →
  emits P (await host c).
Proof.
  intros Ht Hf w. unfold await.
  destruct (rejects host w c); eexists; (split; [done|]); by constructor.
Qed.

Lemma emits_bind {A B} (m : M A) (k : A → M B) :
  emits P m → (∀ a, emits P (k a)) → emits P (m ≫= k).
Proof.
  intros Hm Hk w. rewrite run_bind.
  destruct (Hm w) as (evs & Hw & Hevs).
  destruct (m w) as [[a|e] w1]; simpl in Hw; subst w1.
  - destruct (Hk a (w ++ evs)) as (evs' & Hw' & Hevs').
    exists (evs ++ evs'). rewrite Hw', app_assoc. split; [done|].
    by apply Forall_app.
  - by exists evs.
Qed.

Lemma emits_try_finally {A} (body : M A) (fin : M unit) :
  emits P body → emits P fin → emits P (try_finally body fin).
Proof.
  intros Hb Hf w. unfold try_finally.
  destruct (Hb w) as (evs & Hw & Hevs).
  destruct (body w) as [r w1]; simpl in Hw; subst w1.
  destruct (Hf (w ++ evs)) as (evs' & Hw' & Hevs').
  exists (evs ++ evs'). rewrite app_assoc, <- Hw'. split.
  - by destruct (fin (w ++ evs)) as [[[]|e] w2].
  - by apply Forall_app.
Qed.

Lemma emits_try_catch {A} (body : M A) (handler : Exn → M A) :
  emits P body → (∀ e, emits P (handler e)) → emits P (try_catch body handler).
Proof.
  intros Hb Hh w. unfold try_catch.
  destruct (Hb w) as (evs & Hw & Hevs).
  destruct (body w) as [[a|e] w1]; simpl in Hw; subst w1.
  - by exists evs.
  - destruct (Hh e (w ++ evs)) as (evs' & Hw' & Hevs').
    exists (evs ++ evs'). rewrite Hw', app_assoc. split; [done|].
    by apply Forall_app.
Qed.

Lemma emits_for_each {A S} (f : S → A → M S) (l : list A) (s : S) :
  (∀ s x, emits P (f s x)) → emits P (for_each f s l).
Proof.
  intros Hf. revert s. induction l as [|x l IH]; intros s; simpl.
  - apply emits_ret.
  - apply emits_bind; [apply Hf|]. intros s'. apply IH.
Qed.

Lemma emits_for_update {A} (f : A → M A) (l : list A) :
  (∀ x, emits P (f x)) → emits P (for_update f l).
Proof.
  intros Hf. induction l as [|x l IH]; simpl.
  - apply emits_ret.
  - apply emits_bind; [apply Hf|]. intros y.
    apply emits_bind; [apply IH|]. intros l'. apply emits_ret.
Qed.

End EmitsRules.

Lemma emits_weaken {A} (P Q : Event → bool) (m : M A) :
  (∀ ev, P ev = true → Q ev = true) → emits P m → emits Q m.
Proof.
  intros HPQ Hm w. destruct (Hm w) as (evs & Hw & Hevs).
  exists evs. split; [done|]. eapply Forall_impl; [exact Hevs|]. apply HPQ.
Qed.

(** The rules, applied as far as the shape of the program goes. *)
Ltac emits_step :=
  first
    [ apply emits_ret
    | apply emits_position
    | apply emits_throw
    | apply emits_emit; reflexivity
    | apply emits_await; reflexivity
    | apply emits_bind; [|intros ?]
    | apply emits_for_each; intros ? ?
    | apply emits_for_update; intros ?
    | apply emits_try_finally
    | apply emits_try_catch; [|intros ?] ].

(** ** Typed properties and geometry: alphabets *)

Section AssemblerAlphabets.
Context `{Runtime} (host : Host).

Lemma featurePropValue_run (prop : PropertyValue) (w : list Event) :
  ∃ typed evs,
    featurePropValue prop w = (Ok typed, w ++ evs)
    ∧ Forall (λ ev, log_event ev = true) evs.
Proof.
  destruct prop as [x|s|b|d|]; simpl;
    try (eexists _, []; rewrite app_nil_r; by split).
  eexists _, [_]. rewrite run_bind, run_emit. simpl. split; [done|].
  by constructor.
Qed.

(** [featureProps] cannot fail; it logs, and its result has the keys of the
    attribute map. *)
Lemma featureProps_loop (l : list (string * PropertyValue))
    (acc : gmap string DwgValue) (w : list Event) :
  ∃ props evs,
    for_each (λ props '(name, prop),
                typed ← featurePropValue prop; mret (<[name := typed]> props))
             acc l w = (Ok props, w ++ evs)
    ∧ Forall (λ ev, log_event ev = true) evs
    ∧ ∀ k, props !! k = None ↔ acc !! k = None ∧ k ∉ l.*1.
Proof.
  revert acc w. induction l as [|[k0 v0] l IH]; intros acc w.
  - exists acc, []. simpl. rewrite app_nil_r. split; [done|]. split; [done|].
    intros k. split; [|by intros [? _]].
    intros Hk. split; [done|]. apply not_elem_of_nil.
  - destruct (featurePropValue_run v0 w) as (typed & evs0 & Hrun & Hlog).
    destruct (IH (<[k0 := typed]> acc) (w ++ evs0))
      as (props & evs & Hloop & Hlogs & Hkeys).
    exists props, (evs0 ++ evs). split; [|split].
    + simpl. rewrite run_bind, run_bind, Hrun. simpl.
      rewrite app_assoc. exact Hloop.
    + by apply Forall_app.
    + intros k. rewrite Hkeys. simpl. rewrite not_elem_of_cons.
      rewrite lookup_insert_None. intuition congruence.
Qed.

Lemma featureProps_run (rawProps : gmap string PropertyValue) (w : list Event) :
  ∃ props evs,
    featureProps rawProps w = (Ok props, w ++ evs)
    ∧ Forall (λ ev, log_event ev = true) evs
    ∧ ∀ k, props !! k = None ↔ rawProps !! k = None.
Proof.
  destruct (featureProps_loop (map_to_list rawProps) ∅ w)
    as (props & evs & Hrun & Hlog & Hkeys).
  exists props, evs. split; [exact Hrun|]. split; [exact Hlog|].
  intros k. rewrite Hkeys, lookup_empty.
  rewrite <- (not_elem_of_dom rawProps), <- (elem_of_elements (dom rawProps)).
  assert ((map_to_list rawProps).*1 ≡ₚ elements (dom rawProps)) as Hperm.
  { rewrite dom_alt. rewrite elements_list_to_set; [done|].
    apply NoDup_fst_map_to_list. }
  rewrite Hperm. tauto.
Qed.

Lemma pointEntity_emits (ed layer : nat) (c : Coord) :
  emits geometry_event (pointEntity host ed layer c).
Proof. unfold pointEntity, addCircle, setx. repeat emits_step. Qed.

Lemma lineEntity_emits (ed layer : nat) (cs : list Coord) :
  emits geometry_event (lineEntity host ed layer cs).
Proof.
  unfold lineEntity, addLine, addPolyline3d, setx.
  destruct cs as [|a [|b [|c cs]]]; repeat emits_step.
Qed.

Lemma ringEntity_emits (ed layer : nat) (cs : list Coord) :
  emits geometry_event (ringEntity host ed layer cs).
Proof. unfold ringEntity, addPolyline3d, setx. repeat emits_step. Qed.

Lemma featureGeometry_emits (ed layer : nat) (g : Geometry) :
  emits geometry_event (featureGeometry host ed layer g).
Proof.
  destruct g; simpl; repeat emits_step;
    auto using pointEntity_emits, lineEntity_emits, ringEntity_emits.
Qed.

Lemma featureGeometry_call_emits (ed layer : nat) (g : option Geometry) :
  emits geometry_event (featureGeometry_call host ed layer g).
Proof.
  destruct g as [g|]; [apply featureGeometry_emits|apply emits_throw].
Qed.

End AssemblerAlphabets.

(** ** Layer names *)

Section NamingFacts.
Context `{Runtime} (host : Host).

Lemma requestedNames_app (w1 w2 : list Event) :
  requestedNames (w1 ++ w2) = requestedNames w1 ++ requestedNames w2.
Proof. apply omap_app. Qed.

Lemma requestedNames_none (P : Event → bool) (evs : list Event) :
  (∀ c b, P (EAwait (CLayersAdd c) b) = false) →
  Forall (λ ev, P ev = true) evs → requestedNames evs = [].
Proof.
  intros HP Hevs. induction Hevs as [|ev evs Hev _ IH]; [done|].
  change (ev :: evs) with ([ev] ++ evs).
  rewrite requestedNames_app, IH, app_nil_r.
  destruct ev as [[] ?| | | | | | | | | |]; try done.
  by rewrite HP in Hev.
Qed.

(** Candidates without a usable value are all passed over. *)
Lemma scanLayerNames_unusable (properties : gmap string PropertyValue)
    (layerNames : list string) :
  (∀ name v, name ∈ layerNames → properties !! name = Some v →
             usable v = false) →
  scanLayerNames properties layerNames = None.
Proof.
  induction layerNames as [|name layerNames IH]; intros Hall; [done|].
  simpl. specialize (IH (λ n v Hn, Hall n v (list_elem_of_further _ _ _ Hn))).
  destruct (properties !! name) as [v|] eqn:Hv; [|exact IH].
  specialize (Hall name v (list_elem_of_here _ _) Hv).
  destruct v as [x|s|b|d|]; simpl in Hall; try done.
  - by rewrite Hall.
  - apply negb_false_iff in Hall. by rewrite Hall.
  - apply negb_false_iff in Hall. by rewrite Hall.
Qed.


(** What one call of [loadFeature] requests and returns: exactly one layer
    is requested; when the feature has no attribute called [name], the
    requested name is the string found by the scan or else the incremented
    counter; and the counter moves by one exactly when it was used. *)
Lemma loadFeature_run (ed : nat) (feature : Feature)
    (layerNames : list string) (layerIDs : N) (w : list Event) :
  ∃ r evs name,
    loadFeature host ed feature layerNames layerIDs w = (r, w ++ evs)
    ∧ requestedNames evs = [name]
    ∧ (properties feature !! "name" = None →
       name = Some (DString
                      (default (pretty (layerIDs + 1)%N)
                         (scanLayerNames (properties feature) layerNames))))
    ∧ (∀ layer layerIDs',
         r = Ok (layer, layerIDs') →
         layerIDs' = if needsFallback layerNames feature
                     then (layerIDs + 1)%N else layerIDs).
Proof.
  unfold loadFeature.
  destruct (featureProps_run (properties feature) w)
    as (props & evs0 & Hprops & Hlog & Hkeys).
  rewrite (run_bind_ok _ _ _ _ _ Hprops).
  destruct (assignLayerName _ _ _ _) as [data ids] eqn:Hassign.
  assert (requestedNames evs0 = []) as Hnames0.
  { by apply (requestedNames_none log_event). }
  assert (properties feature !! "name" = None →
          data !! "name"
          = Some (DString
                    (default (pretty (layerIDs + 1)%N)
                       (scanLayerNames (properties feature) layerNames))))
    as Hname.
  { intros Hno. unfold assignLayerName in Hassign.
    rewrite lookup_insert_ne in Hassign by done.
    rewrite (proj2 (Hkeys "name") Hno) in Hassign.
    destruct (scanLayerNames _ _); injection Hassign as <- <-;
      apply lookup_insert_eq. }
  assert (ids = if needsFallback layerNames feature
                then (layerIDs + 1)%N else layerIDs) as Hids.
  { unfold assignLayerName, needsFallback in *.
    rewrite lookup_insert_ne in Hassign by done.
    destruct (props !! "name") as [named|] eqn:Hnamed.
    - injection Hassign as <- <-.
      rewrite bool_decide_eq_false_2; [done|].
      intros Hno. apply Hkeys in Hno. congruence.
    - rewrite bool_decide_eq_true_2 by by apply Hkeys.
      destruct (scanLayerNames _ _); injection Hassign as <- <-; done. }
  destruct (layers_add_cases host data (w ++ evs0)) as [Hadd|Hadd].
  - exists (Throw (Rejected (CLayersAdd data))),
           (evs0 ++ [EAwait (CLayersAdd data) false]), (data !! "name").
    rewrite (run_bind_throw _ _ _ _ _ Hadd), app_assoc. split; [done|].
    rewrite requestedNames_app, Hnames0. by repeat split.
  - rewrite (run_bind_ok _ _ _ _ _ Hadd).
    rewrite (run_bind_ok _ _ _ _ _ (run_emit _ _)).
    destruct (featureGeometry_call_emits host ed (length (w ++ evs0))
                (geometry feature)
                (((w ++ evs0) ++ [EAwait (CLayersAdd data) true])
                   ++ [EDisabled (length (w ++ evs0)) true]))
      as (evs2 & Hgeo & Hevs2).
    rewrite run_bind.
    destruct (featureGeometry_call _ _ _ _ _) as [r2 w2].
    simpl in Hgeo. subst w2.
    exists (match r2 with
            | Ok _ => Ok (length (w ++ evs0), ids)
            | Throw e => Throw e
            end),
           (evs0 ++ [EAwait (CLayersAdd data) true]
                 ++ [EDisabled (length (w ++ evs0)) true] ++ evs2),
           (data !! "name").
    split; [|split; [|split]].
    + rewrite <- !app_assoc. by destruct r2.
    + rewrite !requestedNames_app, Hnames0.
      by rewrite (requestedNames_none geometry_event evs2).
    + exact Hname.
    + intros layer ids'. destruct r2; [|done]. by intros [= _ <-].
Qed.

(** The counter over a whole run of [loadShapes]. *)
Lemma loadOne_counter (ed parent : nat) (layerNames : list string)
    (layerIDs layerIDs' : N) (feature : Feature) (w w' : list Event) :
  loadOne host ed parent layerNames layerIDs feature w = (Ok layerIDs', w') →
  layerIDs' = if fallbackNamed layerNames feature
              then (layerIDs + 1)%N else layerIDs.
Proof.
  unfold loadOne, fallbackNamed.
  destruct (String.eqb (feature_type feature) "Feature"); simpl.
  - intros Hrun. apply bind_ok_inv in Hrun as ([layer ids] & w1 & Hload & Hrun).
    destruct (loadFeature_run ed feature layerNames layerIDs w)
      as (r & evs & name & Hrun' & _ & _ & Hids).
    rewrite Hload in Hrun'. injection Hrun' as <- _.
    apply bind_ok_inv in Hrun as ([] & w2 & _ & [= <- _]).
    by apply (Hids layer).
  - intros Hrun. apply bind_ok_inv in Hrun as ([] & w1 & _ & [= <- _]). done.
Qed.

Lemma loadFeatures_counter (ed parent : nat) (layerNames : list string)
    (l : list Feature) (layerIDs layerIDs' : N) (w w' : list Event) :
  for_each (loadOne host ed parent layerNames) layerIDs l w = (Ok layerIDs', w') →
  layerIDs'
  = (layerIDs
     + N.of_nat (length (filter (λ feature,
                                   fallbackNamed layerNames feature = true) l)))%N.
Proof.
  revert layerIDs w. induction l as [|feature l IH]; intros layerIDs w; simpl.
  - intros [= <- _]. lia.
  - intros Hrun. apply bind_ok_inv in Hrun as (ids & w1 & Hone & Hrun).
    apply loadOne_counter in Hone. apply IH in Hrun. subst layerIDs'.
    rewrite filter_cons.
    destruct (fallbackNamed layerNames feature) eqn:Hf; subst ids.
    + rewrite decide_True by done. simpl length. lia.
    + rewrite decide_False by done. lia.
Qed.

Lemma fallbackCount_cons (layerNames : list string)
    (dataset : string * GeoJSON) (datasets : list (string * GeoJSON)) :
  fallbackCount layerNames (dataset :: datasets)
  = (if String.eqb (geojson_type dataset.2) "FeatureCollection"
     then length (filter (λ feature, fallbackNamed layerNames feature = true)
                         (features dataset.2))
     else 0)
    + fallbackCount layerNames datasets.
Proof. reflexivity. Qed.

Lemma loadDatasets_counter (ed root : nat) (layerNames : list string)
    (total : nat) (datasets : list (string * GeoJSON)) (i : nat)
    (layerIDs : N) (state : nat * N) (w w' : list Event) :
  for_each (loadDataset host ed root layerNames total) (i, layerIDs) datasets w
  = (Ok state, w') →
  state.2 = (layerIDs + N.of_nat (fallbackCount layerNames datasets))%N.
Proof.
  revert i layerIDs w.
  induction datasets as [|[name geojson] datasets IH]; intros i layerIDs w.
  - intros [= <- _]. simpl. unfold fallbackCount. simpl. lia.
  - simpl. intros Hrun.
    apply bind_ok_inv in Hrun as ([i1 ids1] & w1 & Hone & Hrun).
    apply IH in Hrun. rewrite Hrun. clear Hrun IH.
    rewrite fallbackCount_cons, Nat2N.inj_add. simpl.
    destruct (String.eqb (geojson_type geojson) "FeatureCollection").
    + apply bind_ok_inv in Hone as ([] & w2 & _ & Hone).
      apply bind_ok_inv in Hone as ([] & w3 & _ & Hone).
      apply bind_ok_inv in Hone as (parent & w4 & _ & Hone).
      apply bind_ok_inv in Hone as ([] & w5 & _ & Hone).
      apply bind_ok_inv in Hone as ([] & w6 & _ & Hone).
      apply bind_ok_inv in Hone as (ids & w7 & Hfeatures & [= _ <- _]).
      apply loadFeatures_counter in Hfeatures. lia.
    + apply bind_ok_inv in Hone as ([] & w2 & _ & [= _ <- _]). lia.
Qed.

Lemma loadShapes_counter (ed : nat) (geoJSONs : gmap string GeoJSON)
    (root : nat) (layerNames : list string) (layerIDs layerIDs' : N)
    (w w' : list Event) :
  loadShapes host ed geoJSONs root layerNames layerIDs w = (Ok layerIDs', w') →
  layerIDs'
  = (layerIDs + N.of_nat (fallbackCount layerNames (map_to_list geoJSONs)))%N.
Proof.
  unfold loadShapes. intros Hrun.
  apply bind_ok_inv in Hrun as ([] & w1 & _ & Hrun).
  apply bind_ok_inv in Hrun as (state & w2 & Hloop & [= <- _]).
  by apply loadDatasets_counter in Hloop.
Qed.


End NamingFacts.

(** ** Geometry mapper *)

Section NumberFacts.

Lemma pow52_mul (m : positive) :
  (4503599627370496 * m)%positive = Pos.iter xO m 52.
Proof. reflexivity. Qed.

Lemma digits2_shift52 (m : positive) :
  Z.pos (digits2_pos (4503599627370496 * m))
  = (Z.pos (digits2_pos m) + 52)%Z.
Proof. rewrite pow52_mul. cbn [Pos.iter digits2_pos]. lia. Qed.

Lemma shr_52 (m : positive) :
  SpecFloat.iter_pos shr_1 52%positive
    (shr_record_of_loc (Z.pos (4503599627370496 * m)) loc_Exact)
  = Build_shr_record (Z.pos m) false false.
Proof. rewrite pow52_mul. reflexivity. Qed.

(** Multiplying a finite binary64 number by one gives it back: the product
    of the mantissas is shifted back by 52 bits without loss. *)
Lemma num_mul_SCALE_finite (s : bool) (m : positive) (e : Z) :
  bounded prec emax m e = true →
  num_mul (S754_finite s m e) SCALE = S754_finite s m e.
Proof.
  intros Hb. apply andb_prop in Hb as [Hc Hle].
  unfold canonical_mantissa in Hc. apply Z.eqb_eq in Hc.
  unfold num_mul, SFmul, SCALE.
  rewrite Pos.mul_comm.
  unfold binary_round_aux, shr_fexp.
  cbn [Zdigits2].
  rewrite digits2_shift52.
  replace (Z.pos (digits2_pos m) + 52 + (e + -52))%Z
    with (Z.pos (digits2_pos m) + e)%Z by lia.
  rewrite Hc.
  replace (e - (e + -52))%Z with 52%Z by lia.
  unfold shr at 1. rewrite shr_52.
  cbn [shr_m loc_of_shr_record round_nearest_even Zdigits2 shr_record_of_loc].
  replace (e + -52 + 52)%Z with e by lia.
  rewrite Hc, Z.sub_diag. cbn [shr shr_m].
  rewrite Hle. by destruct s.
Qed.

Lemma num_mul_SCALE (x : number) : is_number x → num_mul x SCALE = x.
Proof.
  destruct x as [s|s| |s m e]; intros Hx.
  - by destruct s.
  - by destruct s.
  - done.
  - by apply num_mul_SCALE_finite.
Qed.

Lemma paddedScaled_vertex (c : Coord) :
  scaleCoordinates (coordinatesToVec3 c) = paddedScaled c.
Proof. by destruct c. Qed.

Lemma paddedScaled_padded (c : Coord) :
  coord_is_number c → paddedScaled c = padded c.
Proof.
  destruct c as [x y|x y z]; simpl.
  - intros [Hx Hy]. by rewrite !num_mul_SCALE.
  - intros (Hx & Hy & Hz). by rewrite !num_mul_SCALE.
Qed.

(** The loop that rewrites an array in place amounts to a map. *)
Lemma upliftFrom_spec (n i : nat) (cs : list Coord) :
  i + n = length cs →
  upliftFrom n i cs = take i cs ++ (paddedScaled <$> drop i cs).
Proof.
  revert i cs. induction n as [|n IH]; intros i cs Hlen; simpl.
  - rewrite drop_ge by lia. rewrite take_ge by lia. by rewrite app_nil_r.
  - destruct (lookup_lt_is_Some_2 cs i) as [c Hc]; [lia|].
    rewrite Hc, paddedScaled_vertex.
    rewrite IH by (rewrite length_insert; lia).
    rewrite (take_S_r _ _ (paddedScaled c)).
    2:{ apply list_lookup_insert_eq. lia. }
    rewrite take_insert_ge by lia.
    rewrite drop_insert_lt by lia.
    rewrite (drop_S cs c i Hc). simpl. by rewrite <- app_assoc.
Qed.

Lemma uplift_spec (cs : list Coord) : uplift cs = paddedScaled <$> cs.
Proof. unfold uplift. by rewrite upliftFrom_spec. Qed.

End NumberFacts.

Section PerformsRules.
Context (host : Host).

Lemma requestedCoords_app (w1 w2 : list Event) :
  requestedCoords (w1 ++ w2) = requestedCoords w1 ++ requestedCoords w2.
Proof. unfold requestedCoords. by rewrite fmap_app, concat_app. Qed.

Lemma performs_ret {A} (a : A) (Q : A → Prop) :
  Q a → performs host (mret a) [] Q.
Proof.
  intros HQ w. exists (Ok a), []. rewrite app_nil_r.
  split; [done|]. split; [done|]. split.
  - by intros a' [= <-].
  - intros _. by exists a.
Qed.

Lemma performs_position : performs host position [] (λ _, True).
Proof.
  intros w. exists (Ok (length w)), []. rewrite app_nil_r.
  split; [done|]. split; [done|]. split; [done|]. intros _. by eexists.
Qed.

Lemma performs_emit (ev : Event) :
  requestedCoords [ev] = [] → performs host (emit ev) [] (λ _, True).
Proof.
  intros Hev w. exists (Ok tt), [ev]. rewrite Hev.
  split; [done|]. split; [done|]. split; [done|]. intros _. by eexists.
Qed.

Lemma performs_await (c : Call) :
  performs host (await host c) (callCoords c) (λ _, True).
Proof.
  intros w. unfold await. destruct (rejects host w c) eqn:Hr.
  - exists (Throw (Rejected c)), [EAwait c false].
    split; [done|]. split.
    { unfold requestedCoords. simpl. by rewrite app_nil_r. }
    split; [done|]. intros Hq. by rewrite Hq in Hr.
  - exists (Ok tt), [EAwait c true].
    assert (requestedCoords [EAwait c true] = callCoords c) as ->.
    { unfold requestedCoords. simpl. by rewrite app_nil_r. }
    split; [done|]. split; [done|]. split; [done|]. intros _. by eexists.
Qed.

Lemma performs_bind {A B} (m : M A) (k : A → M B) (L1 L2 : list Coord)
    (Q1 : A → Prop) (Q2 : B → Prop) :
  performs host m L1 Q1 →
  (∀ a, Q1 a → performs host (k a) L2 Q2) →
  performs host (m ≫= k) (L1 ++ L2) Q2.
Proof.
  intros Hm Hk w. rewrite run_bind.
  destruct (Hm w) as (r1 & evs1 & Hrun1 & Hpre1 & Hok1 & Hq1).
  rewrite Hrun1. destruct r1 as [a|e].
  - destruct (Hok1 a eq_refl) as [HQ1 Hall1].
    destruct (Hk a HQ1 (w ++ evs1)) as (r2 & evs2 & Hrun2 & Hpre2 & Hok2 & Hq2).
    exists r2, (evs1 ++ evs2). rewrite app_assoc, requestedCoords_app, Hall1.
    split; [done|]. split; [by apply prefix_app|]. split.
    + intros b Hb. destruct (Hok2 b Hb) as [HQ2 Hall2]. by rewrite Hall2.
    + exact Hq2.
  - exists (Throw e), evs1. split; [done|].
    split; [by apply prefix_app_r|]. split; [done|].
    intros Hq. destruct (Hq1 Hq) as [a Ha]. done.
Qed.

Lemma performs_eq {A} (m : M A) (L L' : list Coord) (Q Q' : A → Prop) :
  performs host m L Q → L = L' → (∀ a, Q a → Q' a) → performs host m L' Q'.
Proof.
  intros Hm <- HQ w. destruct (Hm w) as (r & evs & Hrun & Hpre & Hok & Hq).
  exists r, evs. split; [done|]. split; [done|]. split; [|done].
  intros a Ha. destruct (Hok a Ha). auto.
Qed.

(** [m] followed by a step that requests nothing and returns [b]. *)
Lemma performs_then {A B} (m : M A) (k : A → M B) (L : list Coord)
    (Q1 : A → Prop) (Q2 : B → Prop) :
  performs host m L Q1 →
  (∀ a, Q1 a → performs host (k a) [] Q2) →
  performs host (m ≫= k) L Q2.
Proof.
  intros Hm Hk.
  apply (performs_eq _ (L ++ []) L Q2 Q2);
    [by apply (performs_bind m k L [] Q1 Q2)|apply app_nil_r|done].
Qed.

(** A step that requests nothing, followed by [k]. *)
Lemma performs_after {A B} (m : M A) (k : A → M B) (L : list Coord)
    (Q1 : A → Prop) (Q2 : B → Prop) :
  performs host m [] Q1 →
  (∀ a, Q1 a → performs host (k a) L Q2) →
  performs host (m ≫= k) L Q2.
Proof. intros Hm Hk. by apply (performs_bind m k [] L Q1 Q2). Qed.

Lemma performs_for_each {A S} (f : S → A → M S) (F : A → list Coord)
    (l : list A) (s : S) :
  (∀ s x, performs host (f s x) (F x) (λ _, True)) →
  performs host (for_each f s l) (concat (F <$> l)) (λ _, True).
Proof.
  intros Hf. revert s. induction l as [|x l IH]; intros s; simpl.
  - by apply performs_ret.
  - apply (performs_bind _ _ (F x) _ (λ _, True)); [apply Hf|].
    intros s' _. apply IH.
Qed.

Lemma performs_for_update {A} (f : A → M A) (F : A → list Coord) (G : A → A)
    (l : list A) :
  (∀ x, performs host (f x) (F x) (λ y, y = G x)) →
  performs host (for_update f l) (concat (F <$> l)) (λ l', l' = G <$> l).
Proof.
  intros Hf. induction l as [|x l IH]; simpl.
  - by apply performs_ret.
  - apply (performs_bind _ _ (F x) _ (λ y, y = G x)); [apply Hf|].
    intros y ->.
    apply (performs_then _ _ _ (λ l', l' = G <$> l)); [apply IH|].
    intros l' ->. by apply performs_ret.
Qed.

Lemma fmap_concat_comm {A B} (f : A → B) (ls : list (list A)) :
  f <$> concat ls = concat ((λ l : list A, f <$> l) <$> ls).
Proof.
  induction ls as [|l ls IH]; [done|]. simpl. by rewrite fmap_app, IH.
Qed.

(** A call that creates an object and returns its handle. *)
Lemma performs_call (c : Call) :
  performs host (h ← position; await host c;; mret h) (callCoords c)
    (λ _, True).
Proof.
  apply (performs_after _ _ _ (λ _, True)); [apply performs_position|].
  intros h _.
  apply (performs_then _ _ _ (λ _, True)); [apply performs_await|].
  intros [] _. by apply performs_ret.
Qed.

Lemma pointEntity_performs (ed layer : nat) (c : Coord) :
  performs host (pointEntity host ed layer c) [paddedScaled c] (λ _, True).
Proof.
  unfold pointEntity, addCircle, setx. rewrite paddedScaled_vertex.
  apply (performs_then _ _ _ (λ _, True));
    [apply (performs_call (CAddCircle _ _ _))|].
  intros entity _. apply (performs_await (CSetx _ _ _)).
Qed.

Lemma polyline_performs (ed layer : nat) (cs : list Coord) :
  performs host
    (entity ← addPolyline3d host ed cs;
     setx host entity "$layer" layer;; mret cs)
    cs (λ cs', cs' = cs).
Proof.
  unfold addPolyline3d, setx.
  apply (performs_then _ _ _ (λ _, True));
    [apply (performs_call (CAddPolyline3d _ _))|].
  intros entity _.
  apply (performs_after _ _ _ (λ _, True));
    [apply (performs_await (CSetx _ _ _))|].
  intros [] _. by apply performs_ret.
Qed.

Lemma ringEntity_performs (ed layer : nat) (cs : list Coord) :
  performs host (ringEntity host ed layer cs) (paddedScaled <$> cs)
    (λ cs', cs' = paddedScaled <$> cs).
Proof. unfold ringEntity. rewrite uplift_spec. apply polyline_performs. Qed.

Lemma lineEntity_performs (ed layer : nat) (cs : list Coord) :
  performs host (lineEntity host ed layer cs) (paddedScaled <$> cs)
    (λ cs', cs' = lineAfterMapping cs).
Proof.
  unfold lineEntity, lineAfterMapping.
  destruct cs as [|a [|b [|c cs]]];
    try (rewrite uplift_spec; apply polyline_performs).
  unfold addLine, setx. rewrite !paddedScaled_vertex.
  apply (performs_then _ _ _ (λ _, True));
    [apply (performs_call (CAddLine _ _ _))|].
  intros entity _.
  apply (performs_after _ _ _ (λ _, True));
    [apply (performs_await (CSetx _ _ _))|].
  intros [] _. by apply performs_ret.
Qed.

(** The mapper requests the padded, scaled coordinates of its input, in
    order, and leaves the geometry object as [afterMapping] says. *)
Lemma featureGeometry_performs (ed layer : nat) (g : Geometry) :
  performs host (featureGeometry host ed layer g)
    (paddedScaled <$> inputCoords g) (λ g', g' = afterMapping g).
Proof.
  destruct g as [c|cs bbox|rings bbox|cs|lines|polygons|type]; simpl.
  - apply (performs_then _ _ _ (λ _, True)); [apply pointEntity_performs|].
    intros [] _. by apply performs_ret.
  - apply (performs_then _ _ _ (λ cs', cs' = lineAfterMapping cs));
      [apply lineEntity_performs|].
    intros cs' ->. by apply performs_ret.
  - rewrite fmap_concat_comm.
    apply (performs_then _ _ _
             (λ rings', rings' = (λ ring : list Coord, paddedScaled <$> ring)
                                   <$> rings)).
    + apply (performs_for_update _ (λ ring : list Coord, paddedScaled <$> ring)
               (λ ring : list Coord, paddedScaled <$> ring)).
      intros ring. apply ringEntity_performs.
    + intros rings' ->. by apply performs_ret.
  - apply (performs_then _ _ _ (λ _, True)).
    + apply (performs_eq _ (concat ((λ c, [paddedScaled c]) <$> cs)) _
               (λ _, True) (λ _, True)); [| |done].
      * apply (performs_for_each _ (λ c, [paddedScaled c])).
        intros [] c. apply pointEntity_performs.
      * induction cs as [|c cs IH]; [done|]. simpl. f_equal. exact IH.
    + intros [] _. by apply performs_ret.
  - rewrite fmap_concat_comm.
    apply (performs_then _ _ _ (λ lines', lines' = lineAfterMapping <$> lines)).
    + apply (performs_for_update _ (λ line : list Coord, paddedScaled <$> line)
               lineAfterMapping).
      intros line. apply lineEntity_performs.
    + intros lines' ->. by apply performs_ret.
  - apply (performs_then _ _ _
             (λ polygons',
                polygons'
                = (λ rings : list (list Coord),
                     (λ ring : list Coord, paddedScaled <$> ring) <$> rings)
                    <$> polygons)).
    + apply (performs_eq _
               (concat ((λ rings : list (list Coord),
                           concat ((λ ring : list Coord, paddedScaled <$> ring)
                                     <$> rings)) <$> polygons)) _
               (λ polygons',
                  polygons'
                  = (λ rings : list (list Coord),
                       (λ ring : list Coord, paddedScaled <$> ring) <$> rings)
                      <$> polygons)
               (λ polygons',
                  polygons'
                  = (λ rings : list (list Coord),
                       (λ ring : list Coord, paddedScaled <$> ring) <$> rings)
                      <$> polygons)); [| |done].
      * apply (performs_for_update _
                 (λ rings : list (list Coord),
                    concat ((λ ring : list Coord, paddedScaled <$> ring)
                              <$> rings))
                 (λ rings : list (list Coord),
                    (λ ring : list Coord, paddedScaled <$> ring) <$> rings)).
        intros rings.
        apply (performs_for_update _
                 (λ ring : list Coord, paddedScaled <$> ring)
                 (λ ring : list Coord, paddedScaled <$> ring)).
        intros ring. apply ringEntity_performs.
      * induction polygons as [|rings polygons IH]; [done|]. simpl.
        rewrite concat_app, fmap_app. f_equal; [|exact IH].
        symmetry. apply fmap_concat_comm.
    + intros polygons' ->. by apply performs_ret.
  - apply (performs_after _ _ _ (λ _, True)); [by apply performs_emit|].
    intros [] _. by apply performs_ret.
Qed.

End PerformsRules.

Section GeometryFacts.
Context (host : Host).

(** C5, as the code has it: when the mapping of a geometry returns, the
    geometry object is [afterMapping] of what it was, that is, unchanged for
    a point, a multi-point, a line string of exactly two points and an
    unsupported kind, and with every coordinate of the other line strings
    and of every ring overwritten by its padded, scaled value; and the
    mapping does return when the host rejects no call. *)
Theorem geometry_after_mapping (ed layer : nat) (g : Geometry)
    (w : list Event) :
  ∃ r evs,
    featureGeometry host ed layer g w = (r, w ++ evs)
    ∧ (∀ g', r = Ok g' → g' = afterMapping g)
    ∧ ((∀ w' c, rejects host w' c = false) → r = Ok (afterMapping g)).
Proof.
  destruct (featureGeometry_performs host ed layer g w)
    as (r & evs & Hrun & _ & Hok & Hquiet).
  exists r, evs. split; [exact Hrun|]. split.
  - intros g' Hr. by destruct (Hok g' Hr).
  - intros Hq. destruct (Hquiet Hq) as [g' Hr].
    destruct (Hok g' Hr) as [-> _]. exact Hr.
Qed.

(** C6: the coordinates of the primitives that the mapping of a geometry
    requests are, in order, the coordinates of the geometry, each padded
    with Z = 0 when it has two members and multiplied member by member by
    the scale constant: all of them when the mapping returns, which it does
    when the host rejects no call, and the first of them when a call is
    rejected.  The scale constant being one, a padded, scaled coordinate is
    the padded coordinate. *)
Theorem emitted_coordinates (ed layer : nat) (g : Geometry) (w : list Event) :
  (∃ r evs,
     featureGeometry host ed layer g w = (r, w ++ evs)
     ∧ requestedCoords evs `prefix_of` (paddedScaled <$> inputCoords g)
     ∧ (∀ g', r = Ok g' →
              requestedCoords evs = paddedScaled <$> inputCoords g)
     ∧ ((∀ w' c, rejects host w' c = false) → ∃ g', r = Ok g'))
  ∧ (∀ c, coord_is_number c → paddedScaled c = padded c).
Proof.
  split; [|apply paddedScaled_padded].
  destruct (featureGeometry_performs host ed layer g w)
    as (r & evs & Hrun & Hpre & Hok & Hquiet).
  exists r, evs. split; [exact Hrun|]. split; [exact Hpre|]. split.
  - intros g' Hr. by destruct (Hok g' Hr).
  - exact Hquiet.
Qed.

End GeometryFacts.

(** ** Import orchestrator *)

Section OrchestratorFacts.
Context `{Runtime} (host : Host).

Lemma work_of_geometry (ev : Event) :
  geometry_event ev = true → work_event ev = true.
Proof. by destruct ev as [[] ?| | | | | | | | | |]. Qed.

Lemma work_of_log (ev : Event) : log_event ev = true → work_event ev = true.
Proof. by destruct ev as [[] ?| | | | | | | | | |]. Qed.

Lemma featureProps_emits (rawProps : gmap string PropertyValue) :
  emits work_event (featureProps rawProps).
Proof.
  intros w. destruct (featureProps_run rawProps w) as (props & evs & Hrun & Hlog & _).
  exists evs. rewrite Hrun. split; [done|].
  eapply Forall_impl; [exact Hlog|]. apply work_of_log.
Qed.

Lemma layers_add_emits (data : gmap string DwgValue) :
  emits work_event (layers_add host data).
Proof. unfold layers_add. repeat emits_step. Qed.

Lemma loadFeature_emits (ed : nat) (feature : Feature)
    (layerNames : list string) (layerIDs : N) :
  emits work_event (loadFeature host ed feature layerNames layerIDs).
Proof.
  unfold loadFeature.
  apply emits_bind; [apply featureProps_emits|]. intros props.
  destruct (assignLayerName _ _ _ _) as [data ids].
  apply emits_bind; [apply layers_add_emits|]. intros layer.
  apply emits_bind; [by apply emits_emit|]. intros _.
  apply emits_bind; [|intros ?; apply emits_ret].
  apply (emits_weaken geometry_event); [apply work_of_geometry|].
  apply featureGeometry_call_emits.
Qed.

Lemma loadOne_emits (ed parent : nat) (layerNames : list string)
    (layerIDs : N) (feature : Feature) :
  emits work_event (loadOne host ed parent layerNames layerIDs feature).
Proof.
  unfold loadOne, setx. destruct (String.eqb _ _).
  - apply emits_bind; [apply loadFeature_emits|]. intros [layer ids].
    repeat emits_step.
  - repeat emits_step.
Qed.

Lemma loadDataset_emits (ed root : nat) (layerNames : list string)
    (total : nat) (state : nat * N) (dataset : string * GeoJSON) :
  emits work_event (loadDataset host ed root layerNames total state dataset).
Proof.
  unfold loadDataset, setx. destruct state as [i ids], dataset as [name geojson].
  destruct (String.eqb _ _); [|repeat emits_step].
  apply emits_bind; [by apply emits_emit|]. intros _.
  apply emits_bind; [by apply emits_emit|]. intros _.
  apply emits_bind; [apply layers_add_emits|]. intros parent.
  apply emits_bind; [by apply emits_emit|]. intros _.
  apply emits_bind; [by apply emits_await|]. intros _.
  apply emits_bind; [|intros ?; apply emits_ret].
  apply emits_for_each. intros ids' feature. apply loadOne_emits.
Qed.

Lemma writeLayers_emits (ed : nat) (filename : string)
    (geoJSONs : gmap string GeoJSON) (layerNames : list string)
    (layerIDs : N) :
  emits work_event (writeLayers host ed filename geoJSONs layerNames layerIDs).
Proof.
  unfold writeLayers, loadShapes.
  apply emits_bind; [apply layers_add_emits|]. intros root.
  apply emits_bind; [by apply emits_emit|]. intros _.
  apply emits_bind; [by apply emits_emit|]. intros _.
  apply emits_bind; [|intros ?; apply emits_ret].
  apply emits_for_each. intros state dataset. apply loadDataset_emits.
Qed.

Lemma addToGroups_emits (groups : Groups) (item : WorkspaceItem) :
  emits work_event (addToGroups host groups item).
Proof.
  unfold addToGroups, item_get.
  apply emits_bind; [repeat emits_step|]. intros bytes.
  apply emits_bind; [by apply emits_emit|]. intros _.
  destruct (negb _); [repeat emits_step|].
  destruct (groups !! _); [|case_bool_decide]; apply emits_ret.
Qed.

Lemma extractGroups_item_emits (item : WorkspaceItem) (groups : Groups) :
  emits work_event (extractGroups_item host groups item).
Proof.
  revert item groups. fix IH 1.
  intros [title [|] buffer entries] groups; simpl.
  - apply emits_bind; [by apply emits_await|]. intros _.
    revert groups. induction entries as [|item items IHitems]; intros groups.
    + apply emits_ret.
    + apply emits_bind; [apply IH|]. intros groups'. apply IHitems.
  - apply (addToGroups_emits groups (mkItem title MimeFile buffer entries)).
Qed.

Lemma readDatasets_emits (workspace : Workspace) :
  emits work_event (readDatasets host workspace).
Proof.
  unfold readDatasets.
  apply emits_bind; [by apply emits_emit|]. intros _.
  apply emits_bind; [by apply emits_await|]. intros _.
  apply emits_bind.
  { apply emits_for_each. intros groups item. apply extractGroups_item_emits. }
  intros groups. apply emits_bind.
  { unfold decodeGeoJSONs. apply emits_for_each.
    intros [geoJSONs propNames] [name group].
    apply emits_bind; [by apply emits_await|]. intros _.
    destruct (String.eqb _ _); apply emits_ret. }
  intros [geoJSONs propNames].
  apply emits_bind; [|intros ?; apply emits_ret].
  unfold choosePossibleLayerNameProps. repeat emits_step.
Qed.

(** Session events can be looked for among the session events alone. *)
Lemma session_member (ev : Event) (w : list Event) :
  session_event ev = true →
  ev ∈ w ↔ ev ∈ List.filter session_event w.
Proof.
  intros Hev. rewrite !list_elem_of_In, List.filter_In. tauto.
Qed.

Lemma work_not_acquired (ev : Event) :
  work_event ev = true → acquired ev = false.
Proof. by destruct ev as [[] []| | | | | | | | | |]. Qed.

Lemma work_not_session_call (ev : Event) :
  work_event ev = true → session_call ev = false.
Proof. by destruct ev as [[] ?| | | | | | | | | |]. Qed.

(** The release block of [import] around any body that does the work of
    the session: the layer-update session is closed after the body, and the
    edit session after it unless the first close is rejected. *)
Lemma session_block (ed : nat) (body : M unit) (w : list Event) :
  emits work_event body →
  ∃ r evs,
    Forall (λ ev, work_event ev = true) evs
    ∧ (try_finally body (await host CEndUpdate;; await host (CEndEdit ed)) w
       = (r, w ++ evs ++ [EAwait CEndUpdate false])
       ∨ ∃ closed,
           try_finally body (await host CEndUpdate;; await host (CEndEdit ed)) w
           = (r, w ++ evs ++ [EAwait CEndUpdate true;
                              EAwait (CEndEdit ed) closed])).
Proof.
  intros Hbody. unfold try_finally.
  destruct (Hbody w) as (evs & Hw & Hall).
  destruct (body w) as [r1 w1]. simpl in Hw. subst w1.
  rewrite run_bind.
  destruct (await_cases host CEndUpdate (w ++ evs)) as [-> | ->].
  - exists (Throw (Rejected CEndUpdate)), evs. split; [done|]. left.
    by rewrite <- app_assoc.
  - destruct (await_cases host (CEndEdit ed)
                ((w ++ evs) ++ [EAwait CEndUpdate true])) as [-> | ->].
    + exists (Throw (Rejected (CEndEdit ed))), evs. split; [done|]. right.
      exists false. by rewrite <- !app_assoc.
    + exists r1, evs. split; [done|]. right.
      exists true. by rewrite <- !app_assoc.
Qed.

(** The shape of every run of [import]: either the two sessions are not
    both acquired, or they are and the history is the reading phase, the two
    acquisitions, the work of the session, the release block, and what the
    top-level handler and the final block add. *)
Lemma import_shape (workspace : Workspace) (drawing : Drawing)
    (w : list Event) :
  ∃ evs,
    (import host workspace drawing w).2 = w ++ evs
    ∧ (Forall (λ ev, acquired ev = false) evs
       ∨ ∃ ed before body after,
           Forall (λ ev, work_event ev = true) before
           ∧ Forall (λ ev, work_event ev = true) body
           ∧ Forall (λ ev, session_call ev = false) after
           ∧ (evs = before
                    ++ [EAwait CBeginUpdate true; EAwait (CBeginEdit ed) true]
                    ++ body ++ [EAwait CEndUpdate false] ++ after
              ∨ ∃ closed,
                  evs = before
                        ++ [EAwait CBeginUpdate true;
                            EAwait (CBeginEdit ed) true]
                        ++ body
                        ++ [EAwait CEndUpdate true;
                            EAwait (CEndEdit ed) closed]
                        ++ after)).
Proof.
  unfold import.
  rewrite (run_bind_ok _ _ _ _ _ (run_emit _ _)).
  rewrite (run_bind_ok _ _ _ _ _ (run_emit _ _)).
  unfold try_finally at 1. unfold try_catch.
  set (filename := default _ _).
  rewrite (run_bind_ok _ _ _ _ _ (run_emit _ _)).
  rewrite (run_bind_ok _ _ _ _ _ (run_emit _ _)).
  destruct (layouts drawing ≫= model) as [layout|].
  2:{ rewrite run_ret, run_emit. eexists. split.
      { simpl. rewrite <- !app_assoc. reflexivity. }
      left. by repeat constructor. }
  rewrite run_bind.
  match goal with
  | |- context [readDatasets host workspace ?w1] =>
      destruct (readDatasets_emits workspace w1) as (e1 & Hw1 & Hall1);
      destruct (readDatasets host workspace w1) as [[[geoJSONs names]|e] w1']
  end; simpl in Hw1; subst w1'.
  2:{ rewrite !run_emit. eexists. split.
      { simpl. rewrite <- !app_assoc. reflexivity. }
      left. repeat (apply Forall_app; split); try by repeat constructor.
      eapply Forall_impl; [exact Hall1|]. apply work_not_acquired. }
  rewrite run_bind.
  match goal with
  | |- context [await host CBeginUpdate ?w2] =>
      destruct (await_cases host CBeginUpdate w2) as [-> | ->]
  end.
  { rewrite !run_emit. eexists. split.
    { simpl. rewrite <- !app_assoc. reflexivity. }
    left. repeat (apply Forall_app; split); try by repeat constructor.
    eapply Forall_impl; [exact Hall1|]. apply work_not_acquired. }
  rewrite run_bind.
  match goal with
  | |- context [await host (CBeginEdit ?ed) ?w3] =>
      destruct (await_cases host (CBeginEdit ed) w3) as [-> | ->]
  end.
  { rewrite !run_emit. eexists. split.
    { simpl. rewrite <- !app_assoc. reflexivity. }
    left. repeat (apply Forall_app; split); try by repeat constructor.
    eapply Forall_impl; [exact Hall1|]. apply work_not_acquired. }
  match goal with
  | |- context [try_finally ?body _ ?w4] =>
      assert (emits work_event body) as Hbody
        by (apply emits_bind; [apply writeLayers_emits|intros ?; apply emits_ret]);
      destruct (session_block (editor layout) body w4 Hbody)
        as (r & evs & Hall & [Hrun | [closed Hrun]])
  end.
  - rewrite Hrun.
    eexists. split.
    { instantiate
        (1 := ([EBeginProgress; ECreateOutputChannel "SHP";
                EInfo (tr host "Импорт shape из {0}" [filename]);
                EIndeterminate true] ++ e1)
              ++ [EAwait CBeginUpdate true;
                  EAwait (CBeginEdit (editor layout)) true]
              ++ evs ++ [EAwait CEndUpdate false]
              ++ match r with
                 | Ok _ => [EEndProgress]
                 | Throw e => [EException e; EEndProgress]
                 end).
      destruct r as [[]|e]; rewrite ?run_emit; simpl;
        rewrite <- ?app_assoc; simpl; by rewrite <- ?app_assoc. }
    right.
    exists (editor layout),
      ([EBeginProgress; ECreateOutputChannel "SHP";
        EInfo (tr host "Импорт shape из {0}" [filename]);
        EIndeterminate true] ++ e1),
      evs,
      (match r with
       | Ok _ => [EEndProgress]
       | Throw e => [EException e; EEndProgress]
       end).
    split; [|split; [exact Hall|split]].
    + apply Forall_app. split; [by repeat constructor|exact Hall1].
    + destruct r; by repeat constructor.
    + left. reflexivity.
  - rewrite Hrun.
    eexists. split.
    { instantiate
        (1 := ([EBeginProgress; ECreateOutputChannel "SHP";
                EInfo (tr host "Импорт shape из {0}" [filename]);
                EIndeterminate true] ++ e1)
              ++ [EAwait CBeginUpdate true;
                  EAwait (CBeginEdit (editor layout)) true]
              ++ evs
              ++ [EAwait CEndUpdate true;
                  EAwait (CEndEdit (editor layout)) closed]
              ++ match r with
                 | Ok _ => [EEndProgress]
                 | Throw e => [EException e; EEndProgress]
                 end).
      destruct r as [[]|e]; rewrite ?run_emit; simpl;
        rewrite <- ?app_assoc; simpl; by rewrite <- ?app_assoc. }
    right.
    exists (editor layout),
      ([EBeginProgress; ECreateOutputChannel "SHP";
        EInfo (tr host "Импорт shape из {0}" [filename]);
        EIndeterminate true] ++ e1),
      evs,
      (match r with
       | Ok _ => [EEndProgress]
       | Throw e => [EException e; EEndProgress]
       end).
    split; [|split; [exact Hall|split]].
    + apply Forall_app. split; [by repeat constructor|exact Hall1].
    + destruct r; by repeat constructor.
    + right. exists closed. reflexivity.
Qed.

(** The counter over the statements of [import] that write the layers. *)
Lemma writeLayers_counter (ed : nat) (filename : string)
    (geoJSONs : gmap string GeoJSON) (layerNames : list string)
    (first last : N) (w w' : list Event) :
  writeLayers host ed filename geoJSONs layerNames first w = (Ok last, w') →
  last
  = (first + N.of_nat (fallbackCount layerNames (map_to_list geoJSONs)))%N.
Proof.
  unfold writeLayers. intros Hrun.
  apply bind_ok_inv in Hrun as (root & w1 & _ & Hrun).
  apply bind_ok_inv in Hrun as ([] & w2 & _ & Hrun).
  by apply (loadShapes_counter host) in Hrun.
Qed.

(** Once [import] has read the datasets and acquired the two sessions, it
    writes the layers with the counter at 0. *)
Lemma import_writes_from_zero (workspace : Workspace) (drawing : Drawing)
    (layout : DwgLayout) (geoJSONs : gmap string GeoJSON)
    (layerNames : list string) (w w1 : list Event) :
  layouts drawing ≫= model = Some layout →
  readDatasets host workspace
    (w ++ [EBeginProgress;
           ECreateOutputChannel "SHP";
           EInfo (tr host "Импорт shape из {0}"
                    [default (item_title (root workspace)) (origin workspace)]);
           EIndeterminate true])
  = (Ok (geoJSONs, layerNames), w1) →
  rejects host w1 CBeginUpdate = false →
  rejects host (w1 ++ [EAwait CBeginUpdate true]) (CBeginEdit (editor layout))
  = false →
  ∃ r w2 rest,
    writeLayers host (editor layout)
      (default (item_title (root workspace)) (origin workspace))
      geoJSONs layerNames 0%N
      (w1 ++ [EAwait CBeginUpdate true; EAwait (CBeginEdit (editor layout)) true])
    = (r, w2)
    ∧ import host workspace drawing w = (Ok tt, w2 ++ rest).
Proof.
  intros Hlayout Hread Hupdate Hedit. unfold import.
  rewrite (run_bind_ok _ _ _ _ _ (run_emit _ _)).
  rewrite (run_bind_ok _ _ _ _ _ (run_emit _ _)).
  unfold try_finally at 1. unfold try_catch.
  set (filename := default _ _) in *.
  rewrite (run_bind_ok _ _ _ _ _ (run_emit _ _)).
  rewrite (run_bind_ok _ _ _ _ _ (run_emit _ _)).
  rewrite Hlayout.
  replace ((((w ++ [EBeginProgress]) ++ [ECreateOutputChannel "SHP"])
              ++ [EInfo (tr host "Импорт shape из {0}" [filename])])
             ++ [EIndeterminate true])
    with (w ++ [EBeginProgress;
                ECreateOutputChannel "SHP";
                EInfo (tr host "Импорт shape из {0}" [filename]);
                EIndeterminate true])
    by (by rewrite <- !app_assoc).
  rewrite (run_bind_ok _ _ _ _ _ Hread).
  rewrite (run_bind_ok _ _ _ _ _ (run_await_resolved _ _ _ Hupdate)).
  rewrite (run_bind_ok _ _ _ _ _ (run_await_resolved _ _ _ Hedit)).
  replace ((w1 ++ [EAwait CBeginUpdate true])
             ++ [EAwait (CBeginEdit (editor layout)) true])
    with (w1 ++ [EAwait CBeginUpdate true;
                 EAwait (CBeginEdit (editor layout)) true])
    by (by rewrite <- !app_assoc).
  unfold try_finally. rewrite run_bind.
  destruct (writeLayers _ _ _ _ _ _ _) as [r w2].
  exists r, w2.
  assert (∃ r' closes,
            (await host CEndUpdate;; await host (CEndEdit (editor layout))) w2
            = (r', w2 ++ closes)) as (r' & closes & Hcloses).
  { rewrite run_bind.
    destruct (await_cases host CEndUpdate w2) as [-> | ->]; [by eexists _, _|].
    destruct (await_cases host (CEndEdit (editor layout))
                (w2 ++ [EAwait CEndUpdate true])) as [-> | ->];
      eexists _, _; by rewrite <- app_assoc. }
  destruct r as [last|e]; cbv beta iota; rewrite ?run_ret; cbv beta iota;
    rewrite Hcloses;
    destruct r' as [[]|e']; rewrite ?run_emit; eexists;
    (split; [reflexivity|]); rewrite <- ?app_assoc; reflexivity.
Qed.

(** C1, as the code has it: for a feature without an attribute called
    [name] whose candidates give no usable value, the one layer that
    [loadFeature] requests is named by the decimal numeral of the counter
    plus one, and the counter it hands back is the counter plus one; over a
    whole run of [loadShapes] the counter grows by the number of features so
    named and by nothing else, so it is never set back; and [import], once
    it has read the datasets and acquired the two sessions, writes the
    layers with the counter at 0, so that when the writing returns the
    counter is the number of features so named. *)
Theorem fallback_layer_name (ed : nat) (feature : Feature)
    (layerNames : list string) (layerIDs : N) (w : list Event) :
  properties feature !! "name" = None →
  (∀ field v, field ∈ layerNames → properties feature !! field = Some v →
              usable v = false) →
  (∃ r evs,
     loadFeature host ed feature layerNames layerIDs w = (r, w ++ evs)
     ∧ requestedNames evs = [Some (DString (pretty (layerIDs + 1)%N))]
     ∧ ∀ layer layerIDs',
         r = Ok (layer, layerIDs') → layerIDs' = (layerIDs + 1)%N)
  ∧ needsFallback layerNames feature = true
  ∧ (∀ geoJSONs root first last w0 w1,
       loadShapes host ed geoJSONs root layerNames first w0 = (Ok last, w1) →
       last = (first + N.of_nat (fallbackCount layerNames
                                   (map_to_list geoJSONs)))%N)
  ∧ ∀ workspace drawing layout geoJSONs names w0 w1,
      layouts drawing ≫= model = Some layout →
      readDatasets host workspace
        (w0 ++ [EBeginProgress;
                ECreateOutputChannel "SHP";
                EInfo (tr host "Импорт shape из {0}"
                         [default (item_title (root workspace))
                            (origin workspace)]);
                EIndeterminate true])
      = (Ok (geoJSONs, names), w1) →
      rejects host w1 CBeginUpdate = false →
      rejects host (w1 ++ [EAwait CBeginUpdate true])
              (CBeginEdit (editor layout))
      = false →
      ∃ r w2 rest,
        writeLayers host (editor layout)
          (default (item_title (root workspace)) (origin workspace))
          geoJSONs names 0%N
          (w1 ++ [EAwait CBeginUpdate true;
                  EAwait (CBeginEdit (editor layout)) true])
        = (r, w2)
        ∧ import host workspace drawing w0 = (Ok tt, w2 ++ rest)
        ∧ ∀ last,
            r = Ok last →
            last = N.of_nat (fallbackCount names (map_to_list geoJSONs)).
Proof.
  intros Hno Hunusable.
  pose proof (scanLayerNames_unusable _ _ Hunusable) as Hscan.
  assert (needsFallback layerNames feature = true) as Hneeds.
  { unfold needsFallback. by rewrite !bool_decide_eq_true_2. }
  split; [|split; [exact Hneeds|split]].
  - destruct (loadFeature_run host ed feature layerNames layerIDs w)
      as (r & evs & name & Hrun & Hnames & Hname & Hids).
    exists r, evs. split; [exact Hrun|]. split.
    + rewrite Hnames, (Hname Hno), Hscan. done.
    + intros layer ids Hr. rewrite (Hids layer ids Hr), Hneeds. done.
  - intros geoJSONs root first last w0 w1. apply loadShapes_counter.
  - intros workspace drawing layout geoJSONs names w0 w1
      Hlayout Hread Hupdate Hedit.
    destruct (import_writes_from_zero workspace drawing layout geoJSONs names
                w0 w1 Hlayout Hread Hupdate Hedit)
      as (r & w2 & rest & Hwrite & Himport).
    exists r, w2, rest. split; [exact Hwrite|]. split; [exact Himport|].
    intros last ->. apply writeLayers_counter in Hwrite. by rewrite Hwrite.
Qed.

(** C7, as the code has it: in every run in which the two sessions have
    been acquired and the call that closes the layer-update session is not
    rejected, whether the work of the session returns or throws, each of
    the two closing calls is made exactly once, the layer-update session
    first and the edit session next, and the top-level handler logs an
    exception only after both. *)
Theorem sessions_closed_in_order (workspace : Workspace) (drawing : Drawing)
    (w evs : list Event) (ed : nat) :
  (import host workspace drawing w).2 = w ++ evs →
  EAwait (CBeginEdit ed) true ∈ evs →
  EAwait CEndUpdate false ∉ evs →
  ∃ before body after closed,
    evs = before
          ++ [EAwait CBeginUpdate true; EAwait (CBeginEdit ed) true]
          ++ body
          ++ [EAwait CEndUpdate true; EAwait (CEndEdit ed) closed]
          ++ after
    ∧ Forall (λ ev, work_event ev = true) before
    ∧ Forall (λ ev, work_event ev = true) body
    ∧ Forall (λ ev, session_call ev = false) after.
Proof.
  intros Hrun Hacquired Hclose.
  destruct (import_shape workspace drawing w) as (evs' & Hrun' & Hshape).
  rewrite Hrun in Hrun'. apply app_inv_head in Hrun'. subst evs'.
  destruct Hshape
    as [Hnone | (ed' & before & body & after & Hbefore & Hbody & Hafter & Hevs)].
  { rewrite Forall_forall in Hnone. by specialize (Hnone _ Hacquired). }
  destruct Hevs as [-> | [closed ->]].
  { exfalso. apply Hclose.
    rewrite !elem_of_app. right. right. right. left. apply list_elem_of_here. }
  assert (ed' = ed) as ->.
  { rewrite Forall_forall in Hbefore, Hbody, Hafter.
    rewrite !elem_of_app, !elem_of_cons in Hacquired.
    destruct Hacquired
      as [Hin | [[Heq | [Heq | Hin]] | [Hin | [[Heq | [Heq | Hin]] | Hin]]]];
      try discriminate Heq; try by inversion Hin.
    - by specialize (Hbefore _ Hin).
    - by injection Heq.
    - by specialize (Hbody _ Hin).
    - by specialize (Hafter _ Hin). }
  by exists before, body, after, closed.
Qed.

(** C10: without a model layout, [import] announces the import, returns
    and ends the progress; it reads no file, decodes nothing, asks nothing,
    creates nothing and logs no error. *)
Theorem import_without_model_layout (workspace : Workspace)
    (drawing : Drawing) (w : list Event) :
  layouts drawing ≫= model = None →
  import host workspace drawing w
  = (Ok tt,
     w ++ [EBeginProgress;
           ECreateOutputChannel "SHP";
           EInfo (tr host "Импорт shape из {0}"
                    [default (item_title (root workspace)) (origin workspace)]);
           EIndeterminate true;
           EEndProgress]).
Proof.
  intros Hno. unfold import.
  rewrite (run_bind_ok _ _ _ _ _ (run_emit _ _)).
  rewrite (run_bind_ok _ _ _ _ _ (run_emit _ _)).
  unfold try_finally, try_catch.
  rewrite (run_bind_ok _ _ _ _ _ (run_emit _ _)).
  rewrite (run_bind_ok _ _ _ _ _ (run_emit _ _)).
  rewrite Hno, run_ret, run_emit. by rewrite <- !app_assoc.
Qed.

End OrchestratorFacts.

(** * Sample runs *)

Section SampleRuns.
#[local] Existing Instance sample_runtime.

Lemma notes_extension_unsupported :
  title_extension "notes.txt" ∉ ALLOWED_EXTENSIONS.
Proof.
  intros Hin.
  apply (bool_decide_eq_true_2
           (title_extension "notes.txt" ∈ ALLOWED_EXTENSIONS)) in Hin.
  vm_compute in Hin. discriminate Hin.
Qed.

(** C3 as stated fails: after [true] has been scanned for the field [flag],
    the catalogue has no entry of boolean kind for it. *)
Lemma boolean_counterexample :
  example (addPropName ∅ "flag" (PBoolean true)) "flag" TBoolean = None
  ∧ example (addPropName ∅ "flag" (PBoolean true)) "flag" TBoolean
    ≠ Some (PBoolean true).
Proof. split; [vm_compute; reflexivity|vm_compute; discriminate]. Qed.

(** C1 as stated fails on the second scenario of the specification: the lot
    has the attributes [name] and [area], no field is approved, and yet the
    layer is not named ["1"] and the counter stays at 0; the layer carries
    the typed property made from the attribute [name]. *)
Lemma fallback_name_counterexample :
  ∃ layer w',
    loadFeature quiet_host 5 sample_lot [] 0 [] = (Ok (layer, 0%N), w')
    ∧ requestedNames w' = [Some (DTyped (PString "Lot 1") (Some "string"))]
    ∧ requestedNames w' ≠ [Some (DString (pretty 1%N))].
Proof.
  eexists _, _. split; [vm_compute; reflexivity|].
  split; [vm_compute; reflexivity|vm_compute; discriminate].
Qed.


(** C5 as stated fails: after the mapping of a line string of three
    two-dimensional points, the geometry object holds three-dimensional
    points. *)
Lemma mapping_counterexample :
  ∃ w',
    featureGeometry quiet_host 5 0 sample_path []
    = (Ok (LineString
             [Vec3 (num_of_Z 0) (num_of_Z 0) num_zero;
              Vec3 (num_of_Z 1) (num_of_Z 0) num_zero;
              Vec3 (num_of_Z 1) (num_of_Z 1) num_zero] []), w')
    ∧ LineString
        [Vec3 (num_of_Z 0) (num_of_Z 0) num_zero;
         Vec3 (num_of_Z 1) (num_of_Z 0) num_zero;
         Vec3 (num_of_Z 1) (num_of_Z 1) num_zero] []
      ≠ sample_path.
Proof.
  eexists. split; [vm_compute; reflexivity|]. vm_compute. discriminate.
Qed.

(** C7 as stated fails: when the host rejects the call that closes the
    layer-update session, the exception reaches the top-level handler and
    the call that closes the edit session has not been made. *)
Lemma close_rejected_counterexample :
  List.filter session_event
    (import (rejecting_host is_end_update) sample_workspace sample_drawing []).2
  = [EAwait CBeginUpdate true;
     EAwait (CBeginEdit 5) true;
     EAwait CEndUpdate false;
     EException (Rejected CEndUpdate)].
Proof. vm_compute. reflexivity. Qed.

(** C8 as stated fails: when the host cannot deliver the buffer of a file of
    unrecognised extension, no message names the extension and the files
    that follow are not grouped. *)
Lemma unreadable_file_counterexample :
  (title_extension "notes.txt" ∉ ALLOWED_EXTENSIONS)
  ∧ extractGroups (rejecting_host (is_get "notes.txt")) ∅
      [file "notes.txt" []; file "parcels.shp" []] []
    = (Throw (Rejected (CGet "notes.txt")),
       [EAwait (CGet "notes.txt") false]).
Proof.
  split; [apply notes_extension_unsupported|]. vm_compute. reflexivity.
Qed.

(** C9 as stated fails: the buffer of a file that is rejected for its
    extension has been retrieved from the host. *)
Lemma rejected_file_fetched_counterexample :
  (title_extension "notes.txt" ∉ ALLOWED_EXTENSIONS)
  ∧ addToGroups quiet_host ∅ (file "notes.txt" []) []
    = (Ok ∅,
       [EAwait (CGet "notes.txt") true;
        EDetails "notes.txt";
        EError "Unsupported extension {0}" (ArgString "txt")]).
Proof.
  split; [apply notes_extension_unsupported|]. vm_compute. reflexivity.
Qed.

(** The road has no attribute called [name]; its fields [label] and [lanes]
    hold an empty text and NaN: from the counter 0, its layer is named
    ["1"].  When the user approves no field, the import of the sample
    workspace, in which the road is the one feature so named, writes the
    layers from the counter 0 and leaves it at 1. *)
Lemma fallback_layer_name_witness :
  properties sample_road !! "name" = None
  ∧ (∃ r evs,
       loadFeature undecided_host 5 sample_road ["label"; "lanes"] 0 []
       = (r, [] ++ evs)
       ∧ requestedNames evs = [Some (DString "1")])
  ∧ fallbackCount [] (map_to_list sample_datasets) = 1
  ∧ ∃ r w1 w2 rest,
      writeLayers undecided_host (editor (mkLayout 5))
        (default (item_title (root sample_workspace))
           (origin sample_workspace))
        sample_datasets [] 0%N
        (w1 ++ [EAwait CBeginUpdate true;
                EAwait (CBeginEdit (editor (mkLayout 5))) true])
      = (r, w2)
      ∧ import undecided_host sample_workspace sample_drawing []
        = (Ok tt, w2 ++ rest)
      ∧ ∀ last,
          r = Ok last →
          last = N.of_nat (fallbackCount [] (map_to_list sample_datasets)).
Proof.
  split; [vm_compute; reflexivity|].
  destruct (fallback_layer_name undecided_host 5 sample_road
              ["label"; "lanes"] 0%N [])
    as ((r & evs & Hrun & Hnames & _) & _ & _ & Himport).
  - vm_compute. reflexivity.
  - intros field v Hin Hv.
    apply elem_of_cons in Hin as [-> | Hin].
    { vm_compute in Hv. injection Hv as <-. reflexivity. }
    apply elem_of_cons in Hin as [-> | Hin].
    { vm_compute in Hv. injection Hv as <-. reflexivity. }
    by apply elem_of_nil in Hin.
  - split; [exists r, evs; split; [exact Hrun|exact Hnames]|].
    split; [vm_compute; reflexivity|].
    set (w1 := (readDatasets undecided_host sample_workspace
                  ([] ++ [EBeginProgress;
                          ECreateOutputChannel "SHP";
                          EInfo (tr undecided_host "Импорт shape из {0}"
                                   [default (item_title (root sample_workspace))
                                      (origin sample_workspace)]);
                          EIndeterminate true])).2).
    destruct (Himport sample_workspace sample_drawing (mkLayout 5)
                sample_datasets [] [] w1)
      as (r' & w2 & rest & Hwrite & Hrun' & Hlast).
    + reflexivity.
    + vm_compute. reflexivity.
    + reflexivity.
    + reflexivity.
    + exists r', w1, w2, rest.
      split; [exact Hwrite|]. split; [exact Hrun'|exact Hlast].
Defined.


(** A file [notes.txt] that the host delivers is reported and the grouping
    goes on with [parcels.shp]. *)
Lemma unsupported_file_skipped_witness :
  extractGroups quiet_host ∅ [file "notes.txt" []; file "parcels.shp" []] []
  = extractGroups quiet_host ∅ [file "parcels.shp" []]
      ([] ++ [EAwait (CGet "notes.txt") true;
              EDetails "notes.txt";
              EError "Unsupported extension {0}"
                     (ArgString (title_extension "notes.txt"))]).
Proof.
  apply (unsupported_file_skipped quiet_host ∅ "notes.txt" []
           [file "parcels.shp" []] []).
  - apply notes_extension_unsupported.
  - reflexivity.
Defined.

(** A drawing without layouts. *)
Lemma import_without_model_layout_witness :
  import quiet_host sample_workspace (mkDrawing None) []
  = (Ok tt,
     [] ++ [EBeginProgress;
            ECreateOutputChannel "SHP";
            EInfo (tr quiet_host "Импорт shape из {0}"
                     [default (item_title (root sample_workspace))
                        (origin sample_workspace)]);
            EIndeterminate true;
            EEndProgress]).
Proof.
  apply (import_without_model_layout quiet_host sample_workspace
           (mkDrawing None) []).
  reflexivity.
Defined.

(** The import of the sample workspace by a host that rejects every
    attachment of a layer: the work of the session throws at the first one,
    that of the layer of the dataset; both sessions are closed, in order,
    and the top-level handler logs the exception after them.  And the
    import by a host that rejects nothing: the sessions are acquired and
    both are closed, in order, and nothing is logged. *)
Lemma sessions_closed_in_order_witness :
  List.filter session_event
    (import (rejecting_host is_setx) sample_workspace sample_drawing []).2
  = [EAwait CBeginUpdate true; EAwait (CBeginEdit 5) true;
     EAwait CEndUpdate true; EAwait (CEndEdit 5) true;
     EException (Rejected (CSetx 22 "$layer" 17))]
  ∧ (∃ before body after closed,
       (import (rejecting_host is_setx) sample_workspace sample_drawing []).2
       = before
         ++ [EAwait CBeginUpdate true; EAwait (CBeginEdit 5) true]
         ++ body
         ++ [EAwait CEndUpdate true; EAwait (CEndEdit 5) closed]
         ++ after
       ∧ Forall (λ ev, work_event ev = true) before
       ∧ Forall (λ ev, work_event ev = true) body
       ∧ Forall (λ ev, session_call ev = false) after)
  ∧ List.filter session_event
      (import survey_host sample_workspace sample_drawing []).2
    = [EAwait CBeginUpdate true; EAwait (CBeginEdit 5) true;
       EAwait CEndUpdate true; EAwait (CEndEdit 5) true]
  ∧ ∃ before body after closed,
      (import survey_host sample_workspace sample_drawing []).2
      = before
        ++ [EAwait CBeginUpdate true; EAwait (CBeginEdit 5) true]
        ++ body
        ++ [EAwait CEndUpdate true; EAwait (CEndEdit 5) closed]
        ++ after
      ∧ Forall (λ ev, work_event ev = true) before
      ∧ Forall (λ ev, work_event ev = true) body
      ∧ Forall (λ ev, session_call ev = false) after.
Proof.
  split; [vm_compute; reflexivity|]. split.
  { apply (sessions_closed_in_order (rejecting_host is_setx) sample_workspace
             sample_drawing []
             (import (rejecting_host is_setx) sample_workspace
                sample_drawing []).2 5).
    - reflexivity.
    - apply session_member; [reflexivity|]. vm_compute.
      repeat first [apply list_elem_of_here | apply list_elem_of_further].
    - intros Hin. apply session_member in Hin; [|reflexivity].
      vm_compute in Hin.
      repeat (apply elem_of_cons in Hin as [Heq | Hin]; [discriminate Heq|]).
      by apply elem_of_nil in Hin. }
  split; [vm_compute; reflexivity|].
  apply (sessions_closed_in_order survey_host sample_workspace sample_drawing
           [] (import survey_host sample_workspace sample_drawing []).2 5).
  - reflexivity.
  - apply session_member; [reflexivity|]. vm_compute.
    repeat first [apply list_elem_of_here | apply list_elem_of_further].
  - intros Hin. apply session_member in Hin; [|reflexivity].
    vm_compute in Hin.
    repeat (apply elem_of_cons in Hin as [Heq | Hin]; [discriminate Heq|]).
    by apply elem_of_nil in Hin.
Defined.

End SampleRuns.

(** * Properties beyond the specification *)

(** ** Measures of a history *)

Section TracksRules.
Context {X : Type} (μ : Event → list X) (host : Host).

Lemma measure_app (w1 w2 : list Event) :
  measure μ (w1 ++ w2) = measure μ w1 ++ measure μ w2.
Proof. unfold measure. by rewrite fmap_app, concat_app. Qed.

Lemma tracks_ret {A} (a : A) (Q : A → Prop) :
  Q a → tracks μ host (mret a) [] Q.
Proof.
  intros HQ w. exists (Ok a), []. rewrite app_nil_r.
  split; [done|]. split; [done|]. split.
  - by intros a' [= <-].
  - intros _. by exists a.
Qed.

Lemma tracks_emit (ev : Event) :
  μ ev = [] → tracks μ host (emit ev) [] (λ _, True).
Proof.
  intros Hev w. exists (Ok tt), [ev].
  assert (measure μ [ev] = []) as ->.
  { unfold measure. simpl. by rewrite Hev. }
  split; [done|]. split; [done|]. split; [done|]. intros _. by eexists.
Qed.

Lemma tracks_await (c : Call) :
  μ (EAwait c false) = μ (EAwait c true) →
  tracks μ host (await host c) (μ (EAwait c true)) (λ _, True).
Proof.
  intros Hc w. unfold await. destruct (rejects host w c) eqn:Hr.
  - exists (Throw (Rejected c)), [EAwait c false].
    split; [done|]. split.
    { unfold measure. simpl. by rewrite app_nil_r, Hc. }
    split; [done|]. intros Hq. by rewrite Hq in Hr.
  - exists (Ok tt), [EAwait c true].
    assert (measure μ [EAwait c true] = μ (EAwait c true)) as ->.
    { unfold measure. simpl. by rewrite app_nil_r. }
    split; [done|]. split; [done|]. split; [done|]. intros _. by eexists.
Qed.

Lemma tracks_bind {A B} (m : M A) (k : A → M B) (L1 L2 : list X)
    (Q1 : A → Prop) (Q2 : B → Prop) :
  tracks μ host m L1 Q1 →
  (∀ a, Q1 a → tracks μ host (k a) L2 Q2) →
  tracks μ host (m ≫= k) (L1 ++ L2) Q2.
Proof.
  intros Hm Hk w. rewrite run_bind.
  destruct (Hm w) as (r1 & evs1 & Hrun1 & Hpre1 & Hok1 & Hq1).
  rewrite Hrun1. destruct r1 as [a|e].
  - destruct (Hok1 a eq_refl) as [HQ1 Hall1].
    destruct (Hk a HQ1 (w ++ evs1)) as (r2 & evs2 & Hrun2 & Hpre2 & Hok2 & Hq2).
    exists r2, (evs1 ++ evs2). rewrite app_assoc, measure_app, Hall1.
    split; [done|]. split; [by apply prefix_app|]. split.
    + intros b Hb. destruct (Hok2 b Hb) as [HQ2 Hall2]. by rewrite Hall2.
    + exact Hq2.
  - exists (Throw e), evs1. split; [done|].
    split; [by apply prefix_app_r|]. split; [done|].
    intros Hq. destruct (Hq1 Hq) as [a Ha]. done.
Qed.

Lemma tracks_eq {A} (m : M A) (L L' : list X) (Q Q' : A → Prop) :
  tracks μ host m L Q → L = L' → (∀ a, Q a → Q' a) → tracks μ host m L' Q'.
Proof.
  intros Hm <- HQ w. destruct (Hm w) as (r & evs & Hrun & Hpre & Hok & Hq).
  exists r, evs. split; [done|]. split; [done|]. split; [|done].
  intros a Ha. destruct (Hok a Ha). auto.
Qed.

Lemma tracks_then {A B} (m : M A) (k : A → M B) (L : list X)
    (Q1 : A → Prop) (Q2 : B → Prop) :
  tracks μ host m L Q1 →
  (∀ a, Q1 a → tracks μ host (k a) [] Q2) →
  tracks μ host (m ≫= k) L Q2.
Proof.
  intros Hm Hk.
  apply (tracks_eq _ (L ++ []) L Q2 Q2);
    [by apply (tracks_bind m k L [] Q1 Q2)|apply app_nil_r|done].
Qed.

Lemma tracks_after {A B} (m : M A) (k : A → M B) (L : list X)
    (Q1 : A → Prop) (Q2 : B → Prop) :
  tracks μ host m [] Q1 →
  (∀ a, Q1 a → tracks μ host (k a) L Q2) →
  tracks μ host (m ≫= k) L Q2.
Proof. intros Hm Hk. by apply (tracks_bind m k [] L Q1 Q2). Qed.

End TracksRules.

(** ** Dataset grouper *)

Section GrouperExtras.
Context (host : Host).

Lemma storedBuffer_insert (groups : Groups) (name extension : string)
    (group : gmap string (list Byte.byte)) (bytes : list Byte.byte)
    (name' extension' : string) :
  storedBuffer (<[name := <[extension := bytes]> group]> groups)
               name' extension'
  = if decide (name' = name)
    then if decide (extension' = extension) then Some bytes
         else group !! extension'
    else storedBuffer groups name' extension'.
Proof.
  unfold storedBuffer. destruct (decide (name' = name)) as [->|Hne].
  - rewrite lookup_insert_eq. simpl.
    destruct (decide (extension' = extension)) as [->|Hne].
    + apply lookup_insert_eq.
    + by apply lookup_insert_ne.
  - by rewrite lookup_insert_ne.
Qed.

(** X1: a file of recognised extension whose buffer the host delivers, and
    whose base name is not one under which objects inherit a member, is
    stored under its extension in the dataset of its base name, whatever was
    stored there before; every other buffer of every dataset stays as it
    was; nothing is logged. *)
Theorem addToGroups_stores (groups : Groups) (item : WorkspaceItem)
    (w : list Event) :
  title_extension (item_title item) ∈ ALLOWED_EXTENSIONS →
  title_name (item_title item) ∉ Object_prototype →
  rejects host w (CGet (item_title item)) = false →
  ∃ groups',
    addToGroups host groups item w
    = (Ok groups',
       w ++ [EAwait (CGet (item_title item)) true; EDetails (item_title item)])
    ∧ storedBuffer groups' (title_name (item_title item))
                   (title_extension (item_title item))
      = Some (item_buffer item)
    ∧ ∀ name extension,
        (name, extension)
        ≠ (title_name (item_title item), title_extension (item_title item)) →
        storedBuffer groups' name extension = storedBuffer groups name extension.
Proof.
  intros Hext Hname Hget. unfold addToGroups, item_get.
  rewrite !run_bind, (run_await_resolved _ _ _ Hget). simpl.
  rewrite bool_decide_eq_true_2 by done. simpl.
  rewrite !run_bind, run_emit. rewrite <- app_assoc. simpl.
  destruct (groups !! title_name (item_title item)) as [group|] eqn:Hgroup;
    [|rewrite (bool_decide_eq_false_2 _ Hname)];
    eexists; (split; [reflexivity|]).
  - split.
    + rewrite storedBuffer_insert. by rewrite !decide_True.
    + intros name extension Hne. rewrite storedBuffer_insert.
      destruct (decide (name = _)) as [->|]; [|done].
      destruct (decide (extension = _)) as [->|]; [done|].
      unfold storedBuffer. by rewrite Hgroup.
  - rewrite <- insert_empty. split.
    + rewrite storedBuffer_insert. by rewrite !decide_True.
    + intros name extension Hne. rewrite storedBuffer_insert.
      destruct (decide (name = _)) as [->|]; [|done].
      destruct (decide (extension = _)) as [->|]; [done|].
      unfold storedBuffer. by rewrite Hgroup, lookup_empty.
Qed.

(** X19: a file of recognised extension whose base name is one under which
    objects inherit a function, such as [toString.shp], and for which the
    grouping has no dataset, is fetched and then lost: the grouping is
    returned as it was, and no message is logged. *)
Theorem addToGroups_inherited_name (groups : Groups) (item : WorkspaceItem)
    (w : list Event) :
  title_extension (item_title item) ∈ ALLOWED_EXTENSIONS →
  title_name (item_title item) ∈ Object_prototype →
  title_name (item_title item) ≠ "__proto__" →
  groups !! title_name (item_title item) = None →
  rejects host w (CGet (item_title item)) = false →
  addToGroups host groups item w
  = (Ok groups,
     w ++ [EAwait (CGet (item_title item)) true; EDetails (item_title item)]).
Proof.
  intros Hext Hname _ Hgroup Hget. unfold addToGroups, item_get.
  rewrite !run_bind, (run_await_resolved _ _ _ Hget). simpl.
  rewrite bool_decide_eq_true_2 by done. simpl.
  rewrite !run_bind, run_emit. rewrite <- app_assoc. simpl.
  by rewrite Hgroup, (bool_decide_eq_true_2 _ Hname).
Qed.

Lemma addToGroups_wellGrouped (groups groups' : Groups)
    (item : WorkspaceItem) (w w' : list Event) :
  wellGrouped groups →
  addToGroups host groups item w = (Ok groups', w') →
  wellGrouped groups'.
Proof.
  intros Hwell. unfold addToGroups.
  intros Hrun. apply bind_ok_inv in Hrun as (bytes & w1 & _ & Hrun).
  apply bind_ok_inv in Hrun as ([] & w2 & _ & Hrun).
  destruct (bool_decide _) eqn:Hext; simpl in Hrun.
  - apply bool_decide_eq_true_1 in Hext.
    assert (∀ group : gmap string (list Byte.byte),
              (group = ∅ ∨ groups !! title_name (item_title item) = Some group) →
              wellGrouped (<[title_name (item_title item) :=
                               <[title_extension (item_title item) := bytes]>
                                 group]> groups)) as Hins.
    { intros group Hgroup name group' Hlook.
      destruct (decide (name = title_name (item_title item))) as [->|Hne].
      - rewrite lookup_insert_eq in Hlook. injection Hlook as <-. split.
        + apply insert_non_empty.
        + intros extension [b Hb].
          destruct (decide (extension = title_extension (item_title item)))
            as [->|Hne]; [done|].
          rewrite lookup_insert_ne in Hb by done.
          destruct Hgroup as [-> | Hgroup]; [by rewrite lookup_empty in Hb|].
          by apply (Hwell _ _ Hgroup).
      - rewrite lookup_insert_ne in Hlook by done. by apply (Hwell name). }
    destruct (groups !! title_name (item_title item)) as [group|] eqn:Hgroup;
      [|case_bool_decide]; injection Hrun as <- _.
    + apply Hins. by right.
    + exact Hwell.
    + rewrite <- insert_empty. apply Hins. by left.
  - apply bind_ok_inv in Hrun as ([] & w3 & _ & [= <- _]). exact Hwell.
Qed.

Lemma extractGroups_item_wellGrouped (item : WorkspaceItem)
    (groups groups' : Groups) (w w' : list Event) :
  wellGrouped groups →
  extractGroups_item host groups item w = (Ok groups', w') →
  wellGrouped groups'.
Proof.
  revert item groups groups' w w'. fix IH 1.
  intros [title [|] buffer entries] groups groups' w w' Hwell; simpl.
  - intros Hrun. apply bind_ok_inv in Hrun as ([] & w1 & _ & Hrun).
    revert groups w1 Hwell Hrun.
    induction entries as [|item items IHitems]; intros groups w1 Hwell Hrun.
    + by injection Hrun as <- _.
    + apply bind_ok_inv in Hrun as (groups1 & w2 & Hitem & Hrun).
      apply (IHitems groups1 w2); [|exact Hrun].
      by apply (IH item groups groups1 w1 w2).
  - apply addToGroups_wellGrouped. exact Hwell.
Qed.

(** X2: when the grouping of a list of items returns, every dataset holds
    at least one buffer and only buffers whose role is one of the ten
    recognised extensions, provided this was so before; it is so for the
    empty grouping that [import] starts from. *)
Theorem extractGroups_wellGrouped (items : list WorkspaceItem)
    (groups groups' : Groups) (w w' : list Event) :
  wellGrouped groups →
  extractGroups host groups items w = (Ok groups', w') →
  wellGrouped groups'.
Proof.
  unfold extractGroups. revert groups w.
  induction items as [|item items IH]; intros groups w Hwell; simpl.
  - by intros [= <- _].
  - intros Hrun. apply bind_ok_inv in Hrun as (groups1 & w1 & Hitem & Hrun).
    apply (IH groups1 w1); [|exact Hrun].
    by apply (extractGroups_item_wellGrouped item groups groups1 w w1).
Qed.

Lemma addToGroups_tracks (groups : Groups) (item : WorkspaceItem) :
  tracks fetchedTitle host (addToGroups host groups item)
    [item_title item] (λ _, True).
Proof.
  unfold addToGroups, item_get.
  apply (tracks_then _ _ _ _ _ (λ _, True)).
  - apply (tracks_then _ _ _ _ _ (λ _, True));
      [by apply (tracks_await fetchedTitle host (CGet _))|].
    intros [] _. by apply tracks_ret.
  - intros bytes _.
    apply (tracks_after _ _ _ _ _ (λ _, True)); [by apply tracks_emit|].
    intros [] _. destruct (negb _).
    + apply (tracks_after _ _ _ _ _ (λ _, True)); [by apply tracks_emit|].
      intros [] _. by apply tracks_ret.
    + destruct (groups !! _); [|case_bool_decide]; by apply tracks_ret.
Qed.

Lemma extractGroups_item_tracks (item : WorkspaceItem) (groups : Groups) :
  tracks fetchedTitle host (extractGroups_item host groups item)
    (fileTitles_item item) (λ _, True).
Proof.
  revert item groups. fix IH 1.
  intros [title [|] buffer entries] groups; simpl.
  - apply (tracks_after _ _ _ _ _ (λ _, True));
      [by apply (tracks_await fetchedTitle host (CPropfind _))|].
    intros [] _. revert groups.
    induction entries as [|item items IHitems]; intros groups.
    + by apply tracks_ret.
    + apply (tracks_bind _ _ _ _ _ _ (λ _, True)); [apply IH|].
      intros groups' _. apply IHitems.
  - apply (addToGroups_tracks groups (mkItem title MimeFile buffer entries)).
Qed.

(** X3: the grouping asks the host for the buffers of the files of the tree
    in the order of the descent, each file once and no folder: all of them
    when it returns, which it does when the host rejects nothing, and the
    first of them up to the rejected call otherwise. *)
Theorem extractGroups_fetches_files (groups : Groups)
    (items : list WorkspaceItem) (w : list Event) :
  ∃ r evs,
    extractGroups host groups items w = (r, w ++ evs)
    ∧ measure fetchedTitle evs `prefix_of` fileTitles items
    ∧ (∀ groups', r = Ok groups' → measure fetchedTitle evs = fileTitles items)
    ∧ ((∀ w' c, rejects host w' c = false) → ∃ groups', r = Ok groups').
Proof.
  assert (tracks fetchedTitle host (extractGroups host groups items)
            (fileTitles items) (λ _, True)) as Htracks.
  { unfold extractGroups, fileTitles. revert groups.
    induction items as [|item items IH]; intros groups; simpl.
    - by apply tracks_ret.
    - apply (tracks_bind _ _ _ _ _ _ (λ _, True));
        [apply extractGroups_item_tracks|].
      intros groups' _. apply IH. }
  destruct (Htracks w) as (r & evs & Hrun & Hpre & Hok & Hquiet).
  exists r, evs. split; [exact Hrun|]. split; [exact Hpre|]. split.
  - intros groups' Hr. by destruct (Hok groups' Hr).
  - exact Hquiet.
Qed.

End GrouperExtras.

Section TitleFacts.

Lemma substring_append (s : string) (a n m : nat) :
  substring a (n + m) s = substring a n s +:+ substring (a + n) m s.
Proof.
  revert a n. induction s as [|c s IH]; intros a n.
  - destruct a, n, m; reflexivity.
  - destruct a as [|a]; simpl.
    + destruct n as [|n]; simpl; [done|]. by rewrite (IH 0 n).
    + apply IH.
Qed.

Lemma substring_whole (s : string) : substring 0 (String.length s) s = s.
Proof. induction s as [|c s IH]; simpl; [done|]. by rewrite IH. Qed.

Lemma substring_length (s : string) (a n : nat) :
  a + n ≤ String.length s → String.length (substring a n s) = n.
Proof.
  revert a n. induction s as [|c s IH]; intros a n Hlen; simpl in Hlen.
  - assert (a = 0 ∧ n = 0) as [-> ->] by lia. done.
  - destruct a as [|a]; simpl.
    + destruct n as [|n]; simpl; [done|]. rewrite (IH 0 n); [done|lia].
    + apply IH. lia.
Qed.

Lemma substring_short (s : string) (n : nat) :
  String.length s ≤ n → substring 0 n s = s.
Proof.
  revert n. induction s as [|c s IH]; intros n Hlen; simpl in *.
  - by destruct n.
  - destruct n as [|n]; [lia|]. rewrite IH; [done|lia].
Qed.

(** X4: a title of four characters or more is its base name, one character
    that is not examined (the dot of a usual file name), and its extension
    of exactly three characters. *)
Theorem title_split (title : string) :
  4 ≤ String.length title →
  title = title_name title
          +:+ substring (String.length title - 4) 1 title
          +:+ title_extension title
  ∧ String.length (title_name title) = String.length title - 4
  ∧ String.length (title_extension title) = 3.
Proof.
  intros Hlen. unfold title_name, title_extension. split; [|split].
  - rewrite <- (substring_whole title) at 1.
    replace (String.length title) with ((String.length title - 4) + (1 + 3))
      at 1 by lia.
    rewrite (substring_append title 0 (String.length title - 4) (1 + 3)).
    rewrite (substring_append title (0 + (String.length title - 4)) 1 3).
    replace (0 + (String.length title - 4) + 1) with (String.length title - 3)
      by lia.
    reflexivity.
  - apply substring_length. lia.
  - apply substring_length. lia.
Qed.

(** X5: a title of at most three characters has the empty base name, and
    the whole title is its extension. *)
Theorem title_short (title : string) :
  String.length title ≤ 3 →
  title_name title = EmptyString ∧ title_extension title = title.
Proof.
  intros Hlen. unfold title_name, title_extension.
  replace (String.length title - 4) with 0 by lia.
  replace (String.length title - 3) with 0 by lia.
  split; [by destruct title|]. by apply substring_short.
Qed.

End TitleFacts.

(** ** Feature decoder *)

Section DecoderExtras.
Context `{Runtime} (host : Host).

Lemma classify_wellFormed (v : PropertyValue) (t : PropertyType)
    (ex : PropertyValue) :
  classify v = Some (t, ex) →
  match t with
  | TNumber => ∃ x, ex = PNumber x ∧ isFinite x = true
  | TString => ∃ s, ex = PString (dquote +:+ s +:+ dquote) ∧ s ≠ EmptyString
  | TDate =>
      ∃ d, ex = PString (Date_toLocaleString d) ∧ isNaN (valueOf d) = false
  | TBoolean => False
  end.
Proof.
  destruct v as [x|s|b|d|]; simpl; try done.
  - destruct (isFinite x) eqn:Hx; [|done]. intros [= <- <-]. by exists x.
  - destruct (String.length s =? 0)%nat eqn:Hs; [done|]. intros [= <- <-].
    exists s. split; [done|]. intros ->. done.
  - destruct (isNaN (valueOf d)) eqn:Hd; [done|]. intros [= <- <-]. by exists d.
Qed.

Lemma addPropName_wellCatalogued (cat : Catalogue) (f : string)
    (v : PropertyValue) :
  wellCatalogued cat → wellCatalogued (addPropName cat f v).
Proof.
  intros Hwell. unfold addPropName.
  destruct (classify v) as [[t ex]|] eqn:Hc; [|exact Hwell].
  apply classify_wellFormed in Hc.
  assert (∀ examples : gmap PropertyType PropertyValue,
            (examples = ∅ ∨ cat !! f = Some examples) →
            wellCatalogued (<[f := <[t := ex]> examples]> cat)) as Hins.
  { intros examples Hex g examples' Hlook.
    destruct (decide (g = f)) as [->|Hne].
    - rewrite lookup_insert_eq in Hlook. injection Hlook as <-. split.
      + apply insert_non_empty.
      + intros t' ex' Hex'. destruct (decide (t' = t)) as [->|Hne].
        * rewrite lookup_insert_eq in Hex'. by injection Hex' as <-.
        * rewrite lookup_insert_ne in Hex' by done.
          destruct Hex as [-> | Hex]; [by rewrite lookup_empty in Hex'|].
          by apply (Hwell f examples Hex).
    - rewrite lookup_insert_ne in Hlook by done. by apply (Hwell g). }
  destruct (cat !! f) as [examples|] eqn:Hf.
  - apply Hins. by right.
  - case_bool_decide; [exact Hwell|].
    rewrite <- insert_empty. apply Hins. by left.
Qed.

Lemma scanFeature_wellCatalogued (cat : Catalogue) (feature : Feature) :
  wellCatalogued cat → wellCatalogued (scanFeature cat feature).
Proof.
  unfold scanFeature. destruct (String.eqb _ _); [|done].
  generalize (map_to_list (properties feature)). intros l. revert cat.
  induction l as [|[f v] l IH]; intros cat Hwell; simpl; [done|].
  apply IH. by apply addPropName_wellCatalogued.
Qed.

Lemma scanFeatures_wellCatalogued (cat : Catalogue) (l : list Feature) :
  wellCatalogued cat → wellCatalogued (foldl scanFeature cat l).
Proof.
  revert cat. induction l as [|feature l IH]; intros cat Hwell; simpl; [done|].
  apply IH. by apply scanFeature_wellCatalogued.
Qed.

(** The catalogue never gets an entry under a name that it inherits. *)
Lemma addPropName_own_names (cat : Catalogue) (f : string)
    (v : PropertyValue) :
  (∀ g, g ∈ Object_prototype → cat !! g = None) →
  ∀ g, g ∈ Object_prototype → addPropName cat f v !! g = None.
Proof.
  intros Hown g Hg. unfold addPropName.
  destruct (classify v) as [[t ex]|]; [|by apply Hown].
  destruct (cat !! f) as [examples|] eqn:Hf.
  - rewrite lookup_insert_ne; [by apply Hown|].
    intros <-. by rewrite (Hown f Hg) in Hf.
  - case_bool_decide as Hin; [by apply Hown|].
    rewrite lookup_insert_ne; [by apply Hown|]. by intros <-.
Qed.

Lemma scanFeature_own_names (cat : Catalogue) (feature : Feature) :
  (∀ g, g ∈ Object_prototype → cat !! g = None) →
  ∀ g, g ∈ Object_prototype → scanFeature cat feature !! g = None.
Proof.
  unfold scanFeature. destruct (String.eqb _ _); [|done].
  generalize (map_to_list (properties feature)). intros l. revert cat.
  induction l as [|[f v] l IH]; intros cat Hown; simpl; [done|].
  apply IH. by apply addPropName_own_names.
Qed.

Lemma scanFeatures_own_names (cat : Catalogue) (l : list Feature) :
  (∀ g, g ∈ Object_prototype → cat !! g = None) →
  ∀ g, g ∈ Object_prototype → foldl scanFeature cat l !! g = None.
Proof.
  revert cat. induction l as [|feature l IH]; intros cat Hown; simpl; [done|].
  apply IH. by apply scanFeature_own_names.
Qed.

(** Entries of the catalogue are never removed. *)
Lemma addPropName_keeps (cat : Catalogue) (f g : string) (v : PropertyValue)
    (t : PropertyType) :
  is_Some (example cat f t) → is_Some (example (addPropName cat g v) f t).
Proof.
  intros Hsome. unfold addPropName.
  destruct (classify v) as [[t' ex]|]; [|done].
  destruct (decide (f = g)) as [->|Hne].
  - unfold example in *. destruct (cat !! g) as [examples|]; [|by destruct Hsome].
    rewrite lookup_insert_eq. simpl in *.
    destruct (decide (t = t')) as [->|Hne].
    + rewrite lookup_insert_eq. by eexists.
    + by rewrite lookup_insert_ne.
  - unfold example in *.
    destruct (cat !! g); [|case_bool_decide; [done|]];
      by rewrite lookup_insert_ne.
Qed.

Lemma scanFeature_keeps (cat : Catalogue) (feature : Feature) (f : string)
    (t : PropertyType) :
  is_Some (example cat f t) → is_Some (example (scanFeature cat feature) f t).
Proof.
  unfold scanFeature. destruct (String.eqb _ _); [|done].
  generalize (map_to_list (properties feature)). intros l. revert cat.
  induction l as [|[g v] l IH]; intros cat Hsome; simpl; [done|].
  apply IH. by apply addPropName_keeps.
Qed.

Lemma scanFeatures_keeps (cat : Catalogue) (l : list Feature) (f : string)
    (t : PropertyType) :
  is_Some (example cat f t) → is_Some (example (foldl scanFeature cat l) f t).
Proof.
  revert cat. induction l as [|feature l IH]; intros cat Hsome; simpl; [done|].
  apply IH. by apply scanFeature_keeps.
Qed.

Lemma scanFeature_records (cat : Catalogue) (feature : Feature) (f : string)
    (v : PropertyValue) (t : PropertyType) (ex : PropertyValue) :
  f ∉ Object_prototype →
  feature_type feature = "Feature" →
  properties feature !! f = Some v →
  classify v = Some (t, ex) →
  is_Some (example (scanFeature cat feature) f t).
Proof.
  intros Hf Htype Hv Hc. unfold scanFeature. rewrite Htype. simpl.
  apply elem_of_map_to_list in Hv. revert Hv.
  generalize (map_to_list (properties feature)). intros l. revert cat.
  induction l as [|[g u] l IH]; intros cat Hin; [by apply elem_of_nil in Hin|].
  simpl. apply elem_of_cons in Hin as [[= <- <-] | Hin].
  - clear IH.
    assert (is_Some (example (addPropName cat f v) f t)) as Hsome.
    { rewrite (addPropName_classified cat f v t ex Hf Hc). by eexists. }
    revert Hsome. generalize (addPropName cat f v). clear cat.
    induction l as [|[g u] l IH]; intros cat Hsome; simpl; [done|].
    apply IH. by apply addPropName_keeps.
  - by apply IH.
Qed.

Lemma scanFeatures_records (cat : Catalogue) (l : list Feature)
    (feature : Feature) (f : string) (v : PropertyValue) (t : PropertyType)
    (ex : PropertyValue) :
  f ∉ Object_prototype →
  feature ∈ l →
  feature_type feature = "Feature" →
  properties feature !! f = Some v →
  classify v = Some (t, ex) →
  is_Some (example (foldl scanFeature cat l) f t).
Proof.
  intros Hf Hin Htype Hv Hc. revert cat.
  induction l as [|feature' l IH]; intros cat; [by apply elem_of_nil in Hin|].
  simpl. apply elem_of_cons in Hin as [<- | Hin].
  - apply scanFeatures_keeps. by apply (scanFeature_records _ _ _ v t ex).
  - by apply IH.
Qed.

(** The loop of [decodeGeoJSONs] over any list of datasets without a
    repeated name. *)
Lemma decode_loop (l : list (string * gmap string (list Byte.byte)))
    (geoJSONs geoJSONs' : gmap string GeoJSON) (cat cat' : Catalogue)
    (w w' : list Event) :
  NoDup l.*1 →
  for_each
    (λ '(geoJSONs, propNames) '(name, group),
       await host (CShp group);;
       let geojson := shp host group in
       let geoJSONs := <[name := geojson]> geoJSONs in
       if String.eqb (geojson_type geojson) "FeatureCollection" then
         mret (geoJSONs, foldl scanFeature propNames (features geojson))
       else mret (geoJSONs, propNames))
    (geoJSONs, cat) l w = (Ok (geoJSONs', cat'), w') →
  (∀ name,
     geoJSONs' !! name
     = match (list_to_map l : gmap string (gmap string (list Byte.byte)))
             !! name with
       | Some group => Some (shp host group)
       | None => geoJSONs !! name
       end)
  ∧ (wellCatalogued cat → wellCatalogued cat')
  ∧ (∀ f t, is_Some (example cat f t) → is_Some (example cat' f t))
  ∧ (∀ name group feature f v t ex,
       (name, group) ∈ l →
       geojson_type (shp host group) = "FeatureCollection" →
       feature ∈ features (shp host group) →
       feature_type feature = "Feature" →
       f ∉ Object_prototype →
       properties feature !! f = Some v →
       classify v = Some (t, ex) →
       is_Some (example cat' f t))
  ∧ ((∀ g, g ∈ Object_prototype → cat !! g = None) →
     ∀ g, g ∈ Object_prototype → cat' !! g = None).
Proof.
  revert geoJSONs cat w.
  induction l as [|[name0 group0] l IH]; intros geoJSONs cat w Hnodup Hrun.
  - injection Hrun as <- <- _. split; [done|]. split; [done|]. split; [done|].
    split; [|done].
    intros name group feature f v t ex Hin. by apply elem_of_nil in Hin.
  - apply NoDup_cons in Hnodup as [Hfresh Hnodup]. simpl in Hrun.
    apply bind_ok_inv in Hrun as ([geoJSONs1 cat1] & w1 & Hone & Hrun).
    apply bind_ok_inv in Hone as ([] & w2 & _ & Hone).
    destruct (IH _ _ _ Hnodup Hrun) as (Hdata & Hwell & Hkeep & Hrec & Hown).
    assert (geoJSONs1 = <[name0 := shp host group0]> geoJSONs) as ->.
    { by destruct (String.eqb _ _); injection Hone as <- _. }
    split; [|split; [|split; [|split]]].
    + intros name. rewrite Hdata. simpl.
      destruct (decide (name = name0)) as [->|Hne].
      * rewrite (not_elem_of_list_to_map_1 l name0 Hfresh).
        by rewrite !lookup_insert_eq.
      * by rewrite !lookup_insert_ne.
    + intros Hcat. apply Hwell.
      destruct (String.eqb _ _); injection Hone as <- _; [|done].
      by apply scanFeatures_wellCatalogued.
    + intros f t Hsome. apply Hkeep.
      destruct (String.eqb _ _); injection Hone as <- _; [|done].
      by apply scanFeatures_keeps.
    + intros name group feature f v t ex Hin Htype Hfeature Hft Hf Hv Hc.
      apply elem_of_cons in Hin as [[= -> ->] | Hin].
      * apply Hkeep. rewrite Htype in Hone. simpl in Hone.
        injection Hone as <- _.
        by apply (scanFeatures_records _ _ feature f v t ex).
      * by apply (Hrec name group feature f v t ex).
    + intros Hcat. apply Hown.
      destruct (String.eqb _ _); injection Hone as <- _; [|done].
      by apply scanFeatures_own_names.
Qed.

(** X6: when the decoding returns, the collections are those that it was
    given, with, under the name of every dataset, what the decoder made of
    its buffers. *)
Theorem decodeGeoJSONs_datasets (geoJSONs geoJSONs' : gmap string GeoJSON)
    (cat cat' : Catalogue) (groups : Groups) (w w' : list Event) :
  decodeGeoJSONs host geoJSONs cat groups w = (Ok (geoJSONs', cat'), w') →
  ∀ name,
    geoJSONs' !! name
    = match groups !! name with
      | Some group => Some (shp host group)
      | None => geoJSONs !! name
      end.
Proof.
  intros Hrun name.
  destruct (decode_loop _ _ _ _ _ _ _ (NoDup_fst_map_to_list groups) Hrun)
    as (Hdata & _).
  by rewrite Hdata, list_to_map_to_list.
Qed.

(** X7: the decoding keeps the catalogue well formed: every field has an
    example, every example is a finite number, a non-empty text between
    quotes or the locale string of a valid date, and no example is of
    boolean kind. *)
Theorem decodeGeoJSONs_wellCatalogued (geoJSONs geoJSONs' : gmap string GeoJSON)
    (cat cat' : Catalogue) (groups : Groups) (w w' : list Event) :
  wellCatalogued cat →
  decodeGeoJSONs host geoJSONs cat groups w = (Ok (geoJSONs', cat'), w') →
  wellCatalogued cat'.
Proof.
  intros Hwell Hrun.
  destruct (decode_loop _ _ _ _ _ _ _ (NoDup_fst_map_to_list groups) Hrun)
    as (_ & Hwell' & _).
  by apply Hwell'.
Qed.

(** X8: when the decoding returns, the catalogue has an example for every
    field and kind under which some feature of some decoded collection
    holds a value that [addPropName] accepts, provided the name of the field
    is not one under which objects inherit a member; and it has kept every
    example it had. *)
Theorem decodeGeoJSONs_complete (geoJSONs geoJSONs' : gmap string GeoJSON)
    (cat cat' : Catalogue) (groups : Groups) (w w' : list Event) :
  decodeGeoJSONs host geoJSONs cat groups w = (Ok (geoJSONs', cat'), w') →
  (∀ f t, is_Some (example cat f t) → is_Some (example cat' f t))
  ∧ ∀ name group feature f v t ex,
      groups !! name = Some group →
      geojson_type (shp host group) = "FeatureCollection" →
      feature ∈ features (shp host group) →
      feature_type feature = "Feature" →
      f ∉ Object_prototype →
      properties feature !! f = Some v →
      classify v = Some (t, ex) →
      is_Some (example cat' f t).
Proof.
  intros Hrun.
  destruct (decode_loop _ _ _ _ _ _ _ (NoDup_fst_map_to_list groups) Hrun)
    as (_ & _ & Hkeep & Hrec & _).
  split; [exact Hkeep|].
  intros name group feature f v t ex Hgroup Htype Hfeature Hft Hf Hv Hc.
  apply (Hrec name group feature f v t ex); try done.
  by apply elem_of_map_to_list.
Qed.


End DecoderExtras.

(** ** Typed properties and layer data *)

Section LayerDataExtras.
Context `{Runtime} (host : Host).

Lemma featurePropValue_typed (prop : PropertyValue) (w : list Event) :
  featurePropValue prop w = (Ok (typedProperty prop), w ++ propertyLog prop).
Proof.
  destruct prop as [x|s|b|d|]; simpl; rewrite ?app_nil_r; try done.
Qed.

Lemma featureProps_typed_loop (l : list (string * PropertyValue))
    (acc : gmap string DwgValue) (w : list Event) :
  NoDup l.*1 →
  ∃ props,
    for_each (λ props '(name, prop),
                typed ← featurePropValue prop; mret (<[name := typed]> props))
             acc l w
    = (Ok props, w ++ concat ((λ kv, propertyLog kv.2) <$> l))
    ∧ ∀ k, props !! k
           = match (list_to_map l : gmap string PropertyValue) !! k with
             | Some v => Some (typedProperty v)
             | None => acc !! k
             end.
Proof.
  revert acc w. induction l as [|[k0 v0] l IH]; intros acc w Hnodup.
  - exists acc. simpl. by rewrite app_nil_r.
  - apply NoDup_cons in Hnodup as [Hfresh Hnodup].
    destruct (IH (<[k0 := typedProperty v0]> acc) (w ++ propertyLog v0) Hnodup)
      as (props & Hrun & Hkeys).
    exists props. split.
    + simpl. rewrite run_bind, run_bind, featurePropValue_typed. simpl.
      rewrite Hrun. by rewrite <- app_assoc.
    + intros k. rewrite Hkeys. simpl.
      destruct (decide (k = k0)) as [->|Hne].
      * rewrite (not_elem_of_list_to_map_1 l k0 Hfresh).
        by rewrite !lookup_insert_eq.
      * by rewrite !lookup_insert_ne.
Qed.

Lemma featureProps_script (rawProps : gmap string PropertyValue)
    (w : list Event) :
  featureProps rawProps w
  = (Ok (typedProperty <$> rawProps),
     w ++ concat ((λ kv, propertyLog kv.2) <$> map_to_list rawProps)).
Proof.
  destruct (featureProps_typed_loop (map_to_list rawProps) ∅ w
              (NoDup_fst_map_to_list rawProps)) as (props & Hrun & Hkeys).
  unfold featureProps. rewrite Hrun. do 2 f_equal.
  apply map_eq. intros k.
  rewrite Hkeys, list_to_map_to_list, lookup_fmap, lookup_empty.
  by destruct (rawProps !! k).
Qed.

(** X9: [featureProps] never fails; it returns the attribute map with
    every value turned into its typed property, and logs one message for
    each value of unsupported kind and nothing else. *)
Theorem featureProps_typed (rawProps : gmap string PropertyValue)
    (w : list Event) :
  featureProps rawProps w
  = (Ok (typedProperty <$> rawProps),
     w ++ concat ((λ kv, propertyLog kv.2) <$> map_to_list rawProps)).
Proof. apply featureProps_script. Qed.

Lemma requestedData_app (w1 w2 : list Event) :
  requestedData (w1 ++ w2) = requestedData w1 ++ requestedData w2.
Proof. apply omap_app. Qed.

Lemma requestedData_none (P : Event → bool) (evs : list Event) :
  (∀ c b, P (EAwait (CLayersAdd c) b) = false) →
  Forall (λ ev, P ev = true) evs → requestedData evs = [].
Proof.
  intros HP Hevs. induction Hevs as [|ev evs Hev _ IH]; [done|].
  change (ev :: evs) with ([ev] ++ evs).
  rewrite requestedData_app, IH, app_nil_r.
  destruct ev as [[] ?| | | | | | | | | |]; try done.
  by rewrite HP in Hev.
Qed.

Lemma requestedNames_data (evs : list Event) :
  requestedNames evs = (λ data : gmap string DwgValue, data !! "name")
                         <$> requestedData evs.
Proof.
  induction evs as [|ev evs IH]; [done|].
  change (ev :: evs) with ([ev] ++ evs).
  rewrite requestedNames_app, requestedData_app, fmap_app, IH.
  by destruct ev as [[] ?| | | | | | | | | |].
Qed.

Lemma propertyLog_log (l : list (string * PropertyValue)) :
  Forall (λ ev, log_event ev = true)
         (concat ((λ kv, propertyLog kv.2) <$> l)).
Proof.
  induction l as [|[k v] l IH]; simpl; [done|].
  apply Forall_app. split; [|exact IH]. destruct v; by repeat constructor.
Qed.

(** The one layer that [loadFeature] requests, whatever the outcome: the
    typed attributes with [$type] set and the name assigned. *)
Lemma loadFeature_data (ed : nat) (feature : Feature)
    (layerNames : list string) (layerIDs : N) (w : list Event) :
  ∃ r evs,
    loadFeature host ed feature layerNames layerIDs w = (r, w ++ evs)
    ∧ requestedData evs
      = [(assignLayerName
            (<["$type" := SmdxElement]> (typedProperty <$> properties feature))
            (properties feature) layerNames layerIDs).1]
    ∧ ∀ layer layerIDs',
        r = Ok (layer, layerIDs') →
        layerIDs'
        = (assignLayerName
             (<["$type" := SmdxElement]> (typedProperty <$> properties feature))
             (properties feature) layerNames layerIDs).2.
Proof.
  unfold loadFeature.
  rewrite (run_bind_ok _ _ _ _ _ (featureProps_script _ _)).
  destruct (assignLayerName _ _ _ _) as [data ids]. simpl.
  set (evs0 := concat _).
  assert (requestedData evs0 = []) as Hdata0.
  { apply (requestedData_none log_event); [done|]. apply propertyLog_log. }
  destruct (layers_add_cases host data (w ++ evs0)) as [Hadd|Hadd].
  - exists (Throw (Rejected (CLayersAdd data))),
           (evs0 ++ [EAwait (CLayersAdd data) false]).
    rewrite (run_bind_throw _ _ _ _ _ Hadd), app_assoc. split; [done|].
    rewrite requestedData_app, Hdata0. by split.
  - rewrite (run_bind_ok _ _ _ _ _ Hadd).
    rewrite (run_bind_ok _ _ _ _ _ (run_emit _ _)).
    destruct (featureGeometry_call_emits host ed (length (w ++ evs0))
                (geometry feature)
                (((w ++ evs0) ++ [EAwait (CLayersAdd data) true])
                   ++ [EDisabled (length (w ++ evs0)) true]))
      as (evs2 & Hgeo & Hevs2).
    rewrite run_bind.
    destruct (featureGeometry_call _ _ _ _ _) as [r2 w2].
    simpl in Hgeo. subst w2.
    exists (match r2 with
            | Ok _ => Ok (length (w ++ evs0), ids)
            | Throw e => Throw e
            end),
           (evs0 ++ [EAwait (CLayersAdd data) true]
                 ++ [EDisabled (length (w ++ evs0)) true] ++ evs2).
    split; [|split].
    + rewrite <- !app_assoc. by destruct r2.
    + rewrite !requestedData_app, Hdata0.
      by rewrite (requestedData_none geometry_event evs2).
    + intros layer ids'. destruct r2; [|done]. by intros [= _ <-].
Qed.

(** X10: the one layer that [loadFeature] requests carries the type
    [SmdxElement] under [$type] and, under every other key but [name], the
    typed property of the attribute of that key, if the feature has one. *)
Theorem leaf_layer_attributes (ed : nat) (feature : Feature)
    (layerNames : list string) (layerIDs : N) (w : list Event) :
  ∃ r evs data,
    loadFeature host ed feature layerNames layerIDs w = (r, w ++ evs)
    ∧ requestedData evs = [data]
    ∧ data !! "$type" = Some SmdxElement
    ∧ ∀ k, k ≠ "$type" → k ≠ "name" →
           data !! k = typedProperty <$> properties feature !! k.
Proof.
  destruct (loadFeature_data ed feature layerNames layerIDs w)
    as (r & evs & Hrun & Hdata & _).
  exists r, evs. eexists. split; [exact Hrun|]. split; [exact Hdata|].
  unfold assignLayerName.
  destruct (_ !! "name") as [named|]; [|destruct (scanLayerNames _ _)]; simpl.
  - split; [apply lookup_insert_eq|].
    intros k Htype _. by rewrite lookup_insert_ne, lookup_fmap.
  - split; [by rewrite lookup_insert_ne, lookup_insert_eq|].
    intros k Htype Hname. by rewrite !lookup_insert_ne, lookup_fmap.
  - split; [by rewrite lookup_insert_ne, lookup_insert_eq|].
    intros k Htype Hname. by rewrite !lookup_insert_ne, lookup_fmap.
Qed.

(** X11: a feature that has an attribute called [name] keeps it: whatever
    the approved candidates, its layer is requested with the typed property
    of that attribute as its name, and the counter is handed back as it
    was. *)
Theorem name_attribute_names_layer (ed : nat) (feature : Feature)
    (layerNames : list string) (layerIDs : N) (w : list Event)
    (v : PropertyValue) :
  properties feature !! "name" = Some v →
  ∃ r evs,
    loadFeature host ed feature layerNames layerIDs w = (r, w ++ evs)
    ∧ requestedNames evs = [Some (typedProperty v)]
    ∧ ∀ layer layerIDs', r = Ok (layer, layerIDs') → layerIDs' = layerIDs.
Proof.
  intros Hname.
  destruct (loadFeature_data ed feature layerNames layerIDs w)
    as (r & evs & Hrun & Hdata & Hids).
  exists r, evs. split; [exact Hrun|].
  unfold assignLayerName in *.
  rewrite lookup_insert_ne, lookup_fmap, Hname in Hdata, Hids by done.
  simpl in *. split; [|exact Hids].
  rewrite requestedNames_data, Hdata. simpl.
  by rewrite lookup_insert_ne, lookup_fmap, Hname.
Qed.

(** The scan stops without a name at the first candidate that holds a
    boolean or a value outside of the declared kinds. *)
Lemma scanLayerNames_ends (properties : gmap string PropertyValue)
    (before after : list string) (field : string) (v : PropertyValue) :
  (∀ k u, k ∈ before → properties !! k = Some u → skipped u = true) →
  properties !! field = Some v → endsScan v = true →
  scanLayerNames properties (before ++ field :: after) = None.
Proof.
  intros Hskip Hv Hends.
  induction before as [|k before IH]; simpl.
  - rewrite Hv. by destruct v.
  - specialize (IH (λ n u Hn, Hskip n u (list_elem_of_further _ _ _ Hn))).
    destruct (properties !! k) as [u|] eqn:Hu; [|exact IH].
    specialize (Hskip k u (list_elem_of_here _ _) Hu).
    destruct u as [x|s|b|d|]; simpl in Hskip; try done; by rewrite Hskip.
Qed.

(** X12: for a feature without an attribute called [name], when the
    candidates in front of [field] are all absent or skipped and [field]
    holds a boolean (or a value outside of the declared kinds), the scan
    ends there: the candidates that follow are not looked at, whatever they
    hold, and the layer is named from the counter, which grows by one. *)
Theorem unsupported_candidate_ends_scan (ed : nat) (feature : Feature)
    (before after : list string) (field : string) (v : PropertyValue)
    (layerIDs : N) (w : list Event) :
  properties feature !! "name" = None →
  (∀ k u, k ∈ before → properties feature !! k = Some u → skipped u = true) →
  properties feature !! field = Some v →
  endsScan v = true →
  ∃ r evs,
    loadFeature host ed feature (before ++ field :: after) layerIDs w
    = (r, w ++ evs)
    ∧ requestedNames evs = [Some (DString (pretty (layerIDs + 1)%N))]
    ∧ ∀ layer layerIDs',
        r = Ok (layer, layerIDs') → layerIDs' = (layerIDs + 1)%N.
Proof.
  intros Hno Hskip Hv Hends.
  pose proof (scanLayerNames_ends _ before after field v Hskip Hv Hends)
    as Hscan.
  destruct (loadFeature_run host ed feature (before ++ field :: after)
              layerIDs w)
    as (r & evs & name & Hrun & Hnames & Hname & Hids).
  exists r, evs. split; [exact Hrun|]. split.
  - rewrite Hnames, (Hname Hno), Hscan. done.
  - intros layer ids Hr. rewrite (Hids layer ids Hr).
    unfold needsFallback. by rewrite Hscan, !bool_decide_eq_true_2.
Qed.

End LayerDataExtras.

(** ** Geometry mapper: the table of primitives *)

Section MappingTable.
Context (host : Host).

Lemma attachments_app (base layer : nat) (calls1 calls2 : list Call) :
  attachments base layer (calls1 ++ calls2)
  = attachments base layer calls1
    ++ attachments (base + 2 * length calls1) layer calls2.
Proof.
  revert base. induction calls1 as [|c calls1 IH]; intros base.
  - simpl. by rewrite Nat.add_0_r.
  - cbn [attachments app length]. rewrite IH.
    replace (base + 2 + 2 * length calls1) with (base + 2 * S (length calls1))
      by lia.
    reflexivity.
Qed.

Lemma attachments_length (base layer : nat) (calls : list Call) :
  length (attachments base layer calls) = 2 * length calls.
Proof.
  revert base. induction calls as [|c calls IH]; intros base; simpl; [done|].
  rewrite IH. lia.
Qed.

(** One creation followed by its attachment. *)
Lemma entity_attached {A} (c : Call) (layer : nat) (k : M A)
    (w w' : list Event) (a : A) :
  (entity ← (h ← position; await host c;; mret h);
   setx host entity "$layer" layer;; k) w = (Ok a, w') →
  k (w ++ attachments (length w) layer [c]) = (Ok a, w').
Proof.
  intros Hrun.
  apply bind_ok_inv in Hrun as (entity & w1 & Hcreate & Hrun).
  apply bind_ok_inv in Hcreate as (h & w2 & [= <- <-] & Hcreate).
  apply bind_ok_inv in Hcreate as ([] & w3 & Hawait & [= <- <-]).
  apply bind_ok_inv in Hrun as ([] & w4 & Hsetx & Hrun).
  unfold setx in Hsetx.
  destruct (await_cases host c w) as [Hc | Hc];
    rewrite Hc in Hawait; [done|]. injection Hawait as <-.
  destruct (await_cases host (CSetx (length w) "$layer" layer)
              (w ++ [EAwait c true])) as [Hs | Hs];
    rewrite Hs in Hsetx; [done|]. injection Hsetx as <-.
  simpl. by rewrite <- app_assoc in Hrun.
Qed.

Lemma pointEntity_attached (ed layer : nat) (c : Coord)
    (w w' : list Event) (u : unit) :
  pointEntity host ed layer c w = (Ok u, w') →
  w' = w ++ attachments (length w) layer [pointRequest ed c].
Proof.
  unfold pointEntity, addCircle. rewrite paddedScaled_vertex. intros Hrun.
  assert ((entity ← (h ← position;
                     await host (CAddCircle ed (paddedScaled c) POINT_RADIUS);;
                     mret h);
           setx host entity "$layer" layer;; mret tt) w = (Ok u, w'))
    as Hrun'.
  { rewrite run_bind in Hrun |- *.
    destruct ((h ← position; _) w) as [[entity|e] w1]; [|done].
    rewrite run_bind. destruct (setx host entity "$layer" layer w1)
      as [[[]|e] w2]; [|done]. by destruct u. }
  apply entity_attached in Hrun'. by injection Hrun' as <-.
Qed.

Lemma polyline_attached (ed layer : nat) (cs : list Coord)
    (w w' : list Event) (cs' : list Coord) :
  (entity ← addPolyline3d host ed cs;
   setx host entity "$layer" layer;; mret cs) w = (Ok cs', w') →
  w' = w ++ attachments (length w) layer [CAddPolyline3d ed cs].
Proof.
  unfold addPolyline3d. intros Hrun.
  apply entity_attached in Hrun. by injection Hrun as _ <-.
Qed.

Lemma ringEntity_attached (ed layer : nat) (cs : list Coord)
    (w w' : list Event) (cs' : list Coord) :
  ringEntity host ed layer cs w = (Ok cs', w') →
  w' = w ++ attachments (length w) layer [ringRequest ed cs].
Proof.
  unfold ringEntity, ringRequest. rewrite uplift_spec. apply polyline_attached.
Qed.

Lemma lineEntity_attached (ed layer : nat) (cs : list Coord)
    (w w' : list Event) (cs' : list Coord) :
  lineEntity host ed layer cs w = (Ok cs', w') →
  w' = w ++ attachments (length w) layer [lineRequest ed cs].
Proof.
  unfold lineEntity, lineRequest.
  destruct cs as [|a [|b [|c cs]]];
    try (rewrite uplift_spec; apply polyline_attached).
  unfold addLine. rewrite !paddedScaled_vertex. intros Hrun.
  apply entity_attached in Hrun. by injection Hrun as _ <-.
Qed.

Lemma for_update_attached {A} (f : A → M A) (C : A → list Call)
    (layer : nat) :
  (∀ x w y w', f x w = (Ok y, w') →
               w' = w ++ attachments (length w) layer (C x)) →
  ∀ l w l' w',
    for_update f l w = (Ok l', w') →
    w' = w ++ attachments (length w) layer (concat (C <$> l)).
Proof.
  intros Hf l. induction l as [|x l IH]; intros w l' w'; simpl.
  - intros [= _ <-]. by rewrite app_nil_r.
  - intros Hrun. apply bind_ok_inv in Hrun as (y & w1 & Hx & Hrun).
    apply bind_ok_inv in Hrun as (l1 & w2 & Hl & [= _ <-]).
    apply Hf in Hx as ->. apply IH in Hl as ->.
    rewrite attachments_app, <- app_assoc. do 2 f_equal.
    rewrite length_app, attachments_length. done.
Qed.

Lemma for_each_attached {A} (f : unit → A → M unit) (C : A → list Call)
    (layer : nat) :
  (∀ s x w y w', f s x w = (Ok y, w') →
                 w' = w ++ attachments (length w) layer (C x)) →
  ∀ l s w s' w',
    for_each f s l w = (Ok s', w') →
    w' = w ++ attachments (length w) layer (concat (C <$> l)).
Proof.
  intros Hf l. induction l as [|x l IH]; intros s w s' w'; simpl.
  - intros [= _ <-]. by rewrite app_nil_r.
  - intros Hrun. apply bind_ok_inv in Hrun as (y & w1 & Hx & Hrun).
    apply Hf in Hx as ->. apply IH in Hrun as ->.
    rewrite attachments_app, <- app_assoc. do 2 f_equal.
    rewrite length_app, attachments_length. done.
Qed.

Lemma concat_singletons {A B} (f : A → B) (l : list A) :
  concat ((λ x, [f x]) <$> l) = f <$> l.
Proof. induction l as [|x l IH]; [done|]. simpl. by f_equal. Qed.

Lemma featureGeometry_script (ed layer : nat) (g g' : Geometry)
    (w w' : list Event) :
  featureGeometry host ed layer g w = (Ok g', w') →
  w' = w ++ geometryScript ed layer (length w) g.
Proof.
  unfold geometryScript.
  destruct g as [c|cs bbox|rings bbox|cs|lines|polygons|type]; simpl;
    intros Hrun.
  - apply bind_ok_inv in Hrun as ([] & w1 & Hpoint & [= _ <-]).
    by apply pointEntity_attached in Hpoint.
  - apply bind_ok_inv in Hrun as (cs' & w1 & Hline & [= _ <-]).
    by apply lineEntity_attached in Hline.
  - apply bind_ok_inv in Hrun as (rings' & w1 & Hrings & [= _ <-]).
    apply (for_update_attached _ (λ ring, [ringRequest ed ring]) layer)
      in Hrings.
    + by rewrite concat_singletons in Hrings.
    + intros ring w0 y w0'. apply ringEntity_attached.
  - apply bind_ok_inv in Hrun as ([] & w1 & Hpoints & [= _ <-]).
    apply (for_each_attached _ (λ c, [pointRequest ed c]) layer) in Hpoints.
    + by rewrite concat_singletons in Hpoints.
    + intros [] c w0 y w0'. apply pointEntity_attached.
  - apply bind_ok_inv in Hrun as (lines' & w1 & Hlines & [= _ <-]).
    apply (for_update_attached _ (λ line, [lineRequest ed line]) layer)
      in Hlines.
    + by rewrite concat_singletons in Hlines.
    + intros line w0 y w0'. apply lineEntity_attached.
  - apply bind_ok_inv in Hrun as (polygons' & w1 & Hpolygons & [= _ <-]).
    apply (for_update_attached _
             (λ rings : list (list Coord), ringRequest ed <$> rings) layer)
      in Hpolygons.
    + rewrite Hpolygons. do 2 f_equal. clear Hpolygons.
      induction polygons as [|rings polygons IH]; [done|]. simpl.
      rewrite fmap_app. f_equal. exact IH.
    + intros rings w0 y w0' Hrings.
      apply (for_update_attached _ (λ ring, [ringRequest ed ring]) layer)
        in Hrings.
      * by rewrite concat_singletons in Hrings.
      * intros ring w2 y2 w2'. apply ringEntity_attached.
  - apply bind_ok_inv in Hrun as ([] & w1 & [= <-] & [= _ <-]). done.
Qed.

(** X13: when the mapping of a geometry returns, what it has added to the
    history is, for each primitive of the table in order (a circle of
    radius 0.005 for a point, a line for a line string of exactly two
    points, a polyline for any other line string and for each ring), its
    request immediately followed by its attachment to the layer under the
    handle that the request received, and nothing else; for an unsupported
    kind it is one message and no request. *)
Theorem geometry_mapping_table (ed layer : nat) (g g' : Geometry)
    (w w' : list Event) :
  featureGeometry host ed layer g w = (Ok g', w') →
  w' = w ++ geometryScript ed layer (length w) g.
Proof. apply featureGeometry_script. Qed.

End MappingTable.

(** ** Layer and entity assembler *)

Section AssemblerExtras.
Context `{Runtime} (host : Host).

(** X14: when the load of one feature returns, the feature has a geometry
    and what the load has added to the history is: the messages for the
    attributes of unsupported kind; the request for the leaf layer, with the
    typed attributes and the name assigned; the layer disabled; the
    primitives of the geometry, each attached to that layer; and the layer
    attached to the layer of its dataset.  The counter handed on is the one
    that the naming left. *)
Theorem feature_load_script (ed parent : nat) (feature : Feature)
    (layerNames : list string) (layerIDs layerIDs' : N) (w w' : list Event) :
  feature_type feature = "Feature" →
  loadOne host ed parent layerNames layerIDs feature w = (Ok layerIDs', w') →
  let logs := propertyLogs (properties feature) in
  let layer := length w + length logs in
  ∃ rawGeometry,
    geometry feature = Some rawGeometry
    ∧ w' = w ++ logs
             ++ [EAwait (CLayersAdd (leafLayer feature layerNames layerIDs).1)
                        true;
                 EDisabled layer true]
             ++ geometryScript ed layer (layer + 2) rawGeometry
             ++ [EAwait (CSetx layer "$layer" parent) true]
    ∧ layerIDs' = (leafLayer feature layerNames layerIDs).2.
Proof.
  intros Htype Hrun logs layer. unfold loadOne in Hrun.
  rewrite Htype in Hrun. simpl in Hrun.
  apply bind_ok_inv in Hrun as ([h ids] & w1 & Hload & Hrun).
  apply bind_ok_inv in Hrun as ([] & w2 & Hsetx & [= <- <-]).
  unfold loadFeature in Hload.
  rewrite (run_bind_ok _ _ _ _ _ (featureProps_script _ _)) in Hload.
  fold (propertyLogs (properties feature)) in Hload. fold logs in Hload.
  fold (leafLayer feature layerNames layerIDs) in Hload.
  destruct (leafLayer feature layerNames layerIDs) as [data next].
  apply bind_ok_inv in Hload as (h' & w3 & Hadd & Hload).
  destruct (layers_add_cases host data (w ++ logs)) as [Hadd'|Hadd'];
    rewrite Hadd' in Hadd; [done|]. injection Hadd as <- <-.
  apply bind_ok_inv in Hload as ([] & w4 & [= <-] & Hload).
  apply bind_ok_inv in Hload as (g' & w5 & Hgeo & [= <- <- <-]).
  destruct (geometry feature) as [rawGeometry|]; [|done].
  exists rawGeometry. split; [done|].
  apply featureGeometry_script in Hgeo. subst w5.
  unfold setx in Hsetx.
  match type of Hsetx with
  | await host ?c ?w0 = _ =>
      destruct (await_cases host c w0) as [Hs|Hs]; rewrite Hs in Hsetx;
        [done|]
  end.
  injection Hsetx as <-. simpl. split; [|done].
  subst layer. rewrite !length_app. simpl. rewrite <- !app_assoc. simpl.
  by replace (length w + length logs + 1 + 1)
       with (length w + length logs + 2) by lia.
Qed.

Lemma loadOne_layers (ed parent : nat) (layerNames : list string)
    (layerIDs layerIDs' : N) (feature : Feature) (w w' : list Event) :
  loadOne host ed parent layerNames layerIDs feature w = (Ok layerIDs', w') →
  ∃ evs, w' = w ++ evs
         ∧ length (requestedData evs)
           = if String.eqb (feature_type feature) "Feature" then 1 else 0.
Proof.
  unfold loadOne. destruct (String.eqb _ _); intros Hrun.
  - apply bind_ok_inv in Hrun as ([h ids] & w1 & Hload & Hrun).
    apply bind_ok_inv in Hrun as ([] & w2 & Hsetx & [= _ <-]).
    destruct (loadFeature_data host ed feature layerNames layerIDs w)
      as (r & evs & Hrun' & Hdata & _).
    rewrite Hload in Hrun'. injection Hrun' as _ ->.
    unfold setx in Hsetx.
    match type of Hsetx with
    | await host ?c ?w0 = _ =>
        destruct (await_cases host c w0) as [Hs|Hs]; rewrite Hs in Hsetx;
          [done|]
    end.
    injection Hsetx as <-. exists (evs ++ [EAwait (CSetx h "$layer" parent) true]).
    rewrite app_assoc. split; [done|].
    by rewrite requestedData_app, Hdata.
  - apply bind_ok_inv in Hrun as ([] & w1 & [= <-] & [= _ <-]).
    by eexists.
Qed.

Lemma loadFeatures_layers (ed parent : nat) (layerNames : list string)
    (l : list Feature) (layerIDs layerIDs' : N) (w w' : list Event) :
  for_each (loadOne host ed parent layerNames) layerIDs l w = (Ok layerIDs', w') →
  ∃ evs, w' = w ++ evs
         ∧ length (requestedData evs)
           = length (filter (λ feature, feature_type feature = "Feature") l).
Proof.
  revert layerIDs w. induction l as [|feature l IH]; intros layerIDs w; simpl.
  - intros [= _ <-]. exists []. by rewrite app_nil_r.
  - intros Hrun. apply bind_ok_inv in Hrun as (ids & w1 & Hone & Hrun).
    apply loadOne_layers in Hone as (evs1 & -> & Hlen1).
    apply IH in Hrun as (evs2 & -> & Hlen2).
    exists (evs1 ++ evs2). rewrite app_assoc. split; [done|].
    rewrite requestedData_app, length_app, Hlen1, Hlen2, filter_cons.
    destruct (String.eqb_spec (feature_type feature) "Feature") as [Heq|Hne].
    + by rewrite decide_True.
    + by rewrite decide_False.
Qed.

Lemma layerCount_cons (dataset : string * GeoJSON)
    (datasets : list (string * GeoJSON)) :
  layerCount (dataset :: datasets)
  = (if String.eqb (geojson_type dataset.2) "FeatureCollection"
     then S (length (filter (λ feature, feature_type feature = "Feature")
                            (features dataset.2)))
     else 0)
    + layerCount datasets.
Proof. reflexivity. Qed.

Lemma loadDatasets_layers (ed root : nat) (layerNames : list string)
    (total : nat) (datasets : list (string * GeoJSON)) (state state' : nat * N)
    (w w' : list Event) :
  for_each (loadDataset host ed root layerNames total) state datasets w
  = (Ok state', w') →
  ∃ evs, w' = w ++ evs ∧ length (requestedData evs) = layerCount datasets.
Proof.
  revert state w.
  induction datasets as [|[name geojson] datasets IH]; intros [i ids] w.
  - intros [= _ <-]. exists []. by rewrite app_nil_r.
  - simpl. intros Hrun.
    apply bind_ok_inv in Hrun as (state1 & w1 & Hone & Hrun).
    apply IH in Hrun as (evs2 & -> & Hlen2).
    rewrite layerCount_cons. simpl.
    destruct (String.eqb (geojson_type geojson) "FeatureCollection").
    + apply bind_ok_inv in Hone as ([] & w2 & [= <-] & Hone).
      apply bind_ok_inv in Hone as ([] & w3 & [= <-] & Hone).
      apply bind_ok_inv in Hone as (parent & w4 & Hadd & Hone).
      match type of Hadd with
      | layers_add host ?data ?w0 = _ =>
          destruct (layers_add_cases host data w0) as [Ha|Ha];
            rewrite Ha in Hadd; [done|]
      end.
      injection Hadd as <- <-.
      apply bind_ok_inv in Hone as ([] & w5 & [= <-] & Hone).
      apply bind_ok_inv in Hone as ([] & w6 & Hsetx & Hone).
      unfold setx in Hsetx.
      match type of Hsetx with
      | await host ?c ?w0 = _ =>
          destruct (await_cases host c w0) as [Hs|Hs]; rewrite Hs in Hsetx;
            [done|]
      end.
      injection Hsetx as <-.
      apply bind_ok_inv in Hone as (ids1 & w7 & Hfeatures & [= _ <-]).
      apply loadFeatures_layers in Hfeatures as (evs1 & -> & Hlen1).
      eexists. split.
      { rewrite <- !app_assoc. reflexivity. }
      rewrite !requestedData_app, !length_app, Hlen1, Hlen2. simpl. lia.
    + apply bind_ok_inv in Hone as ([] & w2 & [= <-] & [= _ <-]).
      eexists. split.
      { rewrite <- !app_assoc. reflexivity. }
      by rewrite !requestedData_app, !length_app, Hlen2.
Qed.

(** X15: when the writing of the layers returns, it has requested one root
    layer, one layer for each dataset that is a feature collection and one
    layer for each feature of such a dataset, and no other layer: a member
    that is not a feature and a dataset that is not a feature collection
    get none. *)
Theorem writeLayers_layer_count (ed : nat) (filename : string)
    (geoJSONs : gmap string GeoJSON) (layerNames : list string)
    (layerIDs layerIDs' : N) (w w' : list Event) :
  writeLayers host ed filename geoJSONs layerNames layerIDs w
  = (Ok layerIDs', w') →
  ∃ evs,
    w' = w ++ evs
    ∧ length (requestedData evs) = S (layerCount (map_to_list geoJSONs)).
Proof.
  unfold writeLayers, loadShapes. intros Hrun.
  apply bind_ok_inv in Hrun as (root & w1 & Hadd & Hrun).
  match type of Hadd with
  | layers_add host ?data ?w0 = _ =>
      destruct (layers_add_cases host data w0) as [Ha|Ha];
        rewrite Ha in Hadd; [done|]
  end.
  injection Hadd as <- <-.
  apply bind_ok_inv in Hrun as ([] & w2 & [= <-] & Hrun).
  apply bind_ok_inv in Hrun as ([] & w3 & [= <-] & Hrun).
  apply bind_ok_inv in Hrun as (state & w4 & Hloop & [= _ <-]).
  apply loadDatasets_layers in Hloop as (evs & -> & Hlen).
  eexists. split.
  { rewrite <- !app_assoc. reflexivity. }
  rewrite !requestedData_app, !length_app, Hlen. simpl. lia.
Qed.

End AssemblerExtras.

(** ** Import orchestrator: the phases of a run *)

Section PhaseExtras.
Context `{Runtime} (host : Host).

Lemma drawing_of_geometry (ev : Event) :
  geometry_event ev = true → drawing_event ev = true.
Proof. by destruct ev as [[] ?| | | | | | | | | |]. Qed.

Lemma drawing_of_log (ev : Event) : log_event ev = true → drawing_event ev = true.
Proof. by destruct ev as [[] ?| | | | | | | | | |]. Qed.

Lemma late_of_drawing (ev : Event) :
  drawing_event ev = true → late_event ev = true.
Proof. unfold late_event. by intros ->. Qed.

Lemma writeLayers_draws (ed : nat) (filename : string)
    (geoJSONs : gmap string GeoJSON) (layerNames : list string)
    (layerIDs : N) :
  emits drawing_event
    (writeLayers host ed filename geoJSONs layerNames layerIDs).
Proof.
  assert (∀ data, emits drawing_event (layers_add host data)) as Hadd.
  { intros data. unfold layers_add. repeat emits_step. }
  assert (∀ feature names ids,
            emits drawing_event (loadFeature host ed feature names ids))
    as Hfeature.
  { intros feature names ids. unfold loadFeature.
    apply emits_bind.
    { intros w. rewrite featureProps_script. eexists. split; [done|].
      eapply Forall_impl; [apply propertyLog_log|]. apply drawing_of_log. }
    intros props. destruct (assignLayerName _ _ _ _) as [data ids'].
    apply emits_bind; [apply Hadd|]. intros layer.
    apply emits_bind; [by apply emits_emit|]. intros _.
    apply emits_bind; [|intros ?; apply emits_ret].
    apply (emits_weaken geometry_event); [apply drawing_of_geometry|].
    apply featureGeometry_call_emits. }
  unfold writeLayers, loadShapes.
  apply emits_bind; [apply Hadd|]. intros root.
  apply emits_bind; [by apply emits_emit|]. intros _.
  apply emits_bind; [by apply emits_emit|]. intros _.
  apply emits_bind; [|intros ?; apply emits_ret].
  apply emits_for_each. intros [i ids] [name geojson].
  unfold loadDataset, setx.
  destruct (String.eqb _ _); [|repeat emits_step].
  apply emits_bind; [by apply emits_emit|]. intros _.
  apply emits_bind; [by apply emits_emit|]. intros _.
  apply emits_bind; [apply Hadd|]. intros parent.
  apply emits_bind; [by apply emits_emit|]. intros _.
  apply emits_bind; [by apply emits_await|]. intros _.
  apply emits_bind; [|intros ?; apply emits_ret].
  apply emits_for_each. intros ids' feature.
  unfold loadOne, setx. destruct (String.eqb _ _); [|repeat emits_step].
  apply emits_bind; [apply Hfeature|]. intros [layer ids''].
  repeat emits_step.
Qed.

Lemma extractGroups_reads (items : list WorkspaceItem) (groups : Groups) :
  emits read_event (extractGroups host groups items).
Proof.
  assert (∀ groups item, emits read_event (addToGroups host groups item))
    as Hadd.
  { intros groups0 item. unfold addToGroups, item_get.
    apply emits_bind; [repeat emits_step|]. intros bytes.
    apply emits_bind; [by apply emits_emit|]. intros _.
    destruct (negb _); [repeat emits_step|].
    destruct (groups0 !! _); [|case_bool_decide]; apply emits_ret. }
  assert (∀ item groups, emits read_event (extractGroups_item host groups item))
    as Hitem.
  { fix IH 1. intros [title [|] buffer entries] groups0; simpl.
    - apply emits_bind; [by apply emits_await|]. intros _.
      revert groups0. induction entries as [|item items' IHitems];
        intros groups0.
      + apply emits_ret.
      + apply emits_bind; [apply IH|]. intros groups'. apply IHitems.
    - apply (Hadd groups0 (mkItem title MimeFile buffer entries)). }
  unfold extractGroups. apply emits_for_each. intros groups0 item. apply Hitem.
Qed.

Lemma decodeGeoJSONs_decodes (geoJSONs : gmap string GeoJSON)
    (cat : Catalogue) (groups : Groups) :
  emits decode_event (decodeGeoJSONs host geoJSONs cat groups).
Proof.
  unfold decodeGeoJSONs. apply emits_for_each.
  intros [geoJSONs0 propNames] [name group].
  apply emits_bind; [by apply emits_await|]. intros _.
  destruct (String.eqb _ _); apply emits_ret.
Qed.

Lemma choose_prompts (cat : Catalogue) :
  emits prompt_event (choosePossibleLayerNameProps host cat).
Proof. unfold choosePossibleLayerNameProps. repeat emits_step. Qed.

(** The reading phase adds the events of the three steps in their order. *)
Lemma readDatasets_phases (workspace : Workspace) (w : list Event) :
  ∃ r reads decodes prompts,
    readDatasets host workspace w = (r, w ++ reads ++ decodes ++ prompts)
    ∧ Forall (λ ev, read_event ev = true) reads
    ∧ Forall (λ ev, decode_event ev = true) decodes
    ∧ Forall (λ ev, prompt_event ev = true) prompts.
Proof.
  unfold readDatasets.
  rewrite (run_bind_ok _ _ _ _ _ (run_emit _ _)).
  set (first := EDetails _).
  rewrite run_bind.
  destruct (await_cases host (CPropfind (item_title (root workspace)))
              (w ++ [first])) as [-> | ->].
  { exists (Throw (Rejected (CPropfind (item_title (root workspace))))),
           [first; EAwait (CPropfind (item_title (root workspace))) false],
           [], [].
    rewrite <- !app_assoc. split; [done|]. by repeat constructor. }
  rewrite run_bind.
  match goal with
  | |- context [extractGroups host ∅ ?items ?w1] =>
      destruct (extractGroups_reads items ∅ w1) as (e1 & Hw1 & Hall1);
      destruct (extractGroups host ∅ items w1) as [[groups|e] w1']
  end; simpl in Hw1; subst w1'.
  2:{ exists (Throw e),
             ([first; EAwait (CPropfind (item_title (root workspace))) true]
                ++ e1), [], [].
      rewrite <- !app_assoc. simpl. rewrite app_nil_r. split; [done|].
      split; [|done]. repeat (constructor; [reflexivity|]). assumption. }
  rewrite run_bind.
  match goal with
  | |- context [decodeGeoJSONs host ∅ ∅ groups ?w2] =>
      destruct (decodeGeoJSONs_decodes ∅ ∅ groups w2) as (e2 & Hw2 & Hall2);
      destruct (decodeGeoJSONs host ∅ ∅ groups w2)
        as [[[geoJSONs propNames]|e] w2']
  end; simpl in Hw2; subst w2'.
  2:{ exists (Throw e),
             ([first; EAwait (CPropfind (item_title (root workspace))) true]
                ++ e1), e2, [].
      rewrite <- !app_assoc. simpl. rewrite app_nil_r. split; [done|].
      split; [|done]. repeat (constructor; [reflexivity|]). assumption. }
  rewrite run_bind.
  match goal with
  | |- context [choosePossibleLayerNameProps host propNames ?w3] =>
      destruct (choose_prompts propNames w3) as (e3 & Hw3 & Hall3);
      destruct (choosePossibleLayerNameProps host propNames w3)
        as [[names|e] w3']
  end; simpl in Hw3; subst w3'.
  - exists (Ok (geoJSONs, names)),
           ([first; EAwait (CPropfind (item_title (root workspace))) true]
              ++ e1), e2, e3.
    rewrite <- !app_assoc. simpl. split; [done|].
    split; [|done]. repeat (constructor; [reflexivity|]). assumption.
  - exists (Throw e),
           ([first; EAwait (CPropfind (item_title (root workspace))) true]
              ++ e1), e2, e3.
    rewrite <- !app_assoc. simpl. split; [done|].
    split; [|done]. repeat (constructor; [reflexivity|]). assumption.
Qed.

(** X16: [import] never throws.  Every run begins the progress, creates the
    output channel, announces the import, and ends the progress last; in
    between, the calls that read the files all come before the calls to the
    decoder, these before the prompt for the candidate fields, and
    everything that draws, the calls of the two sessions and the message of
    the top-level handler after it. *)
Theorem import_phases (workspace : Workspace) (drawing : Drawing)
    (w : list Event) :
  ∃ reads decodes prompts rest,
    import host workspace drawing w
    = (Ok tt,
       w ++ [EBeginProgress;
             ECreateOutputChannel "SHP";
             EInfo (tr host "Импорт shape из {0}"
                      [default (item_title (root workspace))
                         (origin workspace)]);
             EIndeterminate true]
         ++ reads ++ decodes ++ prompts ++ rest ++ [EEndProgress])
    ∧ Forall (λ ev, read_event ev = true) reads
    ∧ Forall (λ ev, decode_event ev = true) decodes
    ∧ Forall (λ ev, prompt_event ev = true) prompts
    ∧ Forall (λ ev, late_event ev = true) rest.
Proof.
  unfold import.
  rewrite (run_bind_ok _ _ _ _ _ (run_emit _ _)).
  rewrite (run_bind_ok _ _ _ _ _ (run_emit _ _)).
  unfold try_finally at 1. unfold try_catch.
  set (filename := default _ _).
  rewrite (run_bind_ok _ _ _ _ _ (run_emit _ _)).
  rewrite (run_bind_ok _ _ _ _ _ (run_emit _ _)).
  destruct (layouts drawing ≫= model) as [layout|].
  2:{ rewrite run_ret, run_emit. exists [], [], [], []. simpl.
      rewrite <- !app_assoc. by repeat split. }
  rewrite run_bind.
  match goal with
  | |- context [readDatasets host workspace ?w1] =>
      destruct (readDatasets_phases workspace w1)
        as (r1 & reads & decodes & prompts & Hread & Hreads & Hdecodes
            & Hprompts)
  end.
  rewrite Hread. destruct r1 as [[geoJSONs names]|e].
  2:{ rewrite !run_emit. exists reads, decodes, prompts, [EException e].
      rewrite <- ?app_assoc. simpl. rewrite <- ?app_assoc.
      split; [done|]. by repeat split; try done; repeat constructor. }
  match goal with
  | |- context [(await host CBeginUpdate ≫= ?k) ?w2] =>
      assert (emits late_event (await host CBeginUpdate ≫= k)) as Hlate
  end.
  { apply emits_bind; [by apply emits_await|]. intros _.
    apply emits_bind; [by apply emits_await|]. intros _.
    apply emits_try_finally.
    - apply emits_bind; [|intros ?; apply emits_ret].
      apply (emits_weaken drawing_event); [apply late_of_drawing|].
      apply writeLayers_draws.
    - apply emits_bind; [by apply emits_await|]. intros _.
      by apply emits_await. }
  match goal with
  | |- context [(await host CBeginUpdate ≫= ?k) ?w2] =>
      destruct (Hlate w2) as (evs & Hw & Hall);
      destruct ((await host CBeginUpdate ≫= k) w2) as [[[]|e] w3]
  end; simpl in Hw; subst w3.
  - rewrite run_emit. exists reads, decodes, prompts, evs.
    rewrite <- ?app_assoc. simpl. rewrite <- ?app_assoc.
    by repeat split.
  - rewrite !run_emit. exists reads, decodes, prompts, (evs ++ [EException e]).
    rewrite <- ?app_assoc. simpl. rewrite <- ?app_assoc.
    split; [done|]. repeat split; try done.
    apply Forall_app. split; [done|]. by repeat constructor.
Qed.

End PhaseExtras.

(** ** Import orchestrator: rejected calls *)

Section PropagatesRules.
Context (N : Prop).

Lemma propagates_ret {A} (a : A) : propagates N (mret a).
Proof. intros w. exists []. by rewrite app_nil_r. Qed.

Lemma propagates_position : propagates N position.
Proof. intros w. exists []. by rewrite app_nil_r. Qed.

Lemma propagates_emit (ev : Event) :
  loggedException ev = [] → rejectedCall ev = [] → propagates N (emit ev).
Proof.
  intros Hlog Hrej w. exists [ev]. unfold measure. simpl.
  by rewrite Hlog, Hrej.
Qed.

Lemma propagates_await (host : Host) (c : Call) :
  propagates N (await host c).
Proof.
  intros w. unfold await. destruct (rejects host w c).
  - by exists [EAwait c false].
  - by exists [EAwait c true].
Qed.

Lemma propagates_bind {A B} (m : M A) (k : A → M B) :
  propagates N m → (∀ a, propagates N (k a)) → propagates N (m ≫= k).
Proof.
  intros Hm Hk w. rewrite run_bind.
  destruct (Hm w) as (evs & Hw & Hlog & Hrej).
  destruct (m w) as [[a|e] w1]; simpl in Hw, Hrej; subst w1.
  - destruct (Hk a (w ++ evs)) as (evs' & Hw' & Hlog' & Hrej').
    exists (evs ++ evs'). rewrite Hw', app_assoc. split; [done|].
    rewrite !measure_app, Hlog, Hlog', Hrej. by split.
  - exists evs. by repeat split.
Qed.

Lemma propagates_for_each {A S} (f : S → A → M S) (l : list A) (s : S) :
  (∀ s x, propagates N (f s x)) → propagates N (for_each f s l).
Proof.
  intros Hf. revert s. induction l as [|x l IH]; intros s; simpl.
  - apply propagates_ret.
  - apply propagates_bind; [apply Hf|]. intros s'. apply IH.
Qed.

Lemma propagates_for_update {A} (f : A → M A) (l : list A) :
  (∀ x, propagates N (f x)) → propagates N (for_update f l).
Proof.
  intros Hf. induction l as [|x l IH]; simpl.
  - apply propagates_ret.
  - apply propagates_bind; [apply Hf|]. intros y.
    apply propagates_bind; [apply IH|]. intros l'. apply propagates_ret.
Qed.

End PropagatesRules.

Lemma propagates_weaken {A} (N N' : Prop) (m : M A) :
  (N → N') → propagates N m → propagates N' m.
Proof.
  intros HN Hm w. destruct (Hm w) as (evs & Hw & Hlog & Hrej).
  exists evs. split; [done|]. split; [done|].
  destruct (m w).1 as [a|[c|]]; [done|done|].
  destruct Hrej as [HNw Hrej]. split; [by apply HN|done].
Qed.

(** A loop throws a [TypeError] only at an element that can. *)
Lemma propagates_for_each_in {A S} (N : A → Prop) (f : S → A → M S)
    (l : list A) (s : S) :
  (∀ s x, x ∈ l → propagates (N x) (f s x)) →
  propagates (∃ x, x ∈ l ∧ N x) (for_each f s l).
Proof.
  revert s. induction l as [|x l IH]; intros s Hf; simpl.
  - apply propagates_ret.
  - apply propagates_bind.
    + apply (propagates_weaken (N x)).
      * intros Hx. exists x. split; [apply list_elem_of_here|done].
      * apply Hf. apply list_elem_of_here.
    + intros s'. apply (propagates_weaken (∃ y, y ∈ l ∧ N y)).
      * intros (y & Hy & HNy). exists y.
        split; [by apply list_elem_of_further|done].
      * apply IH. intros s'' y Hy. apply Hf. by apply list_elem_of_further.
Qed.

Ltac propagates_step :=
  first
    [ apply propagates_ret
    | apply propagates_position
    | apply propagates_emit; reflexivity
    | apply propagates_await
    | apply propagates_bind; [|intros ?]
    | apply propagates_for_each; intros ? ?
    | apply propagates_for_update; intros ? ].

Section RejectionExtras.
Context `{Runtime} (host : Host).

Lemma featureGeometry_propagates (N : Prop) (ed layer : nat) (g : Geometry) :
  propagates N (featureGeometry host ed layer g).
Proof.
  destruct g as [c|cs bbox|rings bbox|cs|lines|polygons|type]; simpl;
    unfold pointEntity, lineEntity, ringEntity, addCircle, addLine,
      addPolyline3d, setx;
    repeat propagates_step;
    try match goal with
        | |- propagates _ (match ?l with _ => _ end) =>
            destruct l as [|? [|? [|? ?]]]
        end;
    repeat propagates_step.
Qed.

Lemma featureGeometry_call_propagates (ed layer : nat)
    (g : option Geometry) :
  propagates (g = None) (featureGeometry_call host ed layer g).
Proof.
  destruct g as [g|]; simpl.
  - apply featureGeometry_propagates.
  - intros w. exists []. by rewrite app_nil_r.
Qed.

Lemma featureProps_propagates (N : Prop)
    (rawProps : gmap string PropertyValue) :
  propagates N (featureProps rawProps).
Proof.
  unfold featureProps. apply propagates_for_each. intros props [name prop].
  apply propagates_bind; [|intros ?; apply propagates_ret].
  destruct prop; simpl; repeat propagates_step.
Qed.

Lemma loadOne_propagates (ed parent : nat) (layerNames : list string)
    (layerIDs : N) (feature : Feature) :
  propagates (geometry feature = None)
    (loadOne host ed parent layerNames layerIDs feature).
Proof.
  unfold loadOne, setx. destruct (String.eqb _ _); [|repeat propagates_step].
  apply propagates_bind; [|intros [layer ids]; repeat propagates_step].
  unfold loadFeature.
  apply propagates_bind; [apply featureProps_propagates|]. intros props.
  destruct (assignLayerName _ _ _ _) as [data ids].
  apply propagates_bind; [unfold layers_add; repeat propagates_step|].
  intros layer.
  apply propagates_bind; [by apply propagates_emit|]. intros _.
  apply propagates_bind; [apply featureGeometry_call_propagates|]. intros g'.
  apply propagates_ret.
Qed.

Lemma writeLayers_propagates (ed : nat) (filename : string)
    (geoJSONs : gmap string GeoJSON) (layerNames : list string)
    (layerIDs : N) :
  propagates
    (∃ name geojson feature,
       geoJSONs !! name = Some geojson
       ∧ feature ∈ features geojson ∧ geometry feature = None)
    (writeLayers host ed filename geoJSONs layerNames layerIDs).
Proof.
  unfold writeLayers, loadShapes.
  apply propagates_bind; [unfold layers_add; repeat propagates_step|].
  intros root.
  apply propagates_bind; [by apply propagates_emit|]. intros _.
  apply propagates_bind; [by apply propagates_emit|]. intros _.
  apply propagates_bind; [|intros ?; apply propagates_ret].
  apply (propagates_weaken
           (∃ dataset : string * GeoJSON,
              dataset ∈ map_to_list geoJSONs
              ∧ ∃ feature, feature ∈ features dataset.2
                           ∧ geometry feature = None)).
  { intros ([name geojson] & Hin & feature & Hfeature & Hnull).
    exists name, geojson, feature. split; [|done].
    by apply elem_of_map_to_list. }
  apply (propagates_for_each_in
           (λ dataset : string * GeoJSON,
              ∃ feature, feature ∈ features dataset.2
                         ∧ geometry feature = None)).
  intros [i ids] [name geojson] _.
  unfold loadDataset, setx.
  destruct (String.eqb _ _); [|repeat propagates_step].
  apply propagates_bind; [by apply propagates_emit|]. intros _.
  apply propagates_bind; [by apply propagates_emit|]. intros _.
  apply propagates_bind; [unfold layers_add; repeat propagates_step|].
  intros parent.
  apply propagates_bind; [by apply propagates_emit|]. intros _.
  apply propagates_bind; [apply propagates_await|]. intros _.
  apply propagates_bind; [|intros ?; apply propagates_ret].
  apply (propagates_for_each_in (λ feature, geometry feature = None)).
  intros ids' feature _. apply loadOne_propagates.
Qed.

Lemma readDatasets_propagates (workspace : Workspace) :
  propagates False (readDatasets host workspace).
Proof.
  assert (∀ groups item, propagates False (addToGroups host groups item))
    as Hadd.
  { intros groups item. unfold addToGroups, item_get.
    apply propagates_bind; [repeat propagates_step|]. intros bytes.
    apply propagates_bind; [by apply propagates_emit|]. intros _.
    destruct (negb _); [repeat propagates_step|].
    destruct (groups !! _); [|case_bool_decide]; apply propagates_ret. }
  assert (∀ item groups,
            propagates False (extractGroups_item host groups item))
    as Hitem.
  { fix IH 1. intros [title [|] buffer entries] groups; simpl.
    - apply propagates_bind; [apply propagates_await|]. intros _.
      revert groups. induction entries as [|item items' IHitems];
        intros groups.
      + apply propagates_ret.
      + apply propagates_bind; [apply IH|]. intros groups'. apply IHitems.
    - apply (Hadd groups (mkItem title MimeFile buffer entries)). }
  unfold readDatasets.
  apply propagates_bind; [by apply propagates_emit|]. intros _.
  apply propagates_bind; [apply propagates_await|]. intros _.
  apply propagates_bind.
  { unfold extractGroups. apply propagates_for_each. intros groups item.
    apply Hitem. }
  intros groups. apply propagates_bind.
  { unfold decodeGeoJSONs. apply propagates_for_each.
    intros [geoJSONs propNames] [name group].
    apply propagates_bind; [apply propagates_await|]. intros _.
    destruct (String.eqb _ _); apply propagates_ret. }
  intros [geoJSONs propNames].
  apply propagates_bind; [|intros ?; apply propagates_ret].
  unfold choosePossibleLayerNameProps. repeat propagates_step.
Qed.

(** The collections that [readDatasets] returns are collections that the
    decoder of the host has delivered. *)
Lemma readDatasets_decoded (workspace : Workspace)
    (geoJSONs : gmap string GeoJSON) (layerNames : list string)
    (w w' : list Event) (name : string) (geojson : GeoJSON) :
  readDatasets host workspace w = (Ok (geoJSONs, layerNames), w') →
  geoJSONs !! name = Some geojson →
  ∃ group, geojson = shp host group.
Proof.
  unfold readDatasets. intros Hrun Hname.
  apply bind_ok_inv in Hrun as ([] & w1 & _ & Hrun).
  apply bind_ok_inv in Hrun as ([] & w2 & _ & Hrun).
  apply bind_ok_inv in Hrun as (groups & w3 & _ & Hrun).
  apply bind_ok_inv in Hrun as ([geoJSONs' cat] & w4 & Hdecode & Hrun).
  apply bind_ok_inv in Hrun as (names & w5 & _ & [= <- _ _]).
  destruct (decode_loop host _ _ _ _ _ _ _
              (NoDup_fst_map_to_list groups) Hdecode) as (Hdata & _).
  rewrite Hdata, list_to_map_to_list in Hname.
  destruct (groups !! name) as [group|]; [|by rewrite lookup_empty in Hname].
  injection Hname as <-. by exists group.
Qed.

(** The release block after a body that propagates its rejections. *)
Lemma session_block_rejections (N : Prop) (ed : nat) (body : M unit)
    (w : list Event) :
  propagates N body →
  ∃ r evs,
    try_finally body (await host CEndUpdate;; await host (CEndEdit ed)) w
    = (r, w ++ evs)
    ∧ measure loggedException evs = []
    ∧ length (measure rejectedCall evs) ≤ 2
    ∧ match r with
      | Ok _ => measure rejectedCall evs = []
      | Throw (Rejected c) => last (measure rejectedCall evs) = Some c
      | Throw TypeError => N ∧ measure rejectedCall evs = []
      end.
Proof.
  intros Hbody. unfold try_finally.
  destruct (Hbody w) as (e1 & Hw & Hlog & Hrej).
  destruct (body w) as [r1 w1]. simpl in Hw, Hrej. subst w1.
  assert (length (measure rejectedCall e1) ≤ 1) as Hlen.
  { destruct r1 as [[]|[c|]].
    - rewrite Hrej. simpl. lia.
    - rewrite Hrej. simpl. lia.
    - destruct Hrej as [_ ->]. simpl. lia. }
  rewrite run_bind.
  destruct (await_cases host CEndUpdate (w ++ e1)) as [-> | ->].
  { exists (Throw (Rejected CEndUpdate)), (e1 ++ [EAwait CEndUpdate false]).
    rewrite app_assoc. split; [done|].
    rewrite !measure_app, Hlog, length_app. simpl.
    split; [done|]. split; [lia|]. apply last_snoc. }
  destruct (await_cases host (CEndEdit ed)
              ((w ++ e1) ++ [EAwait CEndUpdate true])) as [-> | ->].
  { exists (Throw (Rejected (CEndEdit ed))),
           (e1 ++ [EAwait CEndUpdate true; EAwait (CEndEdit ed) false]).
    rewrite <- !app_assoc. split; [done|].
    rewrite !measure_app, Hlog, length_app. simpl.
    split; [done|]. split; [lia|]. apply last_snoc. }
  exists r1, (e1 ++ [EAwait CEndUpdate true; EAwait (CEndEdit ed) true]).
  rewrite <- !app_assoc. split; [done|].
  rewrite !measure_app, Hlog, length_app. simpl.
  split; [done|]. split; [lia|]. rewrite app_nil_r.
  destruct r1 as [[]|[c|]]; [done| |done].
  by rewrite Hrej.
Qed.

(** X17: [import] returns normally in every run, and at most two calls are
    rejected in it, the second one being one of the two calls that close
    the sessions.  When a call is rejected, the top-level handler logs
    exactly one exception, that of the last call rejected.  When none is,
    it logs nothing, or it logs one [TypeError], and then the decoder has
    delivered a feature without a geometry. *)
Theorem import_logs_last_rejection (workspace : Workspace)
    (drawing : Drawing) (w : list Event) :
  ∃ evs,
    import host workspace drawing w = (Ok tt, w ++ evs)
    ∧ length (measure rejectedCall evs) ≤ 2
    ∧ match last (measure rejectedCall evs) with
      | Some c => measure loggedException evs = [Rejected c]
      | None =>
          measure loggedException evs = []
          ∨ (measure loggedException evs = [TypeError]
             ∧ deliversNullGeometry host)
      end.
Proof.
  unfold import.
  rewrite (run_bind_ok _ _ _ _ _ (run_emit _ _)).
  rewrite (run_bind_ok _ _ _ _ _ (run_emit _ _)).
  unfold try_finally at 1. unfold try_catch.
  set (filename := default _ _).
  rewrite (run_bind_ok _ _ _ _ _ (run_emit _ _)).
  rewrite (run_bind_ok _ _ _ _ _ (run_emit _ _)).
  destruct (layouts drawing ≫= model) as [layout|].
  2:{ rewrite run_ret, run_emit. eexists. split.
      { rewrite <- !app_assoc. reflexivity. }
      simpl. split; [lia|]. by left. }
  rewrite run_bind.
  match goal with
  | |- context [readDatasets host workspace ?w1] =>
      destruct (readDatasets_propagates workspace w1)
        as (e1 & Hw1 & Hlog1 & Hrej1);
      destruct (readDatasets host workspace w1)
        as [[[geoJSONs names]|e] w1'] eqn:Hread
  end; simpl in Hw1, Hrej1; subst w1'.
  2:{ destruct e as [c|]; [|by destruct Hrej1].
      rewrite !run_emit. eexists. split.
      { rewrite <- !app_assoc. reflexivity. }
      rewrite !measure_app, Hlog1, Hrej1. simpl. split; [lia|done]. }
  rewrite run_bind.
  match goal with
  | |- context [await host CBeginUpdate ?w2] =>
      destruct (await_cases host CBeginUpdate w2) as [-> | ->]
  end.
  { rewrite !run_emit. eexists. split.
    { rewrite <- !app_assoc. reflexivity. }
    rewrite !measure_app, Hlog1, Hrej1. simpl. split; [lia|done]. }
  rewrite run_bind.
  match goal with
  | |- context [await host (CBeginEdit ?ed) ?w3] =>
      destruct (await_cases host (CBeginEdit ed) w3) as [-> | ->]
  end.
  { rewrite !run_emit. eexists. split.
    { rewrite <- !app_assoc. reflexivity. }
    rewrite !measure_app, Hlog1, Hrej1. simpl. split; [lia|done]. }
  match goal with
  | |- context [try_finally ?body _ ?w4] =>
      assert (propagates (deliversNullGeometry host) body) as Hbody;
      [|destruct (session_block_rejections _ (editor layout) body w4 Hbody)
          as (r & evs & -> & Hlog & Hlen & Hrej)]
  end.
  { apply propagates_bind; [|intros ?; apply propagates_ret].
    eapply propagates_weaken; [|apply writeLayers_propagates].
    intros (name & geojson & feature & Hname & Hfeature & Hnull).
    destruct (readDatasets_decoded workspace _ _ _ _ name geojson Hread Hname)
      as [group ->].
    by exists group, feature. }
  destruct r as [[]|[c|]].
  - rewrite run_emit. eexists. split.
    { rewrite <- !app_assoc. reflexivity. }
    rewrite !measure_app, Hlog1, Hrej1, Hlog, Hrej. simpl.
    split; [lia|]. by left.
  - rewrite !run_emit. eexists. split.
    { rewrite <- !app_assoc. reflexivity. }
    rewrite !measure_app, Hlog1, Hrej1, Hlog. simpl.
    rewrite app_nil_r, Hrej. split; [lia|done].
  - destruct Hrej as [Hnull Hrej]. rewrite !run_emit. eexists. split.
    { rewrite <- !app_assoc. reflexivity. }
    rewrite !measure_app, Hlog1, Hrej1, Hlog, Hrej. simpl.
    split; [lia|]. by right.
Qed.

End RejectionExtras.

(** * Sample runs of the properties beyond the specification *)

Section FurtherSampleRuns.

#[local] Existing Instance sample_runtime.

Lemma shp_extension_allowed :
  title_extension "parcels.shp" ∈ ALLOWED_EXTENSIONS.
Proof.
  apply (bool_decide_eq_true_1 (title_extension "parcels.shp"
                                  ∈ ALLOWED_EXTENSIONS)).
  vm_compute. reflexivity.
Qed.

Lemma parcels_name_not_inherited :
  title_name "parcels.shp" ∉ Object_prototype.
Proof.
  intros Hin.
  apply (bool_decide_eq_true_2
           (title_name "parcels.shp" ∈ Object_prototype)) in Hin.
  vm_compute in Hin. discriminate Hin.
Qed.

Lemma toString_name_inherited :
  title_name "toString.shp" ∈ Object_prototype.
Proof.
  apply (bool_decide_eq_true_1 (title_name "toString.shp"
                                  ∈ Object_prototype)).
  vm_compute. reflexivity.
Qed.

Lemma toString_extension_allowed :
  title_extension "toString.shp" ∈ ALLOWED_EXTENSIONS.
Proof.
  apply (bool_decide_eq_true_1 (title_extension "toString.shp"
                                  ∈ ALLOWED_EXTENSIONS)).
  vm_compute. reflexivity.
Qed.

Lemma area_not_inherited : "area" ∉ Object_prototype.
Proof.
  intros Hin.
  apply (bool_decide_eq_true_2 ("area" ∈ Object_prototype)) in Hin.
  vm_compute in Hin. discriminate Hin.
Qed.

(** The field [area] of any catalogue. *)
Lemma addPropName_classification_witness :
  (∀ x : number,
     if isFinite x
     then example (addPropName ∅ "area" (PNumber x)) "area" TNumber
          = Some (PNumber x)
     else addPropName ∅ "area" (PNumber x) = ∅)
  ∧ (∀ s : string,
       if (String.length s =? 0)%nat
       then addPropName ∅ "area" (PString s) = ∅
       else example (addPropName ∅ "area" (PString s)) "area" TString
            = Some (PString (dquote +:+ s +:+ dquote)))
  ∧ (∀ d : Date,
       if isNaN (valueOf d)
       then addPropName ∅ "area" (PDate d) = ∅
       else example (addPropName ∅ "area" (PDate d)) "area" TDate
            = Some (PString (Date_toLocaleString d))).
Proof.
  apply (addPropName_classification ∅ "area"). apply area_not_inherited.
Defined.

(** [toString.shp], delivered, is stored nowhere. *)
Lemma addToGroups_inherited_name_witness :
  addToGroups quiet_host ∅ (file "toString.shp" []) []
  = (Ok ∅,
     [] ++ [EAwait (CGet "toString.shp") true; EDetails "toString.shp"]).
Proof.
  apply (addToGroups_inherited_name quiet_host ∅ (file "toString.shp" []) []).
  - apply toString_extension_allowed.
  - apply toString_name_inherited.
  - vm_compute. discriminate.
  - reflexivity.
  - reflexivity.
Defined.

(** [parcels.shp], delivered, is the first buffer of the dataset
    [parcels]. *)
Lemma addToGroups_stores_witness :
  ∃ groups',
    addToGroups quiet_host ∅ (file "parcels.shp" []) []
    = (Ok groups',
       [] ++ [EAwait (CGet "parcels.shp") true; EDetails "parcels.shp"])
    ∧ storedBuffer groups' (title_name "parcels.shp")
                   (title_extension "parcels.shp")
      = Some []
    ∧ ∀ name extension,
        (name, extension)
        ≠ (title_name "parcels.shp", title_extension "parcels.shp") →
        storedBuffer groups' name extension = storedBuffer ∅ name extension.
Proof.
  apply (addToGroups_stores quiet_host ∅ (file "parcels.shp" []) []).
  - apply shp_extension_allowed.
  - apply parcels_name_not_inherited.
  - reflexivity.
Defined.

(** The grouping of the sample workspace, from the empty grouping. *)
Lemma extractGroups_wellGrouped_witness : wellGrouped sample_groups.
Proof.
  apply (extractGroups_wellGrouped quiet_host [root sample_workspace]
           ∅ sample_groups []
           (extractGroups quiet_host ∅ [root sample_workspace] []).2).
  - intros name group Hgroup. rewrite lookup_empty in Hgroup.
    discriminate Hgroup.
  - vm_compute. reflexivity.
Defined.

Lemma title_split_witness :
  "parcels.shp"
  = title_name "parcels.shp"
    +:+ substring (String.length "parcels.shp" - 4) 1 "parcels.shp"
    +:+ title_extension "parcels.shp"
  ∧ String.length (title_name "parcels.shp")
    = String.length "parcels.shp" - 4
  ∧ String.length (title_extension "parcels.shp") = 3.
Proof.
  apply (title_split "parcels.shp"). simpl. lia.
Defined.

Lemma title_short_witness :
  title_name "shp" = EmptyString ∧ title_extension "shp" = "shp".
Proof.
  apply (title_short "shp"). simpl. lia.
Defined.


(** The decoding of the sample grouping by the survey host. *)
Lemma decodeGeoJSONs_datasets_witness :
  sample_datasets !! "parcels"
  = match sample_groups !! "parcels" with
    | Some group => Some (shp survey_host group)
    | None => (∅ : gmap string GeoJSON) !! "parcels"
    end.
Proof.
  refine (decodeGeoJSONs_datasets survey_host ∅ sample_datasets ∅
            (returned (∅, ∅)
               (decodeGeoJSONs survey_host ∅ ∅ sample_groups [])).2
            sample_groups []
            (decodeGeoJSONs survey_host ∅ ∅ sample_groups []).2 _ "parcels").
  vm_compute. reflexivity.
Defined.

Lemma decodeGeoJSONs_wellCatalogued_witness :
  wellCatalogued
    (returned (∅, ∅) (decodeGeoJSONs survey_host ∅ ∅ sample_groups [])).2.
Proof.
  apply (decodeGeoJSONs_wellCatalogued survey_host ∅ sample_datasets ∅
           (returned (∅, ∅)
              (decodeGeoJSONs survey_host ∅ ∅ sample_groups [])).2
           sample_groups []
           (decodeGeoJSONs survey_host ∅ ∅ sample_groups []).2).
  - intros f examples Hf. rewrite lookup_empty in Hf. discriminate Hf.
  - vm_compute. reflexivity.
Defined.

Lemma decodeGeoJSONs_complete_witness :
  let cat' :=
    (returned (∅, ∅) (decodeGeoJSONs survey_host ∅ ∅ sample_groups [])).2 in
  (∀ f t, is_Some (example ∅ f t) → is_Some (example cat' f t))
  ∧ ∀ name group feature f v t ex,
      sample_groups !! name = Some group →
      geojson_type (shp survey_host group) = "FeatureCollection" →
      feature ∈ features (shp survey_host group) →
      feature_type feature = "Feature" →
      f ∉ Object_prototype →
      properties feature !! f = Some v →
      classify v = Some (t, ex) →
      is_Some (example cat' f t).
Proof.
  apply (decodeGeoJSONs_complete survey_host ∅ sample_datasets ∅
           (returned (∅, ∅)
              (decodeGeoJSONs survey_host ∅ ∅ sample_groups [])).2
           sample_groups []
           (decodeGeoJSONs survey_host ∅ ∅ sample_groups []).2).
  vm_compute. reflexivity.
Defined.

(** The lot keeps its name, whatever the approved candidates. *)
Lemma name_attribute_names_layer_witness :
  ∃ r evs,
    loadFeature quiet_host 5 sample_lot ["area"] 0%N [] = (r, [] ++ evs)
    ∧ requestedNames evs = [Some (typedProperty (PString "Lot 1"))]
    ∧ ∀ layer layerIDs', r = Ok (layer, layerIDs') → layerIDs' = 0%N.
Proof.
  apply (name_attribute_names_layer quiet_host 5 sample_lot ["area"] 0%N []
           (PString "Lot 1")).
  reflexivity.
Defined.

(** The gate: [label] is absent, [open] holds a boolean, and [kind], which
    holds a text, is not looked at. *)
Lemma unsupported_candidate_ends_scan_witness :
  ∃ r evs,
    loadFeature quiet_host 5 sample_gate (["label"] ++ "open" :: ["kind"])
                0%N []
    = (r, [] ++ evs)
    ∧ requestedNames evs = [Some (DString (pretty (0 + 1)%N))]
    ∧ ∀ layer layerIDs',
        r = Ok (layer, layerIDs') → layerIDs' = (0 + 1)%N.
Proof.
  apply (unsupported_candidate_ends_scan quiet_host 5 sample_gate
           ["label"] ["kind"] "open" (PBoolean true) 0%N []).
  - reflexivity.
  - intros k u Hk Hu. apply list_elem_of_singleton in Hk. subst k.
    vm_compute in Hu. discriminate Hu.
  - reflexivity.
  - reflexivity.
Defined.

(** The path of three points: one polyline, attached to the layer. *)
Lemma geometry_mapping_table_witness :
  (featureGeometry quiet_host 5 3 sample_path []).2
  = [] ++ geometryScript 5 3 (length ([] : list Event)) sample_path.
Proof.
  apply (geometry_mapping_table quiet_host 5 3 sample_path
           (returned sample_path (featureGeometry quiet_host 5 3 sample_path []))
           [] (featureGeometry quiet_host 5 3 sample_path []).2).
  vm_compute. reflexivity.
Defined.

(** The load of the gate under the approved candidate [kind]. *)
Lemma feature_load_script_witness :
  let w' := (loadOne quiet_host 5 1 ["kind"] 0%N sample_gate []).2 in
  let logs := propertyLogs (properties sample_gate) in
  let layer := length ([] : list Event) + length logs in
  ∃ rawGeometry,
    geometry sample_gate = Some rawGeometry
    ∧ w' = [] ++ logs
             ++ [EAwait (CLayersAdd (leafLayer sample_gate ["kind"] 0%N).1)
                        true;
                 EDisabled layer true]
             ++ geometryScript 5 layer (layer + 2) rawGeometry
             ++ [EAwait (CSetx layer "$layer" 1) true]
    ∧ 0%N = (leafLayer sample_gate ["kind"] 0%N).2.
Proof.
  apply (feature_load_script quiet_host 5 1 sample_gate ["kind"] 0%N 0%N []
           (loadOne quiet_host 5 1 ["kind"] 0%N sample_gate []).2).
  - reflexivity.
  - vm_compute. reflexivity.
Defined.

(** The layers of the sample collections: the root, the dataset, the lot
    and the road. *)
Lemma writeLayers_layer_count_witness :
  ∃ evs,
    (writeLayers quiet_host 5 "site" sample_datasets ["kind"] 0%N []).2
    = [] ++ evs
    ∧ length (requestedData evs) = S (layerCount (map_to_list sample_datasets)).
Proof.
  apply (writeLayers_layer_count quiet_host 5 "site" sample_datasets
           ["kind"] 0%N
           (returned 0%N
              (writeLayers quiet_host 5 "site" sample_datasets ["kind"] 0%N []))).
  vm_compute. reflexivity.
Defined.

(** A record without a shape: the load of its feature throws a
    [TypeError] although no call is rejected; the sessions are closed and the
    top-level handler logs the error. *)
Lemma shapeless_record_logged :
  measure rejectedCall
    (import shapeless_host sample_workspace sample_drawing []).2
  = []
  ∧ List.filter session_event
      (import shapeless_host sample_workspace sample_drawing []).2
    = [EAwait CBeginUpdate true; EAwait (CBeginEdit 5) true;
       EAwait CEndUpdate true; EAwait (CEndEdit 5) true;
       EException TypeError].
Proof. split; vm_compute; reflexivity. Qed.

End FurtherSampleRuns.
